(** * psiexperiment: the hardware-output streaming engine

    A shallow embedding of [psi/controller/output.py] (outputs, pull
    protocol, queued epoch outputs) and of the sensitivity lookup of
    [psi/controller/calibration/__init__.py], with the properties the
    specification states about them.

    Conventions.
    - Sample offsets are Python ints: [Z].  Sample counts (the [samples]
      argument of a pull, array lengths) are [nat].
    - A sample is a double that the engine only copies or zero-fills, so the
      sample type is a parameter with a distinguished [zero].
    - A method that mutates [self] takes the object and returns the new one.
      A method that may raise returns a [result]; the exception ends the
      call, as in Python.
    - Times in seconds and sampling rates are floats in the source; a float
      is embedded as the rational it stands for ([Q]).  Where the code cuts
      a sample offset out of float arithmetic ([pause], [resume]), every
      operation rounds its result to a double ([double]). *)

From Stdlib Require Import ZArith QArith Qround Qabs.
From stdpp Require Import base list strings gmap.

Local Open Scope Z_scope.

(** ** Exceptions and results *)

(** [RangeError] is the ring buffer's error of the specification; the others
    are the Python exceptions the embedded code raises or lets escape. *)
Inductive exn :=
  | SystemError
  | ValueError
  | AttributeError
  | IndexError
  | KeyError
  | TypeError
  | RangeError
  | CalibrationError.

Inductive result (X : Type) :=
  | Returns (x : X)
  | Raises (e : exn).
Arguments Returns {X} x.
Arguments Raises {X} e.

Definition and_then {X Y : Type} (m : result X) (k : X → result Y) : result Y :=
  match m with
  | Returns x => k x
  | Raises e => Raises e
  end.

Notation "'let*' p ':=' m 'in' k" :=
  (and_then m (λ x, match x with p => k end))
  (at level 10, p pattern, m at level 100, k at level 200,
   format "'[v' 'let*'  p  ':='  m  'in' '/' k ']'").

(** Python's [a > b] on sample counts. *)
#[export] Instance nat_gt_dec : RelDecision gt := λ a b, decide (b < a)%nat.

(** ** Samples and numpy helpers *)

Class Sample (A : Type) := zero : A.

Section Numpy.
Context {A : Type} `{Sample A}.

(** [np.zeros(n)] *)
Definition np_zeros (n : nat) : list A := replicate n zero.

(** The value that [target[...] = data] stores in a one-dimensional slice
    of [width] elements: [data] itself when the shapes agree, numpy's
    broadcast of a one-element array, and a ValueError otherwise. *)
Definition np_assign (width : nat) (data : list A) : result (list A) :=
  if decide (length data = width) then Returns data
  else match data with
       | [x] => Returns (replicate width x)
       | _ => Raises ValueError
       end.

(** [np.concatenate(arrays, axis=-1)] of one-dimensional arrays; numpy
    refuses an empty list of arrays. *)
Definition np_concatenate (arrays : list (list A)) : result (list A) :=
  match arrays with
  | [] => Raises ValueError
  | _ => Returns (concat arrays)
  end.
End Numpy.

(** ** SignalBuffer *)

Section SignalBuffer.
Context {A : Type}.

(** Modelled from the spec: the class [SignalBuffer] of [psi/util.py] is
    not part of the sources at hand; this is the SampleRingBuffer of the
    specification.  It caches the most recent samples, at most
    [capacity] of them, addressed by absolute offset: [cached] holds the
    samples of the offsets [samples_ub - length cached .. samples_ub). *)
Record SignalBuffer := mkSignalBuffer {
  capacity : nat;
  samples_ub : Z;
  cached : list A
}.

Definition get_samples_ub (b : SignalBuffer) : Z := samples_ub b.

Definition get_samples_lb (b : SignalBuffer) : Z :=
  samples_ub b - Z.of_nat (length (cached b)).

(** The last [n] elements of [l]. *)
Definition lastn (n : nat) (l : list A) : list A :=
  drop (length l - n)%nat l.

(** Modelled from the spec: [append] extends the valid range by the
    length of the data and drops the oldest excess over the capacity. *)
Definition append_data (b : SignalBuffer) (data : list A) : SignalBuffer :=
  {| capacity := capacity b;
     samples_ub := samples_ub b + Z.of_nat (length data);
     cached := lastn (capacity b) (cached b ++ data) |}.

(** Modelled from the spec: [get_range(lo, hi)] returns a copy of
    [lo, hi) and fails when [lo] is below the lower bound or [hi] above
    the upper bound.  The upper end defaults to the buffer's upper bound,
    as in the call [get_range_samples(lb)] of [get_samples]. *)
Definition get_range_samples (b : SignalBuffer) (lb : Z) (ub : option Z)
  : result (list A) :=
  let hi := default (get_samples_ub b) ub in
  if bool_decide (lb < get_samples_lb b ∨ get_samples_ub b < hi)
  then Raises RangeError
  else Returns (take (Z.to_nat (hi - lb))
                  (drop (Z.to_nat (lb - get_samples_lb b)) (cached b))).

(** Modelled from the spec: [invalidate_from(offset)] sets the upper bound
    to [min(ub, offset)]; the samples from there on are forgotten. *)
Definition invalidate_samples (b : SignalBuffer) (offset : Z) : SignalBuffer :=
  let ub := Z.min (samples_ub b) offset in
  {| capacity := capacity b;
     samples_ub := ub;
     cached := take (Z.to_nat (ub - get_samples_lb b)) (cached b) |}.
End SignalBuffer.
Arguments SignalBuffer A : clear implicits.

(** ** Waveform sources *)

(** The [source] of an output is an object of [psi.token]: the output calls
    [source.next(samples)], which advances the source, and
    [source.is_complete()].  The token classes are outside this module, so
    they are an interface here. *)
Class WaveformSource (A S : Type) := {
  next : S → nat → list A * S;
  is_complete : S → bool
}.

(** What the pull protocol relies on in a source: [next(n)] returns [n]
    samples, successive calls continue one waveform, and an epoch that is
    complete yields silence and stays complete. *)
Class SourceContract (A S : Type) `{Sample A} `{WaveformSource A S} : Prop := {
  next_length : ∀ s n, length (next s n).1 = n;
  next_add : ∀ s a b,
    next s (a + b) =
      ((next s a).1 ++ (next (next s a).2 b).1, (next (next s a).2 b).2);
  next_complete : ∀ s n,
    is_complete s = true →
    (next s n).1 = replicate n zero ∧ is_complete (next s n).2 = true
}.

(** ** BufferedOutput *)

(** The members of [BufferedOutput] that the pull protocol reads and
    writes.  [source] is [None] until a source is assigned and after
    [deactivate]. *)
Record BufferedOutput (A S : Type) := mkBufferedOutput {
  active : bool;
  source : option S;
  _buffer : SignalBuffer A;
  _offset : Z
}.
Arguments mkBufferedOutput {A S}.
Arguments active {A S}.
Arguments source {A S}.
Arguments _buffer {A S}.
Arguments _offset {A S}.

(** What [BufferedOutput.get_samples] needs of [self], whichever subclass
    it is: the ring buffer and the activation offset. *)
Class Buffered (A T : Type) := {
  buffer_of : T → SignalBuffer A;
  offset_of : T → Z;
  set_buffer : SignalBuffer A → T → T
}.

Section BufferedOutput.
Context {A : Type} `{Sample A}.

Definition set_source {S} (src : option S) (self : BufferedOutput A S)
  : BufferedOutput A S :=
  {| active := active self; source := src;
     _buffer := _buffer self; _offset := _offset self |}.

Definition set_active {S} (a : bool) (self : BufferedOutput A S)
  : BufferedOutput A S :=
  {| active := a; source := source self;
     _buffer := _buffer self; _offset := _offset self |}.

#[export] Instance BufferedOutput_buffered {S} : Buffered A (BufferedOutput A S) := {
  buffer_of := _buffer;
  offset_of := _offset;
  set_buffer b self :=
    {| active := active self; source := source self;
       _buffer := b; _offset := _offset self |}
}.

Definition activate {S} (self : BufferedOutput A S) (offset : Z)
  : BufferedOutput A S :=
  {| active := true;
     source := source self;
     _buffer := invalidate_samples (_buffer self) offset;
     _offset := offset |}.

Definition deactivate {S} (self : BufferedOutput A S) (offset : Z)
  : BufferedOutput A S :=
  {| active := false;
     source := None;
     _buffer := invalidate_samples (_buffer self) offset;
     _offset := _offset self |}.

Definition is_ready {S} (self : BufferedOutput A S) : bool :=
  bool_decide (source self ≠ None).

(** *** get_samples

    [get_samples(offset, samples, out)] fills the caller's array [out],
    which has [samples] elements.  The embedding returns the contents
    written to [out]: the three steps below write adjacent parts of it,
    front to back. *)
Section get_samples.
Context {T : Type} `{Buffered A T}.
(** The abstract method, implemented by the subclasses. *)
Variable get_next_samples : T → nat → result (list A * T).

(** The [if lb > buffered_ub ... elif ...] chain: what is served from
    the buffer, how many samples are still missing and from which
    offset.  When no branch applies nothing is served. *)
Definition serve_cached (self : T) (offset : Z) (samples : nat)
  : result (list A * nat * Z) :=
  let lb := offset in
  let ub := offset + Z.of_nat samples in
  let buffered_lb := get_samples_lb (buffer_of self) in
  let buffered_ub := get_samples_ub (buffer_of self) in
  if bool_decide (lb > buffered_ub) then
    Raises SystemError
  else if bool_decide (lb = buffered_ub) then
    Returns ([], samples, offset)
  else if bool_decide (lb >= buffered_lb ∧ ub <= buffered_ub) then
    let* b := get_range_samples (buffer_of self) lb (Some ub) in
    let* out := np_assign samples b in
    Returns (out, 0%nat, ub)
  else if bool_decide (lb >= buffered_lb ∧ ub > buffered_ub) then
    let* b := get_range_samples (buffer_of self) lb None in
    let s := length b in
    Returns (b, (samples - s)%nat, offset + Z.of_nat s)
  else
    Returns ([], samples, offset).

(** "Don't generate new samples if occuring before activation": zeros up
    to the activation offset, appended to the buffer. *)
Definition pad_before_activation (self : T) (offset : Z) (samples : nat)
  : list A * T * nat * Z :=
  if bool_decide ((samples > 0)%nat ∧ offset < offset_of self) then
    let s := Z.to_nat (Z.min (offset_of self - offset) (Z.of_nat samples)) in
    let data := np_zeros s in
    let self := set_buffer (append_data (buffer_of self) data) self in
    (data, self, (samples - s)%nat, offset + Z.of_nat s)
  else
    ([], self, samples, offset).

(** "Generate new samples": the rest comes from [get_next_samples], is
    appended to the buffer and stored in the last [samples] elements of
    [out]. *)
Definition generate (self : T) (samples : nat) : result (list A * T) :=
  if bool_decide (samples > 0)%nat then
    let* (data, self) := get_next_samples self samples in
    let self := set_buffer (append_data (buffer_of self) data) self in
    let* out := np_assign samples data in
    Returns (out, self)
  else
    Returns ([], self).

Definition get_samples (self : T) (offset : Z) (samples : nat)
  : result (list A * T) :=
  let* (cached_out, samples, offset) := serve_cached self offset samples in
  let '(zeros_out, self, samples, offset) :=
    pad_before_activation self offset samples in
  let* (new_out, self) := generate self samples in
  Returns (cached_out ++ zeros_out ++ new_out, self).

(** The second and third step together: what a pull adds after the cache
    has been consulted. *)
Definition fill (self : T) (offset : Z) (samples : nat) : result (list A * T) :=
  let '(zeros_out, self, samples, offset) :=
    pad_before_activation self offset samples in
  let* (new_out, self) := generate self samples in
  Returns (zeros_out ++ new_out, self).

(** A sequence of pulls without gaps: the first at [offset], each of
    the next where the previous one ended.  The chunks are
    concatenated. *)
Fixpoint get_samples_chunked (self : T) (offset : Z) (chunks : list nat)
  : result (list A * T) :=
  match chunks with
  | [] => Returns ([], self)
  | samples :: chunks =>
      let* (out, self) := get_samples self offset samples in
      let* (outs, self) :=
        get_samples_chunked self (offset + Z.of_nat samples) chunks in
      Returns (out ++ outs, self)
  end.
End get_samples.

(** *** EpochOutput *)
Section EpochOutput.
Context {S : Type} `{WaveformSource A S}.

Definition EpochOutput_get_next_samples
    (self : BufferedOutput A S) (samples : nat)
  : result (list A * BufferedOutput A S) :=
  if active self then
    let buffered_ub := get_samples_ub (_buffer self) in
    (* Pad with zero *)
    let zero_padding := Z.max (_offset self - buffered_ub) 0 in
    let zero_padding := Z.to_nat (Z.min zero_padding (Z.of_nat samples)) in
    let waveform_samples := (samples - zero_padding)%nat in
    let waveforms :=
      if decide (zero_padding = 0%nat) then [] else [np_zeros zero_padding] in
    let* (waveforms, self) :=
      if decide (waveform_samples = 0%nat) then Returns (waveforms, self)
      else match source self with
           | None => Raises AttributeError
           | Some src =>
               let '(w, src) := next src waveform_samples in
               Returns (waveforms ++ [w], set_source (Some src) self)
           end in
    let* self :=
      match source self with
      | None => Raises AttributeError
      | Some src =>
          if is_complete src
          then Returns (deactivate self (get_samples_ub (_buffer self)))
          else Returns self
      end in
    let* waveform := np_concatenate waveforms in
    Returns (waveform, self)
  else
    Returns (np_zeros samples, self).

Definition EpochOutput_get_samples :=
  get_samples EpochOutput_get_next_samples.

(** What [get_next_samples] amounts to once the buffer has reached the
    activation offset, when nothing is padded: the waveform and the new
    values of [active] and [source], which are all it depends on. *)
Definition EpochOutput_waveform (act : bool) (src : option S) (samples : nat)
  : result (list A * (bool * option S)) :=
  if act then
    match src with
    | None => Raises AttributeError
    | Some s =>
        let '(w, s) := next s samples in
        Returns (w, if is_complete s then (false, None) else (true, Some s))
    end
  else
    Returns (np_zeros samples, (false, src)).
End EpochOutput.

(** *** ContinuousOutput *)
Section ContinuousOutput.
Context {S : Type} `{WaveformSource A S}.

Definition ContinuousOutput_get_next_samples
    (self : BufferedOutput A S) (samples : nat)
  : result (list A * BufferedOutput A S) :=
  if active self then
    match source self with
    | None => Raises AttributeError
    | Some src =>
        let '(w, src) := next src samples in
        Returns (w, set_source (Some src) self)
    end
  else
    Returns (np_zeros samples, self).
End ContinuousOutput.
End BufferedOutput.

(** ** QueuedEpochOutput *)

(** The [queue] of a queued output is an [AbstractSignalQueue] of
    [psi/controller/queue.py], outside this module: the output calls
    [pop_buffer(samples, decrement)], which advances the queue,
    [is_empty()], [pause(time)] and [resume(time)]. *)
Class SignalQueue (A Qu : Type) := {
  pop_buffer : Qu → nat → bool → list A * Qu;
  is_empty : Qu → bool;
  queue_pause : Qu → Q → Qu;
  queue_resume : Qu → Q → Qu
}.

(** [enaml.application.deferred_call(cb)] hands [cb] to the event loop of
    the application, which invokes it on its next cycle, not in the
    caller.  [deferred] holds the calls that wait for the loop, [invoked]
    the ones the loop has made. *)
Record Application (CB : Type) := mkApplication {
  deferred : list CB;
  invoked : list CB
}.
Arguments mkApplication {CB}.
Arguments deferred {CB}.
Arguments invoked {CB}.

Definition deferred_call {CB} (cb : CB) (app : Application CB) : Application CB :=
  {| deferred := deferred app ++ [cb]; invoked := invoked app |}.

(** One cycle of the event loop: the waiting calls are made, in order. *)
Definition process_events {CB} (app : Application CB) : Application CB :=
  {| deferred := []; invoked := invoked app ++ deferred app |}.

(** The engine of the output's channel, as [pause] and [resume] use it:
    its clock [get_ts()], in seconds, and the calls of
    [update_hw_ao(name, offset)], recorded in order. *)
Record Engine := mkEngine {
  get_ts : Q;
  hw_ao_updates : list (string * Z)
}.

Definition update_hw_ao (engine : Engine) (name : string) (offset : Z) : Engine :=
  {| get_ts := get_ts engine;
     hw_ao_updates := hw_ao_updates engine ++ [(name, offset)] |}.

(** [int(x)] of a float: truncation towards zero. *)
Definition py_int (x : Q) : Z := Z.quot (Qnum x) (Z.pos (Qden x)).

(** [round(x)] of a float: the nearest integer, a tie going to the even
    one. *)
Definition py_round (x : Q) : Z :=
  let f := Qfloor x in
  match (x - inject_Z f ?= 1 # 2)%Q with
  | Lt => f
  | Gt => f + 1
  | Eq => if Z.even f then f else f + 1
  end.

(** Times and sampling rates are Python floats, that is, doubles; a
    double is embedded as the rational it stands for.  [ilog2 x] is the
    exponent of a positive [x]: [2 ^ ilog2 x <= x < 2 ^ (ilog2 x + 1)]. *)
Definition ilog2 (x : Q) : Z :=
  let c := Z.log2 (Qnum x) - Z.log2 (Z.pos (Qden x)) in
  if Qle_bool (Qpower 2 c) x then c else c - 1.

(** The double nearest to [x], a tie going to the even significand of 53
    bits: the rounding of IEEE 754 that every float operation of Python
    applies to its exact result.  (Overflow and subnormal numbers are
    left out: times in seconds and offsets in samples are far from
    them.) *)
Definition double (x : Q) : Q :=
  if Qeq_bool x 0 then 0
  else
    let e := ilog2 (Qabs x) - 52 in
    let m := py_round (Qabs x / Qpower 2 e) in
    Qred ((if Qle_bool 0 x then 1 else -1) * inject_Z m * Qpower 2 e).

(** [x + y] and [x * y] of floats. *)
Definition float_add (x y : Q) : Q := double (x + y).
Definition float_mul (x y : Q) : Q := double (x * y).

(** [self.source = self.queue]: the source of a queued output is its queue,
    the same object. *)
Inductive queue_ref := the_queue.

(** [buffered] holds the members inherited from [BufferedOutput];
    [complete] counts how often the event [complete] has been fired;
    [fs] and [channel_name] are [self.fs] and [self.channel.name]. *)
Record QueuedEpochOutput (A Qu CB : Type) := mkQueuedEpochOutput {
  buffered : BufferedOutput A queue_ref;
  queue : option Qu;
  auto_decrement : bool;
  complete_cb : option CB;
  complete : nat;
  paused : bool;
  fs : Q;
  channel_name : string
}.
Arguments mkQueuedEpochOutput {A Qu CB}.
Arguments buffered {A Qu CB}.
Arguments queue {A Qu CB}.
Arguments auto_decrement {A Qu CB}.
Arguments complete_cb {A Qu CB}.
Arguments complete {A Qu CB}.
Arguments paused {A Qu CB}.
Arguments fs {A Qu CB}.
Arguments channel_name {A Qu CB}.

Section QueuedEpochOutput.
Context {A : Type} `{Sample A} {Qu CB : Type} `{SignalQueue A Qu}.

Definition set_buffered (b : BufferedOutput A queue_ref)
    (self : QueuedEpochOutput A Qu CB) : QueuedEpochOutput A Qu CB :=
  {| buffered := b; queue := queue self;
     auto_decrement := auto_decrement self; complete_cb := complete_cb self;
     complete := complete self; paused := paused self;
     fs := fs self; channel_name := channel_name self |}.

Definition set_queue (q : option Qu)
    (self : QueuedEpochOutput A Qu CB) : QueuedEpochOutput A Qu CB :=
  {| buffered := buffered self; queue := q;
     auto_decrement := auto_decrement self; complete_cb := complete_cb self;
     complete := complete self; paused := paused self;
     fs := fs self; channel_name := channel_name self |}.

Definition set_paused (p : bool)
    (self : QueuedEpochOutput A Qu CB) : QueuedEpochOutput A Qu CB :=
  {| buffered := buffered self; queue := queue self;
     auto_decrement := auto_decrement self; complete_cb := complete_cb self;
     complete := complete self; paused := p;
     fs := fs self; channel_name := channel_name self |}.

(** [self.complete = True]: the event fires. *)
Definition fire_complete
    (self : QueuedEpochOutput A Qu CB) : QueuedEpochOutput A Qu CB :=
  {| buffered := buffered self; queue := queue self;
     auto_decrement := auto_decrement self; complete_cb := complete_cb self;
     complete := S (complete self); paused := paused self;
     fs := fs self; channel_name := channel_name self |}.

(** The state a pull of a queued output works on: the output and the
    application whose event loop receives the deferred calls. *)
Definition QueuedWorld : Type := QueuedEpochOutput A Qu CB * Application CB.

#[export] Instance QueuedWorld_buffered : Buffered A QueuedWorld := {
  buffer_of w := _buffer (buffered w.1);
  offset_of w := _offset (buffered w.1);
  set_buffer b w := (set_buffered (set_buffer b (buffered w.1)) w.1, w.2)
}.

Definition QueuedEpochOutput_get_next_samples (w : QueuedWorld) (samples : nat)
  : result (list A * QueuedWorld) :=
  let '(self, app) := w in
  if active (buffered self) then
    match queue self with
    | None => Raises AttributeError
    | Some q =>
        let '(waveform, q) := pop_buffer q samples (auto_decrement self) in
        let self := set_queue (Some q) self in
        match is_empty q, complete_cb self with
        | true, Some cb =>
            let self := fire_complete self in
            let app := deferred_call cb app in
            let self := set_buffered (set_active false (buffered self)) self in
            Returns (waveform, (self, app))
        | _, _ => Returns (waveform, (self, app))
        end
    end
  else
    Returns (np_zeros samples, (self, app)).

Definition QueuedEpochOutput_get_samples :=
  get_samples QueuedEpochOutput_get_next_samples.

(** A sequence of calls of [get_next_samples], with the waveforms
    returned. *)
Fixpoint QueuedEpochOutput_pulls (w : QueuedWorld) (chunks : list nat)
  : result (list (list A) * QueuedWorld) :=
  match chunks with
  | [] => Returns ([], w)
  | samples :: chunks =>
      let* (waveform, w) := QueuedEpochOutput_get_next_samples w samples in
      let* (waveforms, w) := QueuedEpochOutput_pulls w chunks in
      Returns (waveform :: waveforms, w)
  end.

(** The waveforms that successive calls of [pop_buffer] on the queue
    itself return, and the queue after them. *)
Fixpoint pop_buffers (q : Qu) (chunks : list nat) (decrement : bool)
  : list (list A) * Qu :=
  match chunks with
  | [] => ([], q)
  | samples :: chunks =>
      let '(waveform, q) := pop_buffer q samples decrement in
      let '(waveforms, q) := pop_buffers q chunks decrement in
      (waveform :: waveforms, q)
  end.

(** [pause] and [resume] run under [self.engine.lock]; the embedding is
    sequential, so the lock does not appear.  [engine] is [self.engine],
    which is [None] for an output without a channel: then
    [self.engine.lock] raises an [AttributeError], before anything else
    is done.  With an engine there is a channel, whose [fs] and [name]
    the output reads. *)
Definition pause (self : QueuedEpochOutput A Qu CB) (engine : option Engine)
  : result (QueuedEpochOutput A Qu CB * Engine) :=
  match engine with
  | None => Raises AttributeError
  | Some engine =>
      let self := set_paused true self in
      let pause_time := float_add (get_ts engine) 1 in
      let* q := match queue self with
                | None => Raises AttributeError
                | Some q => Returns (queue_pause q pause_time)
                end in
      let self := set_queue (Some q) self in
      let offset := py_int (float_mul (float_add pause_time 1) (fs self)) in
      let self :=
        set_buffered
          (set_buffer (invalidate_samples (_buffer (buffered self)) offset)
                      (buffered self)) self in
      let engine := update_hw_ao engine (channel_name self) offset in
      Returns (self, engine)
  end.

Definition resume (self : QueuedEpochOutput A Qu CB) (engine : option Engine)
  : result (QueuedEpochOutput A Qu CB * Engine) :=
  match engine with
  | None => Raises AttributeError
  | Some engine =>
      let resume_time := float_add (get_ts engine) 1 in
      let offset := py_int (float_mul (float_add resume_time 1) (fs self)) in
      let self :=
        set_buffered
          (set_buffer (invalidate_samples (_buffer (buffered self)) offset)
                      (buffered self)) self in
      let* q := match queue self with
                | None => Raises AttributeError
                | Some q => Returns (queue_resume q resume_time)
                end in
      let self := set_queue (Some q) self in
      let engine := update_hw_ao engine (channel_name self) offset in
      let self := set_paused false self in
      Returns (self, engine)
  end.

Definition toggle_pause (self : QueuedEpochOutput A Qu CB)
    (engine : option Engine)
  : result (QueuedEpochOutput A Qu CB * Engine) :=
  if paused self then resume self engine else pause self engine.
End QueuedEpochOutput.

(** ** Output.connect and Output.notify *)

(** [notify] receives a dict, copies it and updates the copy in place, so
    the objects live in a store.  A value of a dict is an immutable float,
    [None], or a reference to an object of the store: another dict or an
    array (the samples of a chunk, for instance). *)
Inductive value :=
  | VFloat (x : Q)
  | VNone
  | VRef (l : positive).

Inductive object :=
  | ODict (d : gmap string value)
  | OArray (xs : list Q).

(** The members of [Output] that [connect] and [notify] use.
    [filter_delay] is [self.target.filter_delay].  A callback is the code of
    an observer; it is identified by a name of type [CB]. *)
Record Output (CB : Type) := mkOutput {
  callbacks : list CB;
  filter_delay : Q
}.
Arguments mkOutput {CB}.
Arguments callbacks {CB}.
Arguments filter_delay {CB}.

Section Output.
Context {CB : Type}.

Definition connect (self : Output CB) (cb : CB) : Output CB :=
  {| callbacks := callbacks self ++ [cb]; filter_delay := filter_delay self |}.

(** [d['t0'] += delay] on the dict at [d], whose items are [fields].  A
    float is immutable: the sum is a new float, bound to the key.  An
    array is added to in place and the key keeps the reference. *)
Definition iadd_t0 (h : gmap positive object) (d : positive)
    (fields : gmap string value) (delay : Q)
  : result (gmap positive object) :=
  match fields !! "t0" with
  | None => Raises KeyError
  | Some (VFloat t0) =>
      Returns (<[d := ODict (<["t0" := VFloat (t0 + delay)%Q]> fields)]> h)
  | Some VNone => Raises TypeError
  | Some (VRef a) =>
      match h !! a with
      | Some (OArray xs) =>
          Returns (<[a := OArray ((λ x, x + delay)%Q <$> xs)]> h)
      | _ => Raises TypeError
      end
  end.

(** [notify(data)]: [data] is a reference into the store [h].  The result
    is the new store and the calls made, each with the callback and the
    reference it was given. *)
Definition notify (self : Output CB) (data : positive)
    (h : gmap positive object)
  : result (gmap positive object * list (CB * positive)) :=
  match h !! data with
  | Some (ODict fields) =>
      (* d = data.copy() *)
      let d := fresh (dom h) in
      let h := <[d := ODict fields]> h in
      let* h := iadd_t0 h d fields (filter_delay self) in
      Returns (h, (λ cb, (cb, d)) <$> callbacks self)
  | Some (OArray _) => Raises IndexError
  | None => Raises AttributeError
  end.
End Output.

(** ** Calibration *)

(** A double that may be NaN. *)
Inductive float :=
  | Finite (x : Q)
  | NaN.

Definition float_sub (x : float) (y : Q) : float :=
  match x with
  | Finite x => Finite (x - y)
  | NaN => NaN
  end.

(** An argument or result that is a scalar or an array ([np.iterable]). *)
Inductive arraylike (X : Type) :=
  | Scalar (x : X)
  | Iterable (xs : list X).
Arguments Scalar {X} x.
Arguments Iterable {X} xs.

Record FlatCalibration := mkFlatCalibration {
  flat_sensitivity : Q;
  flat_fixed_gain : Q
}.

Definition FlatCalibration_get_sens (self : FlatCalibration) (frequency : Q) : Q :=
  (flat_sensitivity self - flat_fixed_gain self)%Q.

Record PointCalibration := mkPointCalibration {
  point_frequency : list Q;
  point_sensitivity : list Q;
  point_fixed_gain : Q
}.

(** [np.flatnonzero(np.equal(xs, x))[0]]: the index of the first element
    equal to [x], if there is one. *)
Fixpoint first_equal (xs : list Q) (x : Q) : option nat :=
  match xs with
  | [] => None
  | y :: ys => if Qeq_bool y x then Some 0%nat else S <$> first_equal ys x
  end.

Definition PointCalibration__get_sens (self : PointCalibration) (frequency : Q)
  : result Q :=
  match first_equal (point_frequency self) frequency with
  | None => Raises CalibrationError
  | Some i =>
      match point_sensitivity self !! i with
      | Some s => Returns (s - point_fixed_gain self)%Q
      | None => Raises IndexError
      end
  end.

(** [[f(x) for x in xs]]: the first exception ends the loop. *)
Fixpoint for_each {X Y} (f : X → result Y) (xs : list X) : result (list Y) :=
  match xs with
  | [] => Returns []
  | x :: xs =>
      let* y := f x in
      let* ys := for_each f xs in
      Returns (y :: ys)
  end.

Definition PointCalibration_get_sens (self : PointCalibration)
    (frequency : arraylike Q) : result (arraylike Q) :=
  match frequency with
  | Iterable fs =>
      let* ys := for_each (PointCalibration__get_sens self) fs in
      Returns (Iterable ys)
  | Scalar f =>
      let* y := PointCalibration__get_sens self f in
      Returns (Scalar y)
  end.

(** The points of an interpolated calibration, as [interp1d] holds them:
    sorted by frequency. *)
Fixpoint insert_point (p : Q * Q) (pts : list (Q * Q)) : list (Q * Q) :=
  match pts with
  | [] => [p]
  | p' :: pts' =>
      if Qle_bool p.1 p'.1 then p :: pts else p' :: insert_point p pts'
  end.

Definition sort_points (pts : list (Q * Q)) : list (Q * Q) :=
  foldr insert_point [] pts.

(** The callable made by [scipy.interpolate.interp1d(x, y, 'linear',
    bounds_error=False)], from the documentation of scipy: linear
    interpolation between the neighbouring points for an argument within
    the range of [x]; outside of it no error is raised and the value is
    the fill value, which is NaN when none is given.  [pts] are the points
    sorted by [x]. *)
Fixpoint interp1d_call (pts : list (Q * Q)) (x_new : Q) : float :=
  match pts with
  | [] => NaN
  | (x0, y0) :: rest =>
      match rest with
      | [] => if Qeq_bool x_new x0 then Finite y0 else NaN
      | (x1, y1) :: _ =>
          if negb (Qle_bool x0 x_new) then NaN
          else if Qeq_bool x_new x0 then Finite y0
          else if Qle_bool x_new x1
               then Finite (y0 + (x_new - x0) * ((y1 - y0) / (x1 - x0)))%Q
               else interp1d_call rest x_new
      end
  end.

Record InterpCalibration := mkInterpCalibration {
  interp_frequency : list Q;
  interp_sensitivity : list Q;
  interp_fixed_gain : Q
}.

(** [self._interp], set in [__init__]. *)
Definition _interp (self : InterpCalibration) : Q → float :=
  interp1d_call
    (sort_points (zip (interp_frequency self) (interp_sensitivity self))).

Definition InterpCalibration_get_sens (self : InterpCalibration)
    (frequency : arraylike Q) : result (arraylike float) :=
  match frequency with
  | Scalar f => Returns (Scalar (float_sub (_interp self f) (interp_fixed_gain self)))
  | Iterable fs =>
      Returns (Iterable ((λ f, float_sub (_interp self f) (interp_fixed_gain self)) <$> fs))
  end.

(** The value a lookup outside the calibrated range would have if the
    curve were clamped to its nearest end point, and if its last (or first)
    segment were extended: the two policies the specification names. *)
Definition clamped (pts : list (Q * Q)) (x : Q) : option Q :=
  match pts, last pts with
  | (x0, y0) :: _, Some (xn, yn) =>
      if Qle_bool x x0 then Some y0 else Some yn
  | _, _ => None
  end.

Definition extrapolated (pts : list (Q * Q)) (x : Q) : option Q :=
  match pts, reverse pts with
  | (x0, y0) :: (x1, y1) :: _, (xn, yn) :: (xm, ym) :: _ =>
      if Qle_bool x x0
      then Some (y0 + (x - x0) * ((y1 - y0) / (x1 - x0)))%Q
      else Some (ym + (x - xm) * ((yn - ym) / (xn - xm)))%Q
  | _, _ => None
  end.

(** ** The trial queue *)

Module TrialQueue.
(** Modelled from the spec: [psi/controller/queue.py] is not part of the
    sources at hand.  An entry holds the factory of its waveform source
    (a fresh source, instantiated anew for each trial), the number of
    repeats, the silence after each trial and the length of a trial, the
    last two as sample counts, and the settings blob. *)
Record Entry (Src M : Type) := mkEntry {
  factory : Src;
  repeat_count : nat;
  inter_trial_gap : nat;
  total_duration : nat;
  metadata : M
}.
Arguments mkEntry {Src M}.
Arguments factory {Src M}.
Arguments repeat_count {Src M}.
Arguments inter_trial_gap {Src M}.
Arguments total_duration {Src M}.
Arguments metadata {Src M}.

(** Modelled from the spec: a record of the [uploaded] log. *)
Record Upload (M : Type) := mkUpload {
  t0 : Q;
  duration : nat;
  settings : M
}.
Arguments mkUpload {M}.
Arguments t0 {M}.
Arguments duration {M}.
Arguments settings {M}.

(** Modelled from the spec: the queue.  [current] is the trial being
    played, its source and the samples it still has to give; [gap_left]
    the inter-trial silence still to insert; [position] the current
    absolute offset, in samples. *)
Record t (Src M : Type) := mkQueue {
  fs : positive;
  entries : list (Entry Src M);
  current : option (Src * nat);
  gap_left : nat;
  position : Z;
  uploaded : list (Upload M)
}.
Arguments mkQueue {Src M}.
Arguments fs {Src M}.
Arguments entries {Src M}.
Arguments current {Src M}.
Arguments gap_left {Src M}.
Arguments position {Src M}.
Arguments uploaded {Src M}.

Section Operations.
Context {A : Type} `{Sample A} {Src : Type} `{WaveformSource A Src} {M : Type}.

Definition create (fs : positive) (offset : Z) : t Src M :=
  {| fs := fs; entries := []; current := None; gap_left := 0;
     position := offset; uploaded := [] |}.

(** Modelled from the spec: [append] pushes to the back. *)
Definition append (q : t Src M) (factory : Src) (repeat_count : nat)
    (inter_trial_gap total_duration : nat) (metadata : M) : t Src M :=
  {| fs := fs q;
     entries := entries q ++
       [mkEntry factory repeat_count inter_trial_gap total_duration metadata];
     current := current q; gap_left := gap_left q;
     position := position q; uploaded := uploaded q |}.

(** Modelled from the spec: an entry is discarded once its repeat count
    has reached zero; an entry whose count is zero is not played. *)
Fixpoint discard_exhausted (entries : list (Entry Src M))
  : list (Entry Src M) :=
  match entries with
  | [] => []
  | e :: rest =>
      if decide (repeat_count e = 0)%nat then discard_exhausted rest
      else entries
  end.

(** Modelled from the spec: [is_empty()] is true once all entries are
    discarded. *)
Definition is_empty (q : t Src M) : bool :=
  match discard_exhausted (entries q) with
  | [] => true
  | _ :: _ => false
  end.

Definition set_entries (es : list (Entry Src M)) (q : t Src M) : t Src M :=
  {| fs := fs q; entries := es; current := current q;
     gap_left := gap_left q; position := position q;
     uploaded := uploaded q |}.

(** Modelled from the spec: a new trial instantiation of the front
    entry; one record is appended to [uploaded], with the current
    absolute offset divided by [fs] as its [t0]. *)
Definition instantiate (e : Entry Src M) (q : t Src M) : t Src M :=
  {| fs := fs q; entries := entries q;
     current := Some (factory e, total_duration e);
     gap_left := gap_left q; position := position q;
     uploaded := uploaded q ++
       [mkUpload (position q # fs q) (total_duration e) (metadata e)] |}.

(** Modelled from the spec: the trial instantiation is complete; the
    inter-trial silence is due, the repeat count of the entry is
    decremented (if [auto_decrement]) and the entry is discarded once
    the count reaches zero. *)
Definition complete_trial (auto_decrement : bool) (q : t Src M) : t Src M :=
  {| fs := fs q;
     entries :=
       match entries q with
       | [] => []
       | e :: rest =>
           if auto_decrement then
             match (repeat_count e - 1)%nat with
             | O => rest
             | n =>
                 mkEntry (factory e) n (inter_trial_gap e)
                   (total_duration e) (metadata e) :: rest
             end
           else e :: rest
       end;
     current := None;
     gap_left :=
       match entries q with
       | [] => 0%nat
       | e :: _ => inter_trial_gap e
       end;
     position := position q;
     uploaded := uploaded q |}.

Definition advance (k : nat) (q : t Src M) : t Src M :=
  {| fs := fs q; entries := entries q; current := current q;
     gap_left := gap_left q; position := position q + Z.of_nat k;
     uploaded := uploaded q |}.

Definition set_current (c : option (Src * nat)) (q : t Src M) : t Src M :=
  {| fs := fs q; entries := entries q; current := c;
     gap_left := gap_left q; position := position q;
     uploaded := uploaded q |}.

Definition set_gap_left (g : nat) (q : t Src M) : t Src M :=
  {| fs := fs q; entries := entries q; current := current q;
     gap_left := g; position := position q; uploaded := uploaded q |}.

(** Modelled from the spec: [pop_buffer(n, auto_decrement)] draws [n]
    samples: from the current trial instantiation, then the
    inter-trial silence, then from a new instantiation of the first
    entry that has repeats left, and so on; a queue without such an
    entry gives silence.  Each round of the loop uses one unit of
    [fuel]; [None] means the fuel did not suffice. *)
Fixpoint pop_buffer_loop (fuel : nat) (q : t Src M) (n : nat)
    (auto_decrement : bool) : option (list A * t Src M) :=
  match n with
  | O => Some ([], q)
  | _ =>
      match fuel with
      | O => None
      | S fuel =>
          match current q with
          | Some (src, remaining) =>
              let k := (n `min` remaining)%nat in
              let '(w, src) := next src k in
              let q := advance k q in
              let q :=
                if decide (remaining - k = 0)%nat
                then complete_trial auto_decrement q
                else set_current (Some (src, (remaining - k)%nat)) q in
              '(ws, q) ← pop_buffer_loop fuel q (n - k) auto_decrement;
              Some (w ++ ws, q)
          | None =>
              if decide (gap_left q = 0)%nat then
                let q := set_entries (discard_exhausted (entries q)) q in
                match entries q with
                | [] => Some (np_zeros n, advance n q)
                | e :: _ =>
                    pop_buffer_loop fuel (instantiate e q) n auto_decrement
                end
              else
                let k := (n `min` gap_left q)%nat in
                let q := advance k (set_gap_left (gap_left q - k) q) in
                '(ws, q) ← pop_buffer_loop fuel q (n - k) auto_decrement;
                Some (np_zeros k ++ ws, q)
          end
      end
  end.

(** Two rounds for each sample and one more are enough when every
    trial has at least one sample; two more for each repeat allow for
    trials without samples, which end in the round after the one that
    starts them. *)
Definition pop_buffer (q : t Src M) (n : nat) (auto_decrement : bool)
  : option (list A * t Src M) :=
  pop_buffer_loop
    (2 * n + 2 * sum_list (repeat_count <$> entries q) + 1)
    q n auto_decrement.

(** A sequence of calls of [pop_buffer], each where the previous one
    ended; the chunks are concatenated. *)
Fixpoint drain (q : t Src M) (chunks : list nat) (auto_decrement : bool)
  : option (list A * t Src M) :=
  match chunks with
  | [] => Some ([], q)
  | n :: chunks =>
      '(w, q) ← pop_buffer q n auto_decrement;
      '(ws, q) ← drain q chunks auto_decrement;
      Some (w ++ ws, q)
  end.

(** The [t0] of the records increase strictly. *)
Fixpoint increasing (ts : list Q) : Prop :=
  match ts with
  | [] => True
  | x :: ts' => Forall (λ y, (x < y)%Q) ts' ∧ increasing ts'
  end.

Definition log_times (q : t Src M) : list Q := t0 <$> uploaded q.

(** The states of a queue whose trials all have at least one sample: the
    trial being played has samples left, the log is increasing, no record
    is later than the current offset, and between two trials every record
    is earlier. *)
Record well_formed (q : t Src M) : Prop := {
  wf_durations : Forall (λ e, (0 < total_duration e)%nat) (entries q);
  wf_current : ∀ src remaining,
    current q = Some (src, remaining) → (0 < remaining)%nat;
  wf_increasing : increasing (log_times q);
  wf_past : Forall (λ x, (x <= position q # fs q)%Q) (log_times q);
  wf_strictly_past :
    current q = None → Forall (λ x, (x < position q # fs q)%Q) (log_times q)
}.

(** Two states of a queue that differ at most in the state of the source
    of the trial being played: the schedule is the same. *)
Definition same_schedule (q1 q2 : t Src M) : Prop :=
  fs q1 = fs q2 ∧ entries q1 = entries q2 ∧ gap_left q1 = gap_left q2 ∧
  position q1 = position q2 ∧ uploaded q1 = uploaded q2 ∧
  snd <$> current q1 = snd <$> current q2.
End Operations.
End TrialQueue.


(** ** The controller plugin: discovery of the hardware *)

(** [for x in xs: body], where [body] updates the local variables [st]:
    the first exception ends the loop. *)
Fixpoint for_loop {St X} (body : St → X → result St) (st : St) (xs : list X)
  : result St :=
  match xs with
  | [] => Returns st
  | x :: xs =>
      let* st := body st x in
      for_loop body st xs
  end.

(** What [find_engines] reads of an [Engine]. *)
Record EngineItem := mkEngineItem {
  engine_name : string;
  master_clock : bool
}.

#[export] Instance EngineItem_eq_dec : EqDecision EngineItem.
Proof. solve_decision. Defined.

(** An input or output as the plugin sees it: a [Declarative] with a name
    and children. *)
#[warnings="-register-all"]
Inductive Declarative :=
  | mkDeclarative (name : string) (children : list Declarative).

Definition name (d : Declarative) : string :=
  match d with mkDeclarative name _ => name end.

Definition children (d : Declarative) : list Declarative :=
  match d with mkDeclarative _ children => children end.

(** What [find_outputs] reads of a [Synchronized]; its [outputs] are its
    children. *)
Record SynchronizedItem := mkSynchronizedItem {
  sync_name : string;
  sync_outputs : list Declarative
}.

(** What [find_outputs] reads of a channel: whether it is an
    [OutputMixin], and its children. *)
Record ChannelItem := mkChannelItem {
  is_OutputMixin : bool;
  channel_children : list Declarative
}.

(** An extension of the extension point [psi.controller.io]:
    [get_children(Engine)], [get_children(Output)] and
    [get_children(Synchronized)], each in the order of declaration. *)
Record IOExtension := mkIOExtension {
  ext_engines : list EngineItem;
  ext_outputs : list Declarative;
  ext_synchronized : list SynchronizedItem
}.

(** [get_outputs(output)]; [get_inputs(input)] is the same function of an
    input. *)
Fixpoint get_outputs (output : Declarative) : list Declarative :=
  match output with
  | mkDeclarative _ children =>
      (fix extend (children : list Declarative) : list Declarative :=
         match children with
         | [] => []
         | child :: children => get_outputs child ++ extend children
         end) children
      ++ [output]
  end.

Definition get_inputs (input : Declarative) : list Declarative :=
  get_outputs input.

(** The body of the loops of [find_engines].  The dict [engines] keeps
    the order of insertion, which [list(engines.values())] returns, and
    no key is ever overwritten: it is a list of pairs. *)
Definition find_engines_body
    (st : list (string * EngineItem) * option EngineItem) (e : EngineItem)
  : result (list (string * EngineItem) * option EngineItem) :=
  let '(engines, master_engine) := st in
  if bool_decide (engine_name e ∈ engines.*1) then Raises ValueError
  else
    let engines := engines ++ [(engine_name e, e)] in
    if master_clock e then
      match master_engine with
      | Some _ => Raises ValueError
      | None => Returns (engines, Some e)
      end
    else Returns (engines, master_engine).

Definition find_engines (point : list IOExtension)
  : result (list (string * EngineItem) * EngineItem) :=
  let* (engines, master_engine) :=
    for_loop (λ st extension,
                for_loop find_engines_body st (ext_engines extension))
      ([], None) point in
  (* The first engine is the master by default *)
  match master_engine with
  | Some master_engine => Returns (engines, master_engine)
  | None =>
      match engines.*2 with
      | [candidate] => Returns (engines, candidate)
      | _ => Raises ValueError
      end
  end.

(** [outputs[o.name] = o] *)
Definition add_output (outputs : gmap string Declarative) (o : Declarative)
  : gmap string Declarative :=
  <[name o := o]> outputs.

(** [channels] are the values of the dict of channels, in its order. *)
Definition find_outputs (channels : list ChannelItem) (point : list IOExtension)
  : gmap string Declarative * gmap string SynchronizedItem :=
  (* Find all the outputs already connected to a channel *)
  let outputs :=
    foldl (λ outputs c,
             if is_OutputMixin c then
               foldl (λ outputs o, foldl add_output outputs (get_outputs o))
                 outputs (channel_children c)
             else outputs)
      ∅ channels in
  (* Find unconnected outputs *)
  foldl (λ '(outputs, supporting) extension,
           let outputs := foldl add_output outputs (ext_outputs extension) in
           foldl (λ '(outputs, supporting) s,
                    (foldl add_output outputs (sync_outputs s),
                     <[sync_name s := s]> supporting))
             (outputs, supporting) (ext_synchronized extension))
    (outputs, ∅) point.

(** The outputs that [find_outputs] comes across, in the order in which
    it does. *)
Definition outputs_found (channels : list ChannelItem) (point : list IOExtension)
  : list Declarative :=
  (c ← channels;
   if is_OutputMixin c then o ← channel_children c; get_outputs o else [])
  ++ (extension ← point;
      ext_outputs extension
      ++ (s ← ext_synchronized extension; sync_outputs s)).

(** A node of the tree below [d], [d] included. *)
Inductive within : Declarative → Declarative → Prop :=
  | within_here d : within d d
  | within_child d c x : c ∈ children d → within x c → within x d.

(** The number of nodes of a tree. *)
Fixpoint tree_size (d : Declarative) : nat :=
  match d with
  | mkDeclarative _ children =>
      S ((fix sum (children : list Declarative) : nat :=
            match children with
            | [] => 0%nat
            | child :: children => (tree_size child + sum children)%nat
            end) children)
  end.

(** ** The controller plugin: events and actions *)

(** [s.endswith(suffix)] and [s[:-n]] *)
Definition endswith (s suffix : string) : bool :=
  bool_decide (String.list_ascii_of_string suffix `suffix_of` String.list_ascii_of_string s).

Definition drop_last (n : nat) (s : string) : string :=
  let l := String.list_ascii_of_string s in
  String.string_of_list_ascii (take (length l - n) l).

(** A value of a dict of keyword arguments. *)
#[warnings="-register-all"]
Inductive pyval :=
  | PStr (s : string)
  | PFloat (x : Q)
  | PNone
  | PDict (items : list (string * pyval)).

(** An action of [experiment_action.py], which is outside the sources at
    hand, as the plugin uses it: whether it is an [ExperimentAction] with
    a command, an [ExperimentCallback] with a callback, or neither; its
    [kwargs]; and its method [match(context)]. *)
Inductive ActionKind :=
  | ExperimentAction (command : string)
  | ExperimentCallback (callback : string)
  | ExperimentActionBase.

Record Action := mkAction {
  action_kind : ActionKind;
  action_kwargs : gmap string pyval;
  action_match : gmap string bool → bool
}.

(** The calls that [_invoke_action] makes: [core.invoke_command(command,
    parameters=kwargs)] and [action.callback] with the keyword arguments
    [kwargs].  The commands and callbacks are outside the plugin; the
    calls are recorded, in order. *)
Inductive Invocation :=
  | invoke_command (command : string) (parameters : gmap string pyval)
  | call_callback (callback : string) (kwargs : gmap string pyval).

(** The calls that the plugin hands to [deferred_call].  The callback of
    a timer is [lambda: self._invoke_actions(event_name, timestamp)]. *)
Inductive DeferredCall :=
  | call_stop_timer (name : string)
  | call_start_timer (name : string) (duration : Q)
      (event_name : string) (timestamp : Q).

(** The members of [ControllerPlugin] that the invocation of actions
    reads and writes.  A timer is its duration and the arguments of its
    callback; [plugin_ts] is [self.get_ts()], the clock of the master
    engine. *)
Record ControllerPlugin := mkControllerPlugin {
  _action_context : gmap string bool;
  _registered_actions : list Action;
  _plugin_actions : list Action;
  _timers : gmap string (Q * (string * Q));
  plugin_ts : Q
}.

Definition _get__actions (self : ControllerPlugin) : list Action :=
  _registered_actions self ++ _plugin_actions self.

Definition set_action_context (context : gmap string bool)
    (self : ControllerPlugin) : ControllerPlugin :=
  {| _action_context := context;
     _registered_actions := _registered_actions self;
     _plugin_actions := _plugin_actions self;
     _timers := _timers self;
     plugin_ts := plugin_ts self |}.

Definition set_timers (timers : gmap string (Q * (string * Q)))
    (self : ControllerPlugin) : ControllerPlugin :=
  {| _action_context := _action_context self;
     _registered_actions := _registered_actions self;
     _plugin_actions := _plugin_actions self;
     _timers := timers;
     plugin_ts := plugin_ts self |}.

(** The plugin, the event loop of the application and the calls made so
    far. *)
Record PluginWorld := mkPluginWorld {
  plugin : ControllerPlugin;
  application : Application DeferredCall;
  invocations : list Invocation
}.

Definition defer (call : DeferredCall) (w : PluginWorld) : PluginWorld :=
  {| plugin := plugin w;
     application := deferred_call call (application w);
     invocations := invocations w |}.

Definition _invoke_action (action : Action) (event_name : string)
    (timestamp : option Q) (kw : option (gmap string pyval))
    (calls : list Invocation) : list Invocation :=
  let kwargs := action_kwargs action in
  let kwargs := <["timestamp" := from_option PFloat PNone timestamp]> kwargs in
  let kwargs := <["event" := PStr event_name]> kwargs in
  let kwargs :=
    match kw with
    | Some kw => kw ∪ kwargs   (* kwargs.update(kw) *)
    | None => kwargs
    end in
  match action_kind action with
  | ExperimentAction command => calls ++ [invoke_command command kwargs]
  | ExperimentCallback callback => calls ++ [call_callback callback kwargs]
  | ExperimentActionBase => calls
  end.

(** "If this is a stateful event, update the associated state." *)
Definition update_state (context : gmap string bool) (event_name : string)
  : gmap string bool :=
  if endswith event_name "_start" then
    <[drop_last 6 event_name +:+ "_active" := true]> context
  else if endswith event_name "_end" then
    <[drop_last 4 event_name +:+ "_active" := false]> context
  else context.

(** [_invoke_actions] from the update of the state on: what it does
    after its call of [invoke_actions]. *)
Definition trigger (w : PluginWorld) (event_name : string)
    (timestamp : option Q) (kw : option (gmap string pyval)) : PluginWorld :=
  let self :=
    set_action_context
      (update_state (_action_context (plugin w)) event_name) (plugin w) in
  (* a copy of the context, with the event set to True *)
  let context := <[event_name := true]> (_action_context self) in
  {| plugin := self;
     application := application w;
     invocations :=
       foldl (λ calls action,
                if action_match action context
                then _invoke_action action event_name timestamp kw calls
                else calls)
         (invocations w) (_get__actions self) |}.

(** [_invoke_actions] and [invoke_actions] call each other.  The call in
    [_invoke_actions] is [invoke_actions('experiment_event', kw=...)]:
    it cancels the timer of [experiment_event], is not delayed and
    passes no timestamp, so that the recursion ends in it. *)
Definition _invoke_actions (w : PluginWorld) (event_name : string)
    (timestamp : option Q) (kw : option (gmap string pyval)) : PluginWorld :=
  let w :=
    match timestamp with
    | Some t =>
        let data :=
          PDict [("event", PStr event_name); ("timestamp", PFloat t)] in
        let w := defer (call_stop_timer "experiment_event") w in
        trigger w "experiment_event" None (Some {["data" := data]})
    | None => w
    end in
  trigger w event_name timestamp kw.

Definition invoke_actions (w : PluginWorld) (event_name : string)
    (timestamp : option Q) (delayed cancel_existing : bool)
    (kw : option (gmap string pyval)) : result PluginWorld :=
  let w := if cancel_existing then defer (call_stop_timer event_name) w
           else w in
  if delayed then
    match timestamp with
    | None => Raises TypeError
    | Some t =>
        let delay := (t - plugin_ts (plugin w))%Q in
        if Qlt_le_dec 0 delay then
          Returns (defer (call_start_timer event_name delay event_name t) w)
        else Returns (_invoke_actions w event_name timestamp kw)
    end
  else Returns (_invoke_actions w event_name timestamp kw).

Definition start_timer (self : ControllerPlugin) (name : string)
    (duration : Q) (callback : string * Q) : ControllerPlugin :=
  set_timers (<[name := (duration, callback)]> (_timers self)) self.

Definition stop_timer (self : ControllerPlugin) (name : string)
  : ControllerPlugin :=
  match _timers self !! name with
  | Some _ => set_timers (delete name (_timers self)) self
  | None => self
  end.

(** The event loop makes the deferred calls, in order. *)
Definition run_deferred (self : ControllerPlugin) (call : DeferredCall)
  : ControllerPlugin :=
  match call with
  | call_stop_timer name => stop_timer self name
  | call_start_timer name duration event_name timestamp =>
      start_timer self name duration (event_name, timestamp)
  end.

Definition run_event_loop (w : PluginWorld) : PluginWorld :=
  {| plugin := foldl run_deferred (plugin w) (deferred (application w));
     application := process_events (application w);
     invocations := invocations w |}.

(** The timer [name] fires: its callback is called. *)
Definition timeout (w : PluginWorld) (name : string) : PluginWorld :=
  match _timers (plugin w) !! name with
  | Some (_, (event_name, timestamp)) =>
      _invoke_actions w event_name (Some timestamp) None
  | None => w
  end.

(** ** Example sources *)

#[export] Instance Z_sample : Sample Z := 0.

(** An epoch of finitely many samples that pads its output with zeros once
    they are used up, and is complete from then on. *)
Record PaddedEpoch := mkPaddedEpoch { padded_rest : list Z }.

#[export] Instance PaddedEpoch_source : WaveformSource Z PaddedEpoch := {
  next s n :=
    (take n (padded_rest s) ++ np_zeros (n - length (padded_rest s)),
     mkPaddedEpoch (drop n (padded_rest s)));
  is_complete s := bool_decide (padded_rest s = [])
}.

(** An epoch that yields only the samples it has left. *)
Record BareEpoch := mkBareEpoch { bare_rest : list Z }.

#[export] Instance BareEpoch_source : WaveformSource Z BareEpoch := {
  next s n := (take n (bare_rest s), mkBareEpoch (drop n (bare_rest s)));
  is_complete s := bool_decide (bare_rest s = [])
}.

(** A continuous source: the sample at position [i] is [i + 1]. *)
Record Ramp := mkRamp { ramp_pos : nat }.

#[export] Instance Ramp_source : WaveformSource Z Ramp := {
  next s n := (Z.of_nat <$> seq (S (ramp_pos s)) n, mkRamp (ramp_pos s + n));
  is_complete s := false
}.

(** A queue that holds the samples still to be played and gives silence
    once they are used up; it keeps the times at which it was paused and
    resumed. *)
Record TapeQueue := mkTapeQueue {
  tape : list Z;
  pause_times : list Q;
  resume_times : list Q
}.

#[export] Instance TapeQueue_queue : SignalQueue Z TapeQueue := {
  pop_buffer q n decrement :=
    (take n (tape q) ++ np_zeros (n - length (tape q)),
     mkTapeQueue (drop n (tape q)) (pause_times q) (resume_times q));
  is_empty q := bool_decide (tape q = []);
  queue_pause q t := mkTapeQueue (tape q) (pause_times q ++ [t]) (resume_times q);
  queue_resume q t := mkTapeQueue (tape q) (pause_times q) (resume_times q ++ [t])
}.

(** ** Example states *)

(** The queue of the specification's scenario: A (three samples) twice,
    then B (two samples) once, no inter-trial gap, at 100 samples per
    second. *)
Definition queue_A2_B1 : TrialQueue.t PaddedEpoch string :=
  TrialQueue.append
    (TrialQueue.append (TrialQueue.create 100 0)
       (mkPaddedEpoch [1; 2; 3]) 2 0 3 "A")
    (mkPaddedEpoch [7; 8]) 1 0 2 "B".

(** An active queued output at 2 samples per second whose queue has two
    samples left and whose buffer holds six samples; [cb] is its
    completion callback. *)
Definition queued_with_2_left (cb : option string)
  : QueuedEpochOutput Z TapeQueue string :=
  {| buffered :=
       {| active := true;
          source := Some the_queue;
          _buffer := {| capacity := 16; samples_ub := 6;
                        cached := [1; 2; 3; 4; 5; 6] |};
          _offset := 0 |};
     queue := Some (mkTapeQueue [5; 6] [] []);
     auto_decrement := true;
     complete_cb := cb;
     complete := 0;
     paused := false;
     fs := 2;
     channel_name := "ao0" |}.

Definition idle_application : Application string :=
  {| deferred := []; invoked := [] |}.

(** An active continuous-like epoch output whose buffer has lost the
    samples before offset 4: it caches the offsets 4 to 8. *)
Definition output_with_evicted_start : BufferedOutput Z Ramp :=
  {| active := true;
     source := Some (mkRamp 10);
     _buffer := {| capacity := 8; samples_ub := 8; cached := [1; 2; 3; 4] |};
     _offset := 0 |}.

(** An active epoch output, nothing pulled yet, whose source has exactly
    three samples left and yields no more than it has. *)
Definition epoch_with_3_left : BufferedOutput Z BareEpoch :=
  {| active := true;
     source := Some (mkBareEpoch [7; 8; 9]);
     _buffer := {| capacity := 16; samples_ub := 0; cached := [] |};
     _offset := 0 |}.

(** The same with a source that pads its output with zeros. *)
Definition padded_epoch_with_3_left : BufferedOutput Z PaddedEpoch :=
  {| active := true;
     source := Some (mkPaddedEpoch [7; 8; 9]);
     _buffer := {| capacity := 16; samples_ub := 0; cached := [] |};
     _offset := 0 |}.

(** An epoch output with three samples to play, activated at offset 4,
    whose buffer still ends at offset 0. *)
Definition epoch_activated_at_4 : BufferedOutput Z PaddedEpoch :=
  {| active := true;
     source := Some (mkPaddedEpoch [7; 8; 9]);
     _buffer := {| capacity := 16; samples_ub := 0; cached := [] |};
     _offset := 4 |}.

(** An engine whose clock reads zero and that has not been asked to
    update an output yet. *)
Definition engine_at_0 : Engine := {| get_ts := 0; hw_ao_updates := [] |}.

(** The same output at 100 kHz, and an engine whose clock reads the float
    [3e-05]. *)
Definition queued_at_100kHz : QueuedEpochOutput Z TapeQueue string :=
  {| buffered := buffered (queued_with_2_left None);
     queue := queue (queued_with_2_left None);
     auto_decrement := true;
     complete_cb := None;
     complete := 0;
     paused := false;
     fs := 100000;
     channel_name := "ao0" |}.

Definition engine_at_30us : Engine :=
  {| get_ts := double (3 # 100000); hw_ao_updates := [] |}.

(** A store with one chunk, at 1: its [t0] is a float and its samples are
    the array at 2. *)
Definition chunk_fields : gmap string value :=
  <["t0" := VFloat 1]> (<["samples" := VRef 2]> ∅).

Definition chunk_store : gmap positive object :=
  <[1%positive := ODict chunk_fields]>
    (<[2%positive := OArray [3; 4; 5]%Q]> ∅).

(** A store whose chunk holds its [t0] in an array, at 2. *)
Definition array_t0_store : gmap positive object :=
  <[1%positive := ODict (<["t0" := VRef 2]> ∅)]>
    (<[2%positive := OArray [1]%Q]> ∅).

(** An output with a filter delay of half a second, observed by a logger
    and a plot, connected in this order. *)
Definition observed_output : Output string :=
  connect (connect (mkOutput [] (1 # 2)) "log") "plot".

(** A calibration measured at 1 Hz and 2 Hz, as an interpolated and as a
    point calibration. *)
Definition two_point_interp : InterpCalibration :=
  mkInterpCalibration [1; 2]%Q [10; 20]%Q 0.

Definition two_point_exact : PointCalibration :=
  mkPointCalibration [1; 2]%Q [10; 20]%Q 0.

(** A plugin whose clock reads 5 seconds, with a callback that logs every
    event and a command that is bound to the state [trial]. *)
Definition reward_action : Action :=
  mkAction (ExperimentAction "reward") ∅
    (λ context, bool_decide (context !! "trial_active" = Some true)).

Definition plugin_at_5 : PluginWorld :=
  {| plugin :=
       {| _action_context :=
            <["trial_active" := false]> (<["trial_start" := false]> ∅);
          _registered_actions :=
            [mkAction (ExperimentCallback "log") ∅ (λ _, true)];
          _plugin_actions := [reward_action];
          _timers := ∅;
          plugin_ts := 5 |};
     application := {| deferred := []; invoked := [] |};
     invocations := [] |}.

(** * Properties *)

(** ** Results *)

Lemma and_then_Raises {X Y} (m : result X) (k : X → result Y) e :
  and_then m k = Raises e →
  m = Raises e ∨ ∃ x, m = Returns x ∧ k x = Raises e.
Proof. destruct m as [x|e']; simpl; [eauto | intros [= ->]; auto]. Qed.

(** ** The ring buffer *)

Section SignalBufferFacts.
Context {A : Type}.
Implicit Types (b : SignalBuffer A) (l d : list A).

Lemma lastn_all n l : (length l ≤ n)%nat → lastn n l = l.
Proof.
  intros Hn. unfold lastn.
  replace (length l - n)%nat with 0%nat by lia. apply drop_0.
Qed.

Lemma lastn_app_lastn n l d : lastn n (lastn n l ++ d) = lastn n (l ++ d).
Proof.
  destruct (decide (length l ≤ n)%nat) as [Hle|Hgt].
  - by rewrite (lastn_all n l).
  - unfold lastn. rewrite !length_app, length_drop.
    replace (length l + length d - n)%nat
      with ((length l - n) + length d)%nat by lia.
    rewrite <- drop_drop, (drop_app_le l d (length l - n)) by lia.
    f_equal. lia.
Qed.

Lemma append_data_app b d1 d2 :
  append_data (append_data b d1) d2 = append_data b (d1 ++ d2).
Proof.
  unfold append_data; simpl. f_equal.
  - rewrite length_app. lia.
  - by rewrite lastn_app_lastn, app_assoc.
Qed.

Lemma invalidate_samples_ub b : invalidate_samples b (get_samples_ub b) = b.
Proof.
  destruct b as [c u l].
  unfold invalidate_samples, get_samples_ub, get_samples_lb; simpl.
  rewrite Z.min_id. f_equal. apply take_ge. lia.
Qed.

Lemma bounds_ordered b : get_samples_lb b ≤ get_samples_ub b.
Proof. unfold get_samples_lb, get_samples_ub. lia. Qed.
End SignalBufferFacts.

(** ** The contract of a pull: no gap *)

Section NoGap.
Context {A : Type} `{Sample A}.

Lemma np_assign_Raises width (data : list A) e :
  np_assign width data = Raises e → e = ValueError.
Proof.
  unfold np_assign. case_decide; [discriminate|].
  destruct data as [|x [|y data]]; congruence.
Qed.

Lemma get_range_samples_Raises (b : SignalBuffer A) lb ub e :
  get_range_samples b lb ub = Raises e → e = RangeError.
Proof. unfold get_range_samples. case_bool_decide; congruence. Qed.

Section Generic.
Context {T : Type} `{Buffered A T}.
Variable get_next_samples : T → nat → result (list A * T).
Hypothesis get_next_samples_no_SystemError :
  ∀ self samples, get_next_samples self samples ≠ Raises SystemError.

Lemma serve_cached_SystemError (self : T) offset samples :
  serve_cached self offset samples = Raises SystemError ↔
  get_samples_ub (buffer_of self) < offset.
Proof.
  unfold serve_cached. split.
  - repeat case_bool_decide; try lia; try discriminate; intros Hr.
    + apply and_then_Raises in Hr as [Hr|(b & _ & Hr)].
      * by apply get_range_samples_Raises in Hr.
      * apply and_then_Raises in Hr as [Hr|(? & _ & [=])].
        by apply np_assign_Raises in Hr.
    + apply and_then_Raises in Hr as [Hr|(? & _ & [=])].
      by apply get_range_samples_Raises in Hr.
  - intros Hgap. rewrite bool_decide_eq_true_2; [done | lia].
Qed.

Lemma generate_no_SystemError (self : T) samples :
  generate get_next_samples self samples ≠ Raises SystemError.
Proof.
  unfold generate. case_bool_decide; [|discriminate]. intros Hr.
  apply and_then_Raises in Hr as [Hr|([data self'] & _ & Hr)].
  - by apply get_next_samples_no_SystemError in Hr.
  - apply and_then_Raises in Hr as [Hr|(? & _ & [=])].
    by apply np_assign_Raises in Hr.
Qed.

Lemma get_samples_SystemError (self : T) offset samples :
  get_samples get_next_samples self offset samples = Raises SystemError ↔
  get_samples_ub (buffer_of self) < offset.
Proof.
  rewrite <- serve_cached_SystemError with (samples := samples).
  unfold get_samples. split.
  - intros Hr.
    apply and_then_Raises in Hr as [Hr|([[out n] o] & _ & Hr)]; [done|].
    destruct (pad_before_activation self o n) as [[[zs self'] n'] o'].
    apply and_then_Raises in Hr as [Hr|([? ?] & _ & [=])].
    by apply generate_no_SystemError in Hr.
  - by intros ->.
Qed.
End Generic.

Lemma EpochOutput_no_SystemError {S} `{WaveformSource A S}
    (self : BufferedOutput A S) samples :
  EpochOutput_get_next_samples self samples ≠ Raises SystemError.
Proof.
  unfold EpochOutput_get_next_samples, np_concatenate.
  repeat (case_match || case_decide || simpl); try discriminate.
Qed.

Lemma ContinuousOutput_no_SystemError {S} `{WaveformSource A S}
    (self : BufferedOutput A S) samples :
  ContinuousOutput_get_next_samples self samples ≠ Raises SystemError.
Proof.
  unfold ContinuousOutput_get_next_samples.
  repeat case_match; discriminate.
Qed.

Lemma QueuedEpochOutput_no_SystemError {Qu CB} `{SignalQueue A Qu}
    (w : QueuedEpochOutput A Qu CB * Application CB) samples :
  QueuedEpochOutput_get_next_samples w samples ≠ Raises SystemError.
Proof.
  unfold QueuedEpochOutput_get_next_samples.
  repeat case_match; discriminate.
Qed.

(** C2.  A pull [get_samples(offset, samples)] of a buffered output,
    whichever kind it is (epoch, continuous or queued epoch output),
    raises the SystemError "Mismatch between offsets" exactly when
    [offset] is beyond the upper bound of the buffer: a pull that would
    leave a gap fails with it and returns nothing, and a pull at or below
    the bound never raises it. *)
Theorem get_samples_gap_iff_SystemError :
  (∀ S (src : WaveformSource A S) (self : BufferedOutput A S) offset samples,
      EpochOutput_get_samples self offset samples = Raises SystemError ↔
      get_samples_ub (_buffer self) < offset) ∧
  (∀ S (src : WaveformSource A S) (self : BufferedOutput A S) offset samples,
      get_samples ContinuousOutput_get_next_samples self offset samples
        = Raises SystemError ↔
      get_samples_ub (_buffer self) < offset) ∧
  (∀ Qu CB (qu : SignalQueue A Qu)
     (self : QueuedEpochOutput A Qu CB) (app : Application CB) offset samples,
      QueuedEpochOutput_get_samples (self, app) offset samples
        = Raises SystemError ↔
      get_samples_ub (_buffer (buffered self)) < offset).
Proof.
  split; [|split]; intros.
  - exact (get_samples_SystemError _ EpochOutput_no_SystemError _ _ _).
  - exact (get_samples_SystemError _ ContinuousOutput_no_SystemError _ _ _).
  - exact (get_samples_SystemError _ QueuedEpochOutput_no_SystemError
             (self, app) _ _).
Qed.
End NoGap.

(** ** Epoch outputs: generation and completion *)

Section EpochOutputFacts.
Context {A : Type} `{Sample A} {S : Type} `{WaveformSource A S}.
Implicit Types (self : BufferedOutput A S).

Lemma np_assign_exact width (data : list A) :
  length data = width → np_assign width data = Returns data.
Proof. intros Hl. unfold np_assign. by rewrite decide_True. Qed.

Lemma length_np_zeros n : length (np_zeros n : list A) = n.
Proof. apply length_replicate. Qed.

Lemma np_zeros_add n m : (np_zeros (n + m) : list A) = np_zeros n ++ np_zeros m.
Proof. apply replicate_add. Qed.

(** Past the activation offset nothing is padded: the waveform is what
    the source returns, and the output is deactivated when the source is
    complete afterwards. *)
Lemma EpochOutput_get_next_samples_active self samples src :
  active self = true →
  source self = Some src →
  _offset self ≤ get_samples_ub (_buffer self) →
  (0 < samples)%nat →
  EpochOutput_get_next_samples self samples =
    Returns ((next src samples).1,
             if is_complete (next src samples).2
             then deactivate (set_source (Some (next src samples).2) self)
                    (get_samples_ub (_buffer self))
             else set_source (Some (next src samples).2) self).
Proof.
  intros Ha Hs Ho Hn. unfold EpochOutput_get_next_samples.
  rewrite Ha. cbv zeta.
  assert (Z.to_nat
            (Z.max (_offset self - get_samples_ub (_buffer self)) 0
               `min` Z.of_nat samples) = 0%nat) as -> by lia.
  rewrite Nat.sub_0_r.
  do 2 (case_decide; try (done || lia)). rewrite Hs.
  destruct (next src samples) as [w src']; simpl.
  destruct (is_complete src'); simpl; by rewrite app_nil_r.
Qed.

Lemma EpochOutput_get_next_samples_inactive self samples :
  active self = false →
  EpochOutput_get_next_samples self samples = Returns (np_zeros samples, self).
Proof. intros Ha. unfold EpochOutput_get_next_samples. by rewrite Ha. Qed.

(** A pull of an inactive output at the upper bound of its buffer is
    silence, and leaves the output inactive with the silence cached. *)
Lemma EpochOutput_get_samples_inactive self samples :
  active self = false →
  ∃ self',
    EpochOutput_get_samples self (get_samples_ub (_buffer self)) samples
      = Returns (np_zeros samples, self') ∧
    active self' = false ∧
    get_samples_ub (_buffer self') =
      get_samples_ub (_buffer self) + Z.of_nat samples.
Proof.
  intros Ha. unfold EpochOutput_get_samples, get_samples, serve_cached.
  rewrite bool_decide_eq_false_2 by (simpl; lia).
  rewrite bool_decide_eq_true_2 by done. cbn [and_then].
  unfold pad_before_activation. case_bool_decide as Hpad.
  - set (s := Z.to_nat _).
    assert (s ≤ samples)%nat as Hs by (subst s; simpl in *; lia).
    unfold generate. case_bool_decide as Hrest.
    + rewrite EpochOutput_get_next_samples_inactive by done.
      cbn [and_then]. rewrite np_assign_exact by apply length_np_zeros.
      cbn [and_then]. rewrite app_nil_l, <- np_zeros_add.
      replace (s + (samples - s))%nat with samples by lia.
      eexists. split; [done|]. split; [done|].
      unfold get_samples_ub; cbn. rewrite !length_np_zeros. lia.
    + cbn [and_then]. rewrite app_nil_l, app_nil_r.
      replace s with samples by lia.
      eexists. split; [done|]. split; [done|].
      unfold get_samples_ub; cbn. rewrite !length_np_zeros. lia.
  - unfold generate. case_bool_decide as Hrest.
    + rewrite EpochOutput_get_next_samples_inactive by done.
      cbn [and_then]. rewrite np_assign_exact by apply length_np_zeros.
      cbn [and_then]. rewrite !app_nil_l.
      eexists. split; [done|]. split; [done|].
      unfold get_samples_ub; cbn. by rewrite !length_np_zeros.
    + cbn [and_then]. assert (samples = 0%nat) as -> by lia.
      exists self. split; [done|]. split; [done|]. lia.
Qed.

Lemma EpochOutput_get_samples_chunked_inactive chunks : ∀ self,
  active self = false →
  ∃ self',
    get_samples_chunked EpochOutput_get_next_samples self
        (get_samples_ub (_buffer self)) chunks
      = Returns (np_zeros (sum_list chunks), self') ∧
    active self' = false.
Proof.
  induction chunks as [|n chunks IH]; intros self Ha; simpl.
  - by exists self.
  - destruct (EpochOutput_get_samples_inactive self n Ha)
      as (self1 & Hpull & Ha1 & Hub1).
    unfold EpochOutput_get_samples in Hpull. rewrite Hpull. simpl.
    destruct (IH self1 Ha1) as (self2 & Hrest & Ha2).
    rewrite <- Hub1, Hrest. simpl.
    exists self2. by rewrite np_zeros_add.
Qed.
End EpochOutputFacts.

Section EpochCompletion.
Context {A : Type} `{Sample A} {S : Type} `{WaveformSource A S}.
Implicit Types (self : BufferedOutput A S).

(** C3 (as amended).  When the source of an active epoch output is
    complete after giving the samples of a pull, the pull returns what
    the source yielded, with no zeros appended by the output, and the
    output is deactivated within that pull: [active] is false, the source
    is dropped and the buffer is as it was.  Every later call of
    [get_next_samples] returns zeros only.  When the source yielded as
    many samples as were asked for, [get_samples] at the upper bound of
    the buffer returns them, and every later sequence of pulls that
    continues from the upper bound returns zeros only. *)
Theorem EpochOutput_completion_mid_pull self samples src :
  active self = true →
  source self = Some src →
  _offset self ≤ get_samples_ub (_buffer self) →
  (0 < samples)%nat →
  is_complete (next src samples).2 = true →
  let w := (next src samples).1 in
  let self' :=
    deactivate (set_source (Some (next src samples).2) self)
      (get_samples_ub (_buffer self)) in
  EpochOutput_get_next_samples self samples = Returns (w, self') ∧
  active self' = false ∧ source self' = None ∧
  _buffer self' = _buffer self ∧
  (∀ n, EpochOutput_get_next_samples self' n = Returns (np_zeros n, self')) ∧
  (length w = samples →
   ∃ self'',
     EpochOutput_get_samples self (get_samples_ub (_buffer self)) samples
       = Returns (w, self'') ∧
     active self'' = false ∧
     ∀ chunks, ∃ self3,
       get_samples_chunked EpochOutput_get_next_samples self''
           (get_samples_ub (_buffer self'')) chunks
         = Returns (np_zeros (sum_list chunks), self3)).
Proof.
  intros Ha Hs Ho Hn Hc w self'.
  assert (EpochOutput_get_next_samples self samples = Returns (w, self'))
    as Hgns.
  { rewrite (EpochOutput_get_next_samples_active self samples src) by done.
    by rewrite Hc. }
  assert (_buffer self' = _buffer self) as Hbuf.
  { subst self'. unfold deactivate. cbn [_buffer set_source].
    apply invalidate_samples_ub. }
  split; [done|]. split; [done|]. split; [done|]. split; [done|].
  split.
  - intros n. by apply EpochOutput_get_next_samples_inactive.
  - intros Hlen.
    exists (set_buffer (append_data (buffer_of self') w) self').
    split; [|split; [done|]].
    + unfold EpochOutput_get_samples, get_samples, serve_cached.
      rewrite bool_decide_eq_false_2 by (simpl; lia).
      rewrite bool_decide_eq_true_2 by done. cbn [and_then].
      unfold pad_before_activation.
      rewrite bool_decide_eq_false_2 by (simpl; lia).
      unfold generate. rewrite bool_decide_eq_true_2 by lia.
      rewrite Hgns. cbn [and_then].
      by rewrite np_assign_exact.
    + intros chunks.
      destruct (EpochOutput_get_samples_chunked_inactive chunks
                  (set_buffer (append_data (buffer_of self') w) self'))
        as (self3 & Hrest & _); [done|].
      by exists self3.
Qed.
End EpochCompletion.

(** An instance: a padded epoch with three samples left, pulled for five. *)
Lemma EpochOutput_completion_mid_pull_witness :
  EpochOutput_get_next_samples padded_epoch_with_3_left 5
    = Returns ([7; 8; 9; 0; 0],
               deactivate (set_source (Some (mkPaddedEpoch []))
                             padded_epoch_with_3_left) 0) ∧
  ∀ n, EpochOutput_get_next_samples
         (deactivate (set_source (Some (mkPaddedEpoch []))
                        padded_epoch_with_3_left) 0) n
       = Returns (np_zeros n,
                  deactivate (set_source (Some (mkPaddedEpoch []))
                                padded_epoch_with_3_left) 0).
Proof.
  destruct (EpochOutput_completion_mid_pull padded_epoch_with_3_left 5
              (mkPaddedEpoch [7; 8; 9]))
    as (Hpull & _ & _ & _ & Hlater & _);
    [reflexivity | reflexivity | simpl; lia | lia | reflexivity |].
  split; [exact Hpull | exact Hlater].
Defined.

(** Against zero padding by the output: the source has three
    samples left and yields just these when five are asked for.  The
    waveform of the pull is these three samples, not followed by two
    zeros, and [get_samples] fails on the shape mismatch. *)
Lemma EpochOutput_completion_not_zero_padded :
  next (mkBareEpoch [7; 8; 9]) 5 = ([7; 8; 9], mkBareEpoch []) ∧
  is_complete (mkBareEpoch []) = true ∧
  EpochOutput_get_next_samples epoch_with_3_left 5
    = Returns ([7; 8; 9],
               deactivate (set_source (Some (mkBareEpoch [])) epoch_with_3_left) 0) ∧
  EpochOutput_get_samples epoch_with_3_left 0 5 = Raises ValueError ∧
  ¬ (∃ self', EpochOutput_get_next_samples epoch_with_3_left 5
                = Returns ([7; 8; 9] ++ np_zeros 2, self')) ∧
  ¬ (∃ self', EpochOutput_get_samples epoch_with_3_left 0 5
                = Returns ([7; 8; 9] ++ np_zeros 2, self')).
Proof.
  repeat split; try reflexivity; by intros [self' [=]].
Qed.

(** ** Queued epoch outputs: the completion callback *)

Section QueuedCompletion.
Context {A : Type} `{Sample A} {Qu CB : Type} `{SignalQueue A Qu}.
Implicit Types (self : QueuedEpochOutput A Qu CB) (app : Application CB).

Lemma QueuedEpochOutput_get_next_samples_inactive self app samples :
  active (buffered self) = false →
  QueuedEpochOutput_get_next_samples (self, app) samples
    = Returns (np_zeros samples, (self, app)).
Proof.
  intros Ha. unfold QueuedEpochOutput_get_next_samples. by rewrite Ha.
Qed.

Lemma QueuedEpochOutput_pulls_inactive self app chunks :
  active (buffered self) = false →
  QueuedEpochOutput_pulls (self, app) chunks
    = Returns (np_zeros <$> chunks, (self, app)).
Proof.
  intros Ha. induction chunks as [|n chunks IH]; [done|].
  cbn [QueuedEpochOutput_pulls].
  rewrite QueuedEpochOutput_get_next_samples_inactive by done.
  cbn [and_then]. by rewrite IH.
Qed.

(** C4.  A pull of an active queued epoch output with a completion
    callback [cb] draws from the queue.  While the queue is not empty
    afterwards (a partial drain) nothing else happens: no callback is
    scheduled and the output stays active.  When the queue is empty
    afterwards, the output is deactivated, the event [complete] fires and
    [cb] is handed to [deferred_call] once: it is not invoked within the
    pull but by the next cycle of the event loop.  After that, pulls
    return zeros and schedule nothing, so the callback is not scheduled a
    second time. *)
Theorem QueuedEpochOutput_completion_callback self app q cb samples :
  active (buffered self) = true →
  queue self = Some q →
  complete_cb self = Some cb →
  let waveform := (pop_buffer q samples (auto_decrement self)).1 in
  let q' := (pop_buffer q samples (auto_decrement self)).2 in
  (is_empty q' = false →
   QueuedEpochOutput_get_next_samples (self, app) samples
     = Returns (waveform, (set_queue (Some q') self, app))) ∧
  (is_empty q' = true →
   ∃ self',
     QueuedEpochOutput_get_next_samples (self, app) samples
       = Returns (waveform, (self', deferred_call cb app)) ∧
     active (buffered self') = false ∧
     complete self' = Datatypes.S (complete self) ∧
     deferred (deferred_call cb app) = deferred app ++ [cb] ∧
     invoked (deferred_call cb app) = invoked app ∧
     invoked (process_events (deferred_call cb app))
       = invoked app ++ deferred app ++ [cb] ∧
     ∀ chunks,
       QueuedEpochOutput_pulls (self', deferred_call cb app) chunks
         = Returns (np_zeros <$> chunks, (self', deferred_call cb app))).
Proof.
  intros Ha Hq Hcb waveform q'. subst waveform q'.
  unfold QueuedEpochOutput_get_next_samples. rewrite Ha, Hq.
  destruct (pop_buffer q samples (auto_decrement self)) as [w q1].
  cbn [fst snd set_queue complete_cb]. rewrite Hcb. split.
  - by intros ->.
  - intros ->. eexists. split; [reflexivity|].
    repeat split.
    intros chunks. by apply QueuedEpochOutput_pulls_inactive.
Qed.

(** C10.  A queued epoch output without completion callback
    ([complete_cb] is [None]) is never deactivated by its pulls, whether
    or not its queue is empty: every pull, also after the queue has
    drained, returns what [pop_buffer] of the queue returns, the output
    stays active, the event [complete] does not fire and no call is
    scheduled. *)
Theorem QueuedEpochOutput_without_callback self app q chunks :
  active (buffered self) = true →
  queue self = Some q →
  complete_cb self = None →
  let popped := pop_buffers q chunks (auto_decrement self) in
  let self' := set_queue (Some popped.2) self in
  QueuedEpochOutput_pulls (self, app) chunks
    = Returns (popped.1, (self', app)) ∧
  active (buffered self') = true ∧
  complete self' = complete self.
Proof.
  intros Ha Hq Hcb popped self'. split; [|by split].
  subst popped self'. revert self q Ha Hq Hcb.
  induction chunks as [|n chunks IH]; intros self q Ha Hq Hcb.
  - cbn. destruct self; cbn in *. by rewrite Hq.
  - cbn [QueuedEpochOutput_pulls pop_buffers].
    unfold QueuedEpochOutput_get_next_samples. rewrite Ha, Hq.
    destruct (pop_buffer q n (auto_decrement self)) as [w q1] eqn:Hpop.
    cbn [set_queue complete_cb]. rewrite Hcb.
    assert (∀ m : result (list A * QueuedWorld),
              m = Returns (w, (set_queue (Some q1) self, app)) →
              (match is_empty q1 with
               | true | _ => m
               end) = Returns (w, (set_queue (Some q1) self, app))) as Hm
      by (intros m ->; by destruct (is_empty q1)).
    rewrite Hm by done. cbn [and_then].
    rewrite (IH (set_queue (Some q1) self) q1) by done.
    cbn [and_then set_queue auto_decrement].
    by destruct (pop_buffers q1 chunks (auto_decrement self)).
Qed.
End QueuedCompletion.

(** An instance: two samples left in the queue, two pulled; the callback
    is scheduled once and later pulls are silent. *)
Lemma QueuedEpochOutput_completion_callback_witness :
  ∃ self',
    QueuedEpochOutput_get_next_samples
        (queued_with_2_left (Some "done"), idle_application) 2
      = Returns ([5; 6], (self', deferred_call "done" idle_application)) ∧
    active (buffered self') = false ∧
    QueuedEpochOutput_pulls (self', deferred_call "done" idle_application) [3; 1]%nat
      = Returns ([[0; 0; 0]; [0]], (self', deferred_call "done" idle_application)).
Proof.
  destruct (QueuedEpochOutput_completion_callback
              (queued_with_2_left (Some "done")) idle_application
              (mkTapeQueue [5; 6] [] []) "done" 2)
    as [_ Hdrain]; [reflexivity | reflexivity | reflexivity |].
  destruct Hdrain as (self' & Hpull & Ha & _ & _ & _ & _ & Hlater);
    [reflexivity|].
  exists self'. split; [exact Hpull|]. split; [exact Ha|].
  exact (Hlater [3; 1]%nat).
Defined.

(** An instance: without callback the output goes on drawing from the
    drained queue and stays active. *)
Lemma QueuedEpochOutput_without_callback_witness :
  QueuedEpochOutput_pulls (queued_with_2_left None, idle_application) [2; 3]%nat
    = Returns ([[5; 6]; [0; 0; 0]],
               (set_queue (Some (mkTapeQueue [] [] [])) (queued_with_2_left None),
                idle_application)).
Proof.
  destruct (QueuedEpochOutput_without_callback
              (queued_with_2_left None) idle_application
              (mkTapeQueue [5; 6] [] []) [2; 3]%nat)
    as [Hpulls _]; [reflexivity | reflexivity | reflexivity |].
  exact Hpulls.
Defined.

(** ** Notification of observers *)

Section NotifyFacts.
Context {CB : Type}.
Implicit Types (self : Output CB) (h : gmap positive object).

Lemma callbacks_connect self cbs :
  callbacks (foldl connect self cbs) = callbacks self ++ cbs.
Proof.
  revert self. induction cbs as [|cb cbs IH]; intros self; simpl.
  - by rewrite app_nil_r.
  - rewrite IH. simpl. by rewrite <- app_assoc.
Qed.

(** With a float under ["t0"], [notify] allocates the copy, rebinds its
    ["t0"] and passes it to every callback. *)
Lemma notify_float self data h fields t0 :
  h !! data = Some (ODict fields) →
  fields !! "t0" = Some (VFloat t0) →
  notify self data h =
    Returns (<[fresh (dom h) :=
                 ODict (<["t0" := VFloat (t0 + filter_delay self)%Q]> fields)]> h,
             (λ cb, (cb, fresh (dom h))) <$> callbacks self).
Proof.
  intros Hdata Ht0. unfold notify, iadd_t0. rewrite Hdata, Ht0.
  cbn [and_then]. by rewrite insert_insert_eq.
Qed.

Lemma fresh_unallocated h : h !! fresh (dom h) = None.
Proof. apply not_elem_of_dom, is_fresh. Qed.

(** C5.  [notify] delivers to every registered callback, in the order of
    registration, one chunk whose [t0] is the [t0] of the chunk passed in
    plus the filter delay of the output, and whose other items (samples,
    metadata) are those of the chunk passed in. *)
Theorem notify_delivers_shifted_chunk self data h fields t0 :
  h !! data = Some (ODict fields) →
  fields !! "t0" = Some (VFloat t0) →
  ∃ h' d delivered,
    notify self data h = Returns (h', (λ cb, (cb, d)) <$> callbacks self) ∧
    h' !! d = Some (ODict delivered) ∧
    delivered !! "t0" = Some (VFloat (t0 + filter_delay self)%Q) ∧
    (∀ key, key ≠ "t0" → delivered !! key = fields !! key) ∧
    (∀ cbs, callbacks (foldl connect self cbs) = callbacks self ++ cbs).
Proof.
  intros Hdata Ht0.
  eexists _, (fresh (dom h)), _.
  split; [by apply notify_float|].
  split; [by rewrite lookup_insert_eq|].
  split; [by rewrite lookup_insert_eq|].
  split; [|apply callbacks_connect].
  intros key Hkey. by rewrite lookup_insert_ne.
Qed.

(** C9.  [notify] does not change the chunk it is given: the shift of
    [t0] is made on a copy, a new object of the store, which is what the
    callbacks receive.  After the call the chunk of the caller, and every
    other object that existed before (the samples it refers to), are as
    they were. *)
Theorem notify_leaves_chunk_unchanged self data h fields t0 h' calls :
  h !! data = Some (ODict fields) →
  fields !! "t0" = Some (VFloat t0) →
  notify self data h = Returns (h', calls) →
  h' !! data = Some (ODict fields) ∧
  (∀ l, is_Some (h !! l) → h' !! l = h !! l) ∧
  (∀ cb d, (cb, d) ∈ calls → d ≠ data ∧ h !! d = None).
Proof.
  intros Hdata Ht0 Hnotify.
  rewrite (notify_float _ _ _ _ _ Hdata Ht0) in Hnotify.
  injection Hnotify as <- <-.
  pose proof (fresh_unallocated h) as Hfresh.
  assert (∀ l, is_Some (h !! l) → l ≠ fresh (dom h)) as Hold.
  { intros l [o Hl] ->. congruence. }
  split; [|split].
  - rewrite lookup_insert_ne; [done|]. apply not_eq_sym, Hold. by eexists.
  - intros l Hl. rewrite lookup_insert_ne; [done|]. by apply not_eq_sym, Hold.
  - intros cb d [cb' [[= -> ->] _]]%list_elem_of_fmap.
    split; [|done]. apply not_eq_sym, Hold. by eexists.
Qed.
End NotifyFacts.

(** An instance: the logger and the plot, in this order, receive the copy
    of the chunk, whose [t0] is 1 + 1/2. *)
Lemma notify_delivers_shifted_chunk_witness :
  ∃ h' d delivered,
    notify observed_output 1%positive chunk_store
      = Returns (h', [("log", d); ("plot", d)]) ∧
    h' !! d = Some (ODict delivered) ∧
    delivered !! "t0" = Some (VFloat (1 + (1 # 2))%Q) ∧
    delivered !! "samples" = Some (VRef 2).
Proof.
  destruct (notify_delivers_shifted_chunk observed_output 1%positive
              chunk_store chunk_fields 1)
    as (h' & d & delivered & Hnotify & Hd & Ht0 & Hrest & _);
    [reflexivity | reflexivity |].
  exists h', d, delivered.
  split; [exact Hnotify|]. split; [exact Hd|]. split; [exact Ht0|].
  rewrite Hrest by discriminate. reflexivity.
Defined.

(** An instance: after the notification the chunk at 1 and its samples at
    2 are as before. *)
Lemma notify_leaves_chunk_unchanged_witness :
  ∃ h' calls,
    notify observed_output 1%positive chunk_store = Returns (h', calls) ∧
    h' !! 1%positive = Some (ODict chunk_fields) ∧
    h' !! 2%positive = Some (OArray [3; 4; 5]%Q).
Proof.
  eexists _, _. split; [reflexivity|].
  destruct (notify_leaves_chunk_unchanged observed_output 1%positive
              chunk_store chunk_fields 1 _ _
              eq_refl eq_refl eq_refl) as (Hdata & Hothers & _).
  split; [exact Hdata|].
  rewrite Hothers; [reflexivity | by eexists].
Defined.

(** The copy is shallow and [+=] adds to an array in place: were [t0] an
    array, the array of the caller's chunk would be shifted too. *)
Lemma notify_array_t0_is_shared :
  ∃ h' calls,
    notify observed_output 1%positive array_t0_store = Returns (h', calls) ∧
    array_t0_store !! 2%positive = Some (OArray [1]%Q) ∧
    h' !! 2%positive = Some (OArray [(1 + (1 # 2))%Q]).
Proof. eexists _, _. split; [reflexivity|]. split; reflexivity. Qed.

(** ** Pause and resume: the invalidation offset *)

Lemma py_int_whole x k : (x == inject_Z k)%Q → py_int x = k.
Proof.
  unfold Qeq, py_int. simpl. intros Hx.
  replace (Qnum x) with (k * Z.pos (Qden x)) by lia.
  by apply Z.quot_mul.
Qed.

Lemma py_round_whole x k : (x == inject_Z k)%Q → py_round x = k.
Proof.
  intros Hx. unfold py_round.
  assert (Qfloor x = k) as -> by (rewrite Hx; apply Qfloor_Z).
  assert ((x - inject_Z k ?= 1 # 2)%Q = Lt) as ->; [|done].
  rewrite Hx. rewrite <- Qlt_alt.
  unfold Qlt. simpl. lia.
Qed.

Section PauseResume.
Context {A : Type} `{Sample A} {Qu CB : Type} `{SignalQueue A Qu}.
Implicit Types (self : QueuedEpochOutput A Qu CB).

(** C6 (as amended).  [pause] and [resume] take their effective time [t]
    as the clock of the engine plus one second, pass [t] to the queue, and
    convert once more: the offset from which the buffer is invalidated,
    and which the engine is told, is [int((t + 1) * fs)] in float
    arithmetic, the samples of one more second, truncated.  It is not
    [round(t * fs)]. *)
Theorem pause_resume_invalidation_offset self engine q :
  queue self = Some q →
  let t := float_add (get_ts engine) 1 in
  let offset := py_int (float_mul (float_add t 1) (fs self)) in
  (∃ self',
     pause self (Some engine)
       = Returns (self', update_hw_ao engine (channel_name self) offset) ∧
     _buffer (buffered self')
       = invalidate_samples (_buffer (buffered self)) offset ∧
     queue self' = Some (queue_pause q t) ∧
     paused self' = true) ∧
  (∃ self',
     resume self (Some engine)
       = Returns (self', update_hw_ao engine (channel_name self) offset) ∧
     _buffer (buffered self')
       = invalidate_samples (_buffer (buffered self)) offset ∧
     queue self' = Some (queue_resume q t) ∧
     paused self' = false).
Proof.
  intros Hq t offset. split.
  - unfold pause. cbn [set_paused queue]. rewrite Hq. cbn [and_then].
    eexists. split; [reflexivity|]. by repeat split.
  - unfold resume. cbn [set_buffered queue]. rewrite Hq. cbn [and_then].
    eexists. split; [reflexivity|]. by repeat split.
Qed.
End PauseResume.

(** An instance: the clock reads 0 and the rate is 2 samples per second,
    so [t] is 1; the buffer of six samples is cut at 4. *)
Lemma pause_resume_invalidation_offset_witness :
  ∃ self',
    pause (queued_with_2_left None) (Some engine_at_0)
      = Returns (self', update_hw_ao engine_at_0 "ao0" 4) ∧
    _buffer (buffered self')
      = {| capacity := 16; samples_ub := 4; cached := [1; 2; 3; 4] |}.
Proof.
  destruct (pause_resume_invalidation_offset
              (queued_with_2_left None) engine_at_0 (mkTapeQueue [5; 6] [] []))
    as [(self' & Hpause & Hbuffer & _) _]; [reflexivity|].
  exists self'. split; [exact Hpause|]. rewrite Hbuffer. reflexivity.
Defined.

(** Against [round(t * fs)]: the clock reads 0 and the rate is 2, so the
    effective time [t] is 1 and [round(t * fs)] is 2; [pause] and
    [resume] cut the buffer at 4 and tell the engine 4.  (All these
    numbers are doubles and no operation rounds.) *)
Lemma pause_offset_is_not_rounded_time :
  let t := float_add (get_ts engine_at_0) 1 in
  py_round (float_mul t (fs (queued_with_2_left None))) = 2 ∧
  (∃ self' engine',
     pause (queued_with_2_left None) (Some engine_at_0)
       = Returns (self', engine') ∧
     hw_ao_updates engine' = [("ao0", 4)] ∧
     get_samples_ub (_buffer (buffered self')) = 4 ∧
     queue self' = Some (mkTapeQueue [5; 6] [1%Q] [])) ∧
  (∃ self' engine',
     resume (queued_with_2_left None) (Some engine_at_0)
       = Returns (self', engine') ∧
     hw_ao_updates engine' = [("ao0", 4)] ∧
     get_samples_ub (_buffer (buffered self')) = 4 ∧
     queue self' = Some (mkTapeQueue [5; 6] [] [1%Q])) ∧
  4 ≠ py_round (float_mul t (fs (queued_with_2_left None))).
Proof.
  split; [reflexivity|].
  split; [eexists _, _; split; [reflexivity|]; by repeat split|].
  split; [eexists _, _; split; [reflexivity|]; by repeat split|].
  discriminate.
Qed.

(** The offset is not [round(t * fs) + fs] either, although the extra
    second has [fs] samples: the sums and the product are rounded, and
    the result is truncated.  With the clock at 3e-05 s and 100 kHz,
    [t * fs] is the whole number 100003, and the offset is 200002. *)
Lemma pause_offset_is_truncated_after_rounding :
  let t := float_add (get_ts engine_at_30us) 1 in
  float_mul t (fs queued_at_100kHz) = 100003%Q ∧
  py_round (float_mul t (fs queued_at_100kHz)) = 100003 ∧
  ∃ self' engine',
    pause queued_at_100kHz (Some engine_at_30us) = Returns (self', engine') ∧
    hw_ao_updates engine' = [("ao0", 200002)].
Proof.
  split; [by vm_compute|]. split; [by vm_compute|].
  eexists _, _. split; [reflexivity|]. by vm_compute.
Qed.

(** ** Calibration lookup *)

Lemma first_equal_None xs f :
  first_equal xs f = None ↔ ∀ x, x ∈ xs → ¬ (x == f)%Q.
Proof.
  induction xs as [|y ys IH]; simpl.
  - split; [|done]. intros _ x Hx. by apply elem_of_nil in Hx.
  - destruct (Qeq_bool y f) eqn:Hy.
    + split; [done|]. intros Hall. exfalso.
      apply (Hall y); [left | by apply Qeq_bool_iff].
    + destruct (first_equal ys f) as [n|]; simpl.
      * split; [done|]. intros Hall.
        assert (Some n = None) as [=].
        apply IH. intros x Hx. apply Hall. by right.
      * split; [|done]. intros _ x [->|Hx]%elem_of_cons.
        -- intros Hyf%Qeq_bool_iff. congruence.
        -- by apply IH.
Qed.

Lemma PointCalibration__get_sens_CalibrationError cal f :
  PointCalibration__get_sens cal f = Raises CalibrationError ↔
  ∀ x, x ∈ point_frequency cal → ¬ (x == f)%Q.
Proof.
  rewrite <- first_equal_None. unfold PointCalibration__get_sens.
  destruct (first_equal (point_frequency cal) f) as [i|]; [|done].
  destruct (point_sensitivity cal !! i); split; discriminate.
Qed.

Lemma insert_point_Forall (P : Q * Q → Prop) p pts :
  P p → Forall P pts → Forall P (insert_point p pts).
Proof.
  intros Hp. induction 1 as [|p' pts' Hp' Hpts IH]; simpl.
  - by constructor.
  - destruct (Qle_bool p.1 p'.1); repeat constructor; done.
Qed.

Lemma sort_points_Forall (P : Q * Q → Prop) pts :
  Forall P pts → Forall P (sort_points pts).
Proof.
  induction 1; simpl; [constructor | by apply insert_point_Forall].
Qed.

Lemma zip_Forall_fst (P : Q → Prop) xs ys :
  Forall P xs → Forall (λ p : Q * Q, P p.1) (zip xs ys).
Proof.
  intros Hxs. revert ys.
  induction Hxs as [|x xs Hx Hxs IH]; intros [|y ys]; simpl;
    constructor; [done | apply IH].
Qed.

Lemma interp1d_call_below pts f :
  Forall (λ p : Q * Q, (f < p.1)%Q) pts → interp1d_call pts f = NaN.
Proof.
  destruct 1 as [|[x0 y0] rest Hx0 _]; simpl in *; [done|].
  assert (Qeq_bool f x0 = false) as Hne.
  { destruct (Qeq_bool f x0) eqn:Heq; [|done].
    apply Qeq_bool_iff in Heq. rewrite Heq in Hx0.
    by apply Qlt_irrefl in Hx0. }
  assert (Qle_bool x0 f = false) as Hnle.
  { destruct (Qle_bool x0 f) eqn:Hle; [|done].
    apply Qle_bool_iff in Hle. by apply Qle_not_lt in Hle. }
  destruct rest as [|[x1 y1] rest]; [by rewrite Hne | by rewrite Hnle].
Qed.

Lemma interp1d_call_above pts f :
  Forall (λ p : Q * Q, (p.1 < f)%Q) pts → interp1d_call pts f = NaN.
Proof.
  induction 1 as [|[x0 y0] rest Hx0 Hrest IH]; simpl in *; [done|].
  assert (Qeq_bool f x0 = false) as Hne.
  { destruct (Qeq_bool f x0) eqn:Heq; [|done].
    apply Qeq_bool_iff in Heq. rewrite Heq in Hx0.
    by apply Qlt_irrefl in Hx0. }
  destruct rest as [|[x1 y1] rest]; [by rewrite Hne|].
  assert (Qle_bool x0 f = true) as ->
    by (apply Qle_bool_iff; by apply Qlt_le_weak).
  rewrite Hne. simpl.
  assert (Qle_bool f x1 = false) as ->; [|done].
  destruct (Qle_bool f x1) eqn:Hle; [|done].
  apply Qle_bool_iff in Hle. inversion Hrest as [|? ? Hx1 _]; simpl in *.
  by apply Qle_not_lt in Hle.
Qed.

(** C7 (as amended).  The lookup of a point calibration raises the
    calibration error exactly for a frequency that is not among its
    calibrated ones.  The lookup of an interpolated calibration raises for
    no frequency; below and above the calibrated range its value is NaN,
    the fill value of [interp1d]: the curve is neither extended nor
    clamped. *)
Theorem calibration_lookup_policy :
  (∀ cal f,
      PointCalibration_get_sens cal (Scalar f) = Raises CalibrationError ↔
      ∀ x, x ∈ point_frequency cal → ¬ (x == f)%Q) ∧
  (∀ cal frequency, ∃ sens,
      InterpCalibration_get_sens cal frequency = Returns sens) ∧
  (∀ cal f,
      Forall (λ x, (f < x)%Q) (interp_frequency cal) ∨
      Forall (λ x, (x < f)%Q) (interp_frequency cal) →
      InterpCalibration_get_sens cal (Scalar f) = Returns (Scalar NaN)).
Proof.
  split; [|split].
  - intros cal f. rewrite <- PointCalibration__get_sens_CalibrationError.
    unfold PointCalibration_get_sens.
    destruct (PointCalibration__get_sens cal f) as [y|e]; simpl.
    + split; discriminate.
    + split; intros [= ->]; done.
  - intros cal [f|fs']; simpl; by eexists.
  - intros cal f Hout. unfold InterpCalibration_get_sens, _interp.
    assert (interp1d_call
              (sort_points (zip (interp_frequency cal) (interp_sensitivity cal)))
              f = NaN) as ->; [|done].
    destruct Hout as [Hbelow|Habove].
    + apply interp1d_call_below, sort_points_Forall.
      by apply (zip_Forall_fst (λ x, (f < x)%Q)).
    + apply interp1d_call_above, sort_points_Forall.
      by apply (zip_Forall_fst (λ x, (x < f)%Q)).
Qed.

(** An instance: 3 Hz is above, and 1/2 Hz below, what was calibrated. *)
Lemma calibration_lookup_policy_witness :
  PointCalibration_get_sens two_point_exact (Scalar 3%Q)
    = Raises CalibrationError ∧
  InterpCalibration_get_sens two_point_interp (Scalar 3%Q)
    = Returns (Scalar NaN) ∧
  InterpCalibration_get_sens two_point_interp (Scalar (1 # 2)%Q)
    = Returns (Scalar NaN).
Proof.
  destruct calibration_lookup_policy as (Hpoint & _ & Hinterp).
  split; [|split].
  - apply Hpoint. intros x Hx.
    repeat (apply elem_of_cons in Hx as [->|Hx]; [discriminate|]).
    by apply elem_of_nil in Hx.
  - apply Hinterp. right. by repeat constructor.
  - apply Hinterp. left. by repeat constructor.
Defined.

(** Against extrapolation and clamping: calibrated at 1 Hz (10 dB) and
    2 Hz (20 dB), the lookup at 3 Hz is NaN; clamped it would be 20,
    extrapolated 30. *)
Lemma InterpCalibration_outside_range_is_NaN :
  let pts := sort_points (zip (interp_frequency two_point_interp)
                            (interp_sensitivity two_point_interp)) in
  InterpCalibration_get_sens two_point_interp (Scalar 3%Q)
    = Returns (Scalar NaN) ∧
  clamped pts 3 = Some 20%Q ∧
  extrapolated pts 3 = Some 30%Q ∧
  ¬ (∃ y, InterpCalibration_get_sens two_point_interp (Scalar 3%Q)
            = Returns (Scalar (Finite y))).
Proof.
  split; [reflexivity|]. split; [reflexivity|]. split; [reflexivity|].
  by intros [y [=]].
Qed.

(** ** The trial queue: the uploaded log *)

Lemma Qmake_lt a b p : a < b → (a # p < b # p)%Q.
Proof. intros Hab. unfold Qlt. simpl. by apply Z.mul_lt_mono_pos_r. Qed.

Lemma Qmake_le a b p : a ≤ b → (a # p <= b # p)%Q.
Proof. intros Hab. unfold Qle. simpl. by apply Z.mul_le_mono_nonneg_r. Qed.

Lemma increasing_snoc ts x :
  TrialQueue.increasing ts → Forall (λ y, (y < x)%Q) ts →
  TrialQueue.increasing (ts ++ [x]).
Proof.
  induction ts as [|y ts IH]; simpl; [done|].
  intros [Hy Hts] Hx. inversion Hx as [|? ? Hyx Hx']; subst. split.
  - apply Forall_app. split; [done | by constructor].
  - by apply IH.
Qed.

Ltac queue_simpl :=
  cbn [TrialQueue.complete_trial TrialQueue.advance TrialQueue.instantiate
       TrialQueue.set_current TrialQueue.set_gap_left TrialQueue.set_entries
       TrialQueue.append TrialQueue.create TrialQueue.entries TrialQueue.fs
       TrialQueue.current TrialQueue.gap_left TrialQueue.position
       TrialQueue.uploaded TrialQueue.repeat_count TrialQueue.factory
       TrialQueue.inter_trial_gap TrialQueue.total_duration
       TrialQueue.metadata app Nat.sub].

Section TrialQueueFacts.
Context {A : Type} `{Sample A} {Src : Type} `{WaveformSource A Src} {M : Type}.
Implicit Types (q : TrialQueue.t Src M) (e : TrialQueue.Entry Src M).

Lemma well_formed_create rate offset :
  TrialQueue.well_formed (TrialQueue.create rate offset : TrialQueue.t Src M).
Proof. split; try done; by constructor. Qed.

Lemma well_formed_append q factory count gap d m :
  TrialQueue.well_formed q → (0 < d)%nat →
  TrialQueue.well_formed (TrialQueue.append q factory count gap d m).
Proof.
  intros [Hd Hc Hi Hp Hs] Hpos. split; try done.
  cbn. apply Forall_app. split; [done|]. by repeat constructor.
Qed.

Lemma discard_exhausted_Forall (P : TrialQueue.Entry Src M → Prop) es :
  Forall P es → Forall P (TrialQueue.discard_exhausted es).
Proof.
  induction 1 as [|e es He Hes IH]; cbn; [done|].
  case_decide; [done | by constructor].
Qed.

Lemma discard_exhausted_idemp (es : list (TrialQueue.Entry Src M)) :
  TrialQueue.discard_exhausted (TrialQueue.discard_exhausted es)
    = TrialQueue.discard_exhausted es.
Proof.
  induction es as [|e es IH]; cbn; [done|].
  case_decide as He; [done|]. cbn. by rewrite decide_False.
Qed.

Lemma well_formed_discard q :
  TrialQueue.well_formed q →
  TrialQueue.well_formed
    (TrialQueue.set_entries
       (TrialQueue.discard_exhausted (TrialQueue.entries q)) q).
Proof.
  intros [Hd Hc Hi Hp Hs]. split; try done.
  by apply discard_exhausted_Forall.
Qed.

Lemma well_formed_instantiate q e es :
  TrialQueue.well_formed q →
  TrialQueue.current q = None →
  TrialQueue.entries q = e :: es →
  TrialQueue.well_formed (TrialQueue.instantiate e q).
Proof.
  intros [Hd Hc Hi Hp Hs] Hcur He. specialize (Hs Hcur).
  rewrite He in Hd. inversion Hd as [|? ? Hde _]; subst.
  split; cbn.
  - by rewrite He.
  - by intros src remaining [= <- <-].
  - unfold TrialQueue.log_times. cbn. rewrite fmap_app. cbn.
    by apply increasing_snoc.
  - unfold TrialQueue.log_times. cbn. rewrite fmap_app. cbn.
    apply Forall_app. split.
    + eapply Forall_impl; [exact Hs|]. intros x Hx. by apply Qlt_le_weak.
    + repeat constructor. apply Qle_refl.
  - discriminate.
Qed.

(** Once the offset has moved on, every record is earlier than it. *)
Lemma log_times_strictly_past q (k : nat) :
  TrialQueue.well_formed q → (0 < k)%nat →
  Forall (λ x, (x < (TrialQueue.position q + Z.of_nat k) # TrialQueue.fs q)%Q)
    (TrialQueue.log_times q).
Proof.
  intros [_ _ _ Hp _] Hk.
  eapply Forall_impl; [exact Hp|]. intros x Hx. cbn in Hx.
  eapply Qle_lt_trans; [exact Hx|]. apply Qmake_lt. lia.
Qed.

Lemma well_formed_set_current q (k : nat) src remaining :
  TrialQueue.well_formed q → (0 < k)%nat → (0 < remaining)%nat →
  TrialQueue.well_formed
    (TrialQueue.set_current (Some (src, remaining)) (TrialQueue.advance k q)).
Proof.
  intros Hwf Hk Hr. pose proof (log_times_strictly_past q k Hwf Hk) as Hlt.
  destruct Hwf as [Hd Hc Hi Hp Hs]. split; cbn; try done.
  - by intros ? ? [= <- <-].
  - eapply Forall_impl; [exact Hlt|]. intros x Hx. by apply Qlt_le_weak.
Qed.

Lemma well_formed_complete_trial q (k : nat) decrement :
  TrialQueue.well_formed q → (0 < k)%nat →
  TrialQueue.well_formed
    (TrialQueue.complete_trial decrement (TrialQueue.advance k q)).
Proof.
  intros Hwf Hk. pose proof (log_times_strictly_past q k Hwf Hk) as Hlt.
  destruct Hwf as [Hd Hc Hi Hp Hs].
  assert (Forall (λ x, (x <= (TrialQueue.position q + Z.of_nat k)
                              # TrialQueue.fs q)%Q) (TrialQueue.log_times q))
    as Hle.
  { eapply Forall_impl; [exact Hlt|]. intros x Hx. by apply Qlt_le_weak. }
  split; cbn; try done.
  destruct (TrialQueue.entries q) as [|e rest]; [done|].
  inversion Hd as [|? ? Hde Hrest]; subst.
  destruct decrement; [|by constructor].
  destruct (TrialQueue.repeat_count e - 1)%nat; [done|].
  by constructor.
Qed.

Lemma well_formed_gap q (k g : nat) :
  TrialQueue.well_formed q → TrialQueue.current q = None →
  TrialQueue.well_formed (TrialQueue.advance k (TrialQueue.set_gap_left g q)).
Proof.
  intros [Hd Hc Hi Hp Hs] Hcur. specialize (Hs Hcur).
  assert (Forall (λ x, (x < (TrialQueue.position q + Z.of_nat k)
                             # TrialQueue.fs q)%Q) (TrialQueue.log_times q))
    as Hlt.
  { eapply Forall_impl; [exact Hs|]. intros x Hx. cbn in Hx.
    eapply Qlt_le_trans; [exact Hx|]. apply Qmake_le. lia. }
  split; cbn; try done.
  eapply Forall_impl; [exact Hlt|]. intros x Hx. by apply Qlt_le_weak.
Qed.

Lemma well_formed_advance q (k : nat) :
  TrialQueue.well_formed q → TrialQueue.current q = None →
  TrialQueue.well_formed (TrialQueue.advance k q).
Proof.
  intros Hwf Hcur.
  pose proof (well_formed_gap q k (TrialQueue.gap_left q) Hwf Hcur) as Hg.
  by destruct q.
Qed.

(** The loop returns when it has two rounds for each sample, and one more
    between two trials; it keeps the queue well formed and only appends to
    the log. *)
Lemma pop_buffer_loop_returns decrement fuel : ∀ q n,
  TrialQueue.well_formed q →
  (2 * n + match TrialQueue.current q with Some _ => 0 | None => 1 end
     ≤ fuel)%nat →
  ∃ w q' new,
    TrialQueue.pop_buffer_loop fuel q n decrement = Some (w, q') ∧
    TrialQueue.uploaded q' = TrialQueue.uploaded q ++ new ∧
    TrialQueue.well_formed q'.
Proof.
  induction fuel as [|fuel IH]; intros q n Hwf Hfuel.
  { destruct n; [|destruct (TrialQueue.current q); lia].
    exists [], q, []. by rewrite app_nil_r. }
  destruct n as [|n'].
  { exists [], q, []. by rewrite app_nil_r. }
  cbn [TrialQueue.pop_buffer_loop].
  destruct (TrialQueue.current q) as [[src remaining]|] eqn:Hcur.
  - pose proof (TrialQueue.wf_current _ Hwf _ _ Hcur) as Hrem.
    set (k := (Datatypes.S n' `min` remaining)%nat).
    assert (0 < k)%nat as Hk by lia.
    destruct (next src k) as [w src'].
    destruct (decide (remaining - k = 0)%nat) as [Hdone|Hmore].
    + destruct (IH (TrialQueue.complete_trial decrement (TrialQueue.advance k q))
                  (Datatypes.S n' - k)%nat)
        as (ws & q' & new & Hloop & Hup & Hwf').
      { by apply well_formed_complete_trial. }
      { cbn [TrialQueue.current TrialQueue.complete_trial TrialQueue.advance
              TrialQueue.set_current TrialQueue.instantiate]. lia. }
      rewrite Hloop. cbn. by exists (w ++ ws), q', new.
    + destruct (IH (TrialQueue.set_current (Some (src', (remaining - k)%nat))
                      (TrialQueue.advance k q))
                  (Datatypes.S n' - k)%nat)
        as (ws & q' & new & Hloop & Hup & Hwf').
      { apply well_formed_set_current; [done..|lia]. }
      { cbn [TrialQueue.current TrialQueue.complete_trial TrialQueue.advance
              TrialQueue.set_current TrialQueue.instantiate]. lia. }
      rewrite Hloop. cbn. by exists (w ++ ws), q', new.
  - destruct (decide (TrialQueue.gap_left q = 0)%nat) as [Hgap|Hgap].
    + pose proof (well_formed_discard q Hwf) as Hwf0.
      set (q0 := TrialQueue.set_entries _ q) in *.
      destruct (TrialQueue.entries q0) as [|e es] eqn:He.
      * eexists _, _, []. split; [done|]. rewrite app_nil_r.
        split; [done|]. by apply well_formed_advance.
      * destruct (IH (TrialQueue.instantiate e q0) (Datatypes.S n'))
          as (ws & q' & new & Hloop & Hup & Hwf').
        { by eapply well_formed_instantiate. }
        { cbn [TrialQueue.current TrialQueue.complete_trial TrialQueue.advance
              TrialQueue.set_current TrialQueue.instantiate]. lia. }
        rewrite Hloop. eexists ws, q', _. split; [done|]. split; [|done].
        rewrite Hup. cbn. by rewrite <- app_assoc.
    + set (k := (Datatypes.S n' `min` TrialQueue.gap_left q)%nat).
      destruct (IH (TrialQueue.advance k
                      (TrialQueue.set_gap_left (TrialQueue.gap_left q - k) q))
                  (Datatypes.S n' - k)%nat)
        as (ws & q' & new & Hloop & Hup & Hwf').
      { by apply well_formed_gap. }
      { cbn [TrialQueue.current TrialQueue.advance TrialQueue.set_gap_left].
        rewrite Hcur. lia. }
      rewrite Hloop. cbn. by exists (np_zeros k ++ ws), q', new.
Qed.

(** More fuel does not change what the loop returns. *)
Lemma pop_buffer_loop_fuel decrement fuel : ∀ fuel' q n r,
  TrialQueue.pop_buffer_loop fuel q n decrement = Some r →
  (fuel ≤ fuel')%nat →
  TrialQueue.pop_buffer_loop fuel' q n decrement = Some r.
Proof.
  induction fuel as [|fuel IH]; intros fuel' q n r Hr Hle.
  { destruct n; [|done]. by destruct fuel'. }
  destruct n as [|n']; [by destruct fuel'|].
  destruct fuel' as [|fuel']; [lia|].
  cbn [TrialQueue.pop_buffer_loop] in *.
  destruct (TrialQueue.current q) as [[src remaining]|].
  - destruct (next src _) as [w src'].
    destruct (TrialQueue.pop_buffer_loop fuel _ _ _) as [[ws q']|] eqn:Hl;
      [|done].
    by rewrite (IH fuel' _ _ _ Hl) by lia.
  - case_decide.
    + destruct (TrialQueue.entries _) as [|e es]; [done|].
      apply IH; [done | lia].
    + destruct (TrialQueue.pop_buffer_loop fuel _ _ _) as [[ws q']|] eqn:Hl;
        [|done].
      by rewrite (IH fuel' _ _ _ Hl) by lia.
Qed.

Lemma same_schedule_refl q : TrialQueue.same_schedule q q.
Proof. by repeat split. Qed.

Lemma same_schedule_trans q1 q2 q3 :
  TrialQueue.same_schedule q1 q2 → TrialQueue.same_schedule q2 q3 →
  TrialQueue.same_schedule q1 q3.
Proof.
  intros (? & ? & ? & ? & ? & ?) (? & ? & ? & ? & ? & ?).
  repeat split; congruence.
Qed.

(** The schedule does not depend on the state of the source: from two
    states with the same schedule the loop reaches two such states. *)
Lemma pop_buffer_loop_schedule decrement fuel : ∀ q1 q2 n,
  TrialQueue.same_schedule q1 q2 →
  match TrialQueue.pop_buffer_loop fuel q1 n decrement,
        TrialQueue.pop_buffer_loop fuel q2 n decrement with
  | Some (_, q1'), Some (_, q2') => TrialQueue.same_schedule q1' q2'
  | None, None => True
  | _, _ => False
  end.
Proof.
  induction fuel as [|fuel IH]; intros q1 q2 n Hs.
  { by destruct n. }
  destruct n as [|n']; [done|].
  destruct Hs as (Hf & He & Hg & Hp & Hu & Hc).
  cbn [TrialQueue.pop_buffer_loop]. rewrite <- Hg, <- He.
  destruct (TrialQueue.current q1) as [[s1 r1]|] eqn:Hc1,
           (TrialQueue.current q2) as [[s2 r2]|] eqn:Hc2;
    cbn in Hc; try done.
  - injection Hc as <-.
    set (k := (Datatypes.S n' `min` r1)%nat).
    destruct (next s1 k) as [w1 s1'], (next s2 k) as [w2 s2'].
    pose proof (IH (if decide (r1 - k = 0)%nat
                    then TrialQueue.complete_trial decrement
                           (TrialQueue.advance k q1)
                    else TrialQueue.set_current (Some (s1', (r1 - k)%nat))
                           (TrialQueue.advance k q1))
                   (if decide (r1 - k = 0)%nat
                    then TrialQueue.complete_trial decrement
                           (TrialQueue.advance k q2)
                    else TrialQueue.set_current (Some (s2', (r1 - k)%nat))
                           (TrialQueue.advance k q2))
                   (Datatypes.S n' - k)%nat) as Hrest.
    destruct (TrialQueue.pop_buffer_loop fuel _ _ _) as [[ws1 q1']|];
      destruct (TrialQueue.pop_buffer_loop fuel _ _ _) as [[ws2 q2']|];
      cbn; apply Hrest;
      case_decide; repeat split; cbn;
      rewrite <- ?Hf, <- ?He, <- ?Hg, <- ?Hp, <- ?Hu, ?Hc1, ?Hc2; done.
  - case_decide.
    + cbn [TrialQueue.entries TrialQueue.set_entries].
      destruct (TrialQueue.discard_exhausted (TrialQueue.entries q1))
        as [|e es] eqn:Hes.
      * repeat split; cbn; rewrite <- ?Hf, <- ?Hg, <- ?Hp, <- ?Hu, ?Hc1, ?Hc2; done.
      * apply IH.
        repeat split; cbn; rewrite <- ?Hf, <- ?Hg, <- ?Hp, <- ?Hu, ?Hc1, ?Hc2; done.
    + set (k := (Datatypes.S n' `min` TrialQueue.gap_left q1)%nat).
      pose proof (IH (TrialQueue.advance k
                        (TrialQueue.set_gap_left
                           (TrialQueue.gap_left q1 - k) q1))
                     (TrialQueue.advance k
                        (TrialQueue.set_gap_left
                           (TrialQueue.gap_left q1 - k) q2))
                     (Datatypes.S n' - k)%nat) as Hrest.
      destruct (TrialQueue.pop_buffer_loop fuel _ _ _) as [[ws1 q1']|];
        destruct (TrialQueue.pop_buffer_loop fuel _ _ _) as [[ws2 q2']|];
        cbn; apply Hrest; repeat split; cbn;
        rewrite <- ?Hf, <- ?He, <- ?Hp, <- ?Hu, ?Hc1, ?Hc2; done.
Qed.

Lemma pop_buffer_loop_schedule_Some decrement fuel q1 q2 n w q1' :
  TrialQueue.same_schedule q1 q2 →
  TrialQueue.pop_buffer_loop fuel q1 n decrement = Some (w, q1') →
  ∃ w' q2',
    TrialQueue.pop_buffer_loop fuel q2 n decrement = Some (w', q2') ∧
    TrialQueue.same_schedule q2' q1'.
Proof.
  intros Hs Hl.
  pose proof (pop_buffer_loop_schedule decrement fuel q1 q2 n Hs) as Hboth.
  rewrite Hl in Hboth.
  destruct (TrialQueue.pop_buffer_loop fuel q2 n decrement) as [[w' q2']|];
    [|done].
  exists w', q2'. split; [done|].
  destruct Hboth as (? & ? & ? & ? & ? & ?). by repeat split.
Qed.

(** A pull of [n + m] samples can be made in two: the schedule of the
    queue is the same afterwards. *)
Lemma pop_buffer_loop_add decrement fuel : ∀ q n m w q',
  TrialQueue.pop_buffer_loop fuel q (n + m) decrement = Some (w, q') →
  ∃ w1 q1 w2 q2,
    TrialQueue.pop_buffer_loop fuel q n decrement = Some (w1, q1) ∧
    TrialQueue.pop_buffer_loop fuel q1 m decrement = Some (w2, q2) ∧
    TrialQueue.same_schedule q2 q'.
Proof.
  induction fuel as [|fuel IH]; intros q n m w q' Hwhole.
  { destruct n, m; try done. exists [], q, [], q.
    injection Hwhole as <- <-. split; [done|]. split; [done|].
    apply same_schedule_refl. }
  destruct n as [|n'].
  { exists [], q, w, q'. split; [done|]. split; [done|].
    apply same_schedule_refl. }
  destruct m as [|m'].
  { rewrite Nat.add_0_r in Hwhole. exists w, q', [], q'.
    split; [done|]. split; [by destruct q' | apply same_schedule_refl]. }
  set (n := Datatypes.S n') in *. set (m := Datatypes.S m') in *.
  assert (0 < n)%nat as Hn by (subst n; lia).
  assert (0 < m)%nat as Hm by (subst m; lia).
  assert (∃ nm', (n + m)%nat = Datatypes.S nm') as [nm' Hnm]
    by (exists (n' + m)%nat; subst n; lia).
  rewrite Hnm in Hwhole. cbn [TrialQueue.pop_buffer_loop] in Hwhole.
  rewrite <- Hnm in Hwhole.
  destruct (TrialQueue.current q) as [[src remaining]|] eqn:Hcur.
  - destruct (decide (remaining ≤ n)%nat) as [Hle|Hgt].
    + (* the trial ends within the first pull *)
      replace ((n + m) `min` remaining)%nat with remaining in Hwhole by lia.
      destruct (next src remaining) as [w0 src0] eqn:Hnext.
      replace (n + m - remaining)%nat with ((n - remaining) + m)%nat
        in Hwhole by lia.
      destruct (TrialQueue.pop_buffer_loop fuel _ (n - remaining + m) _)
        as [[ws q'']|] eqn:Hrest; [|done].
      injection Hwhole as <- <-.
      apply IH in Hrest as (w1 & q1 & w2 & q2 & H1 & H2 & Hsame).
      exists (w0 ++ w1), q1, w2, q2. split; [|split; [|done]].
      * subst n. cbn [TrialQueue.pop_buffer_loop]. rewrite Hcur.
        replace (Datatypes.S n' `min` remaining)%nat with remaining by lia.
        rewrite Hnext. by rewrite H1.
      * by apply pop_buffer_loop_fuel with fuel; [|lia].
    + (* the first pull ends within the trial *)
      set (k2 := (m `min` (remaining - n))%nat).
      replace ((n + m) `min` remaining)%nat with (n + k2)%nat
        in Hwhole by lia.
      destruct (next src (n + k2)) as [w0 src0] eqn:Hnext.
      replace (n + m - (n + k2))%nat with (m - k2)%nat in Hwhole by lia.
      destruct (TrialQueue.pop_buffer_loop fuel _ (m - k2) _)
        as [[ws q'']|] eqn:Hrest; [|done].
      injection Hwhole as <- <-.
      destruct (next src n) as [w1 src1] eqn:Hnext1.
      set (q1 := TrialQueue.set_current (Some (src1, (remaining - n)%nat))
                   (TrialQueue.advance n q)).
      destruct (next src1 k2) as [w2 src2] eqn:Hnext2.
      eapply (pop_buffer_loop_schedule_Some decrement fuel _
                (if decide (remaining - n - k2 = 0)%nat
                 then TrialQueue.complete_trial decrement
                        (TrialQueue.advance k2 q1)
                 else TrialQueue.set_current
                        (Some (src2, (remaining - n - k2)%nat))
                        (TrialQueue.advance k2 q1)))
        in Hrest as (ws' & q2 & Hrest' & Hsame).
      2: { destruct q as [f es c g p u]. subst q1. clearbody n m k2.
           repeat case_decide; try lia; repeat split; cbn; try done;
             try lia; f_equal; lia. }
      exists (w1 ++ []), q1, (w2 ++ ws'), q2. split; [|split; [|done]].
      * subst n. cbn [TrialQueue.pop_buffer_loop]. rewrite Hcur.
        replace (Datatypes.S n' `min` remaining)%nat
          with (Datatypes.S n') by lia.
        rewrite Hnext1. rewrite decide_False by lia.
        rewrite Nat.sub_diag. fold q1. by destruct fuel.
      * subst m. cbn [TrialQueue.pop_buffer_loop].
        cbn [q1 TrialQueue.current TrialQueue.set_current].
        fold k2. rewrite Hnext2. fold q1. by rewrite Hrest'.
  - destruct (decide (TrialQueue.gap_left q = 0)%nat) as [Hgap|Hgap].
    + set (q0 := TrialQueue.set_entries _ q) in *.
      destruct (TrialQueue.entries q0) as [|e es] eqn:He.
      * injection Hwhole as <- <-.
        exists (np_zeros n), (TrialQueue.advance n q0),
               (np_zeros m), (TrialQueue.advance m
                                (TrialQueue.set_entries []
                                   (TrialQueue.advance n q0))).
        split; [|split].
        -- subst n. cbn [TrialQueue.pop_buffer_loop]. rewrite Hcur.
           rewrite decide_True by done. fold q0. by rewrite He.
        -- subst m. cbn [TrialQueue.pop_buffer_loop].
           cbn [TrialQueue.current TrialQueue.advance TrialQueue.gap_left
                TrialQueue.entries].
           subst q0. cbn [TrialQueue.current TrialQueue.set_entries
                          TrialQueue.gap_left TrialQueue.entries] in *.
           rewrite Hcur, decide_True by done.
           by rewrite He.
        -- destruct q as [f es' c g p u]. subst q0. cbn in *.
           repeat split; cbn; try done. lia.
      * apply IH in Hwhole as (w1 & q1 & w2 & q2 & H1 & H2 & Hsame).
        exists w1, q1, w2, q2. split; [|split; [|done]].
        -- subst n. cbn [TrialQueue.pop_buffer_loop]. rewrite Hcur.
           rewrite decide_True by done. fold q0. by rewrite He.
        -- by apply pop_buffer_loop_fuel with fuel; [|lia].
    + set (g := TrialQueue.gap_left q) in *.
      destruct (decide (g ≤ n)%nat) as [Hle|Hgt].
      * replace ((n + m) `min` g)%nat with g in Hwhole by lia.
        replace (n + m - g)%nat with ((n - g) + m)%nat in Hwhole by lia.
        destruct (TrialQueue.pop_buffer_loop fuel _ (n - g + m) _)
          as [[ws q'']|] eqn:Hrest; [|done].
        injection Hwhole as <- <-.
        apply IH in Hrest as (w1 & q1 & w2 & q2 & H1 & H2 & Hsame).
        exists (np_zeros g ++ w1), q1, w2, q2. split; [|split; [|done]].
        -- subst n. cbn [TrialQueue.pop_buffer_loop]. rewrite Hcur.
           rewrite decide_False by done. fold g.
           replace (Datatypes.S n' `min` g)%nat with g by lia.
           by rewrite H1.
        -- by apply pop_buffer_loop_fuel with fuel; [|lia].
      * set (k2 := (m `min` (g - n))%nat).
        replace ((n + m) `min` g)%nat with (n + k2)%nat in Hwhole by lia.
        replace (n + m - (n + k2))%nat with (m - k2)%nat in Hwhole by lia.
        destruct (TrialQueue.pop_buffer_loop fuel _ (m - k2) _)
          as [[ws q'']|] eqn:Hrest; [|done].
        injection Hwhole as <- <-.
        set (q1 := TrialQueue.advance n
                     (TrialQueue.set_gap_left (g - n) q)).
        eapply (pop_buffer_loop_schedule_Some decrement fuel _
                  (TrialQueue.advance k2
                     (TrialQueue.set_gap_left (g - n - k2) q1)))
          in Hrest as (ws' & q2 & Hrest' & Hsame).
        2: { destruct q as [f es c g0 p u]. subst q1.
             cbn [TrialQueue.gap_left] in g. clearbody n m k2 g.
             repeat split; cbn; try done; try lia. }
        exists (np_zeros n ++ []), q1, (np_zeros k2 ++ ws'), q2.
        split; [|split; [|done]].
        -- subst n. cbn [TrialQueue.pop_buffer_loop]. rewrite Hcur.
           rewrite decide_False by done. fold g.
           replace (Datatypes.S n' `min` g)%nat
             with (Datatypes.S n') by lia.
           rewrite Nat.sub_diag. fold q1. by destruct fuel.
        -- subst m. cbn [TrialQueue.pop_buffer_loop].
           cbn [q1 TrialQueue.current TrialQueue.advance
                TrialQueue.set_gap_left TrialQueue.gap_left].
           rewrite Hcur. rewrite decide_False by lia. fold k2.
           fold q1. by rewrite Hrest'.
Qed.

(** A round that starts a trial. *)
Lemma pop_buffer_loop_instantiate decrement fuel q n :
  (0 < n)%nat →
  TrialQueue.current q = None →
  TrialQueue.gap_left q = 0%nat →
  TrialQueue.pop_buffer_loop (Datatypes.S fuel) q n decrement
    = match TrialQueue.discard_exhausted (TrialQueue.entries q) with
      | [] =>
          Some (np_zeros n,
                TrialQueue.advance n (TrialQueue.set_entries [] q))
      | e :: es =>
          TrialQueue.pop_buffer_loop fuel
            (TrialQueue.instantiate e (TrialQueue.set_entries (e :: es) q))
            n decrement
      end.
Proof.
  intros Hn Hcur Hgap. destruct n; [lia|].
  cbn [TrialQueue.pop_buffer_loop]. rewrite Hcur.
  rewrite decide_True by done.
  cbn [TrialQueue.entries TrialQueue.set_entries].
  by destruct (TrialQueue.discard_exhausted (TrialQueue.entries q)).
Qed.

(** A round that plays the current trial to its end. *)
Lemma pop_buffer_loop_play decrement fuel q n src remaining :
  TrialQueue.current q = Some (src, remaining) →
  (0 < remaining ≤ n)%nat →
  TrialQueue.pop_buffer_loop (Datatypes.S fuel) q n decrement
    = '(ws, q') ← TrialQueue.pop_buffer_loop fuel
                    (TrialQueue.complete_trial decrement
                       (TrialQueue.advance remaining q))
                    (n - remaining) decrement;
      Some ((next src remaining).1 ++ ws, q').
Proof.
  intros Hcur Hrem. destruct n; [lia|].
  cbn [TrialQueue.pop_buffer_loop]. rewrite Hcur.
  replace (Datatypes.S n `min` remaining)%nat with remaining by lia.
  destruct (next src remaining) as [w src'].
  by rewrite decide_True by lia.
Qed.

(** The scenario of the specification, for any two factories [a] and [b]
    whose trials have [da] and [db] samples. *)
Lemma pop_buffer_A2_B1 rate offset (a b : Src) (da db : nat) (ma mb : M) :
  (0 < da)%nat → (0 < db)%nat →
  TrialQueue.pop_buffer
    (TrialQueue.append
       (TrialQueue.append (TrialQueue.create rate offset) a 2 0 da ma)
       b 1 0 db mb)
    (da + da + db) true
  = Some ((next a da).1 ++ (next a da).1 ++ (next b db).1 ++ [],
          {| TrialQueue.fs := rate;
             TrialQueue.entries := [];
             TrialQueue.current := None;
             TrialQueue.gap_left := 0;
             TrialQueue.position :=
               offset + Z.of_nat da + Z.of_nat da + Z.of_nat db;
             TrialQueue.uploaded :=
               [TrialQueue.mkUpload (offset # rate) da ma;
                TrialQueue.mkUpload ((offset + Z.of_nat da) # rate) da ma;
                TrialQueue.mkUpload
                  ((offset + Z.of_nat da + Z.of_nat da) # rate) db mb] |}).
Proof.
  intros Ha Hb. unfold TrialQueue.pop_buffer. queue_simpl.
  assert (∃ fuel,
            (2 * (da + da + db)
             + 2 * sum_list
                     (TrialQueue.repeat_count <$>
                        [TrialQueue.mkEntry a 2 0 da ma;
                         TrialQueue.mkEntry b 1 0 db mb]) + 1)%nat
            = Datatypes.S (Datatypes.S (Datatypes.S
                (Datatypes.S (Datatypes.S (Datatypes.S fuel))))))
    as [fuel ->] by (exists (2 * (da + da + db) + 1)%nat; cbn; lia).
  rewrite pop_buffer_loop_instantiate by (lia || done).
  queue_simpl. cbn [TrialQueue.discard_exhausted decide
                    TrialQueue.repeat_count].
  rewrite decide_False by done.
  queue_simpl.
  rewrite (pop_buffer_loop_play _ _ _ _ a da) by (lia || done). queue_simpl.
  replace (da + da + db - da)%nat with (da + db)%nat by lia.
  rewrite pop_buffer_loop_instantiate by (lia || done).
  queue_simpl. cbn [TrialQueue.discard_exhausted TrialQueue.repeat_count].
  rewrite decide_False by done.
  queue_simpl.
  rewrite (pop_buffer_loop_play _ _ _ _ a da) by (lia || done). queue_simpl.
  replace (da + db - da)%nat with db by lia.
  rewrite pop_buffer_loop_instantiate by (lia || done).
  queue_simpl. cbn [TrialQueue.discard_exhausted TrialQueue.repeat_count].
  rewrite decide_False by done.
  queue_simpl.
  rewrite (pop_buffer_loop_play _ _ _ _ b db) by (lia || done). queue_simpl.
  rewrite Nat.sub_diag. by destruct fuel.
Qed.

(** [pop_buffer] returns for a well-formed queue, and with more fuel the
    loop returns the same. *)
Lemma pop_buffer_returns q n decrement :
  TrialQueue.well_formed q →
  ∃ w q' new,
    TrialQueue.pop_buffer q n decrement = Some (w, q') ∧
    TrialQueue.uploaded q' = TrialQueue.uploaded q ++ new ∧
    TrialQueue.well_formed q'.
Proof.
  intros Hwf. apply pop_buffer_loop_returns; [done|].
  destruct (TrialQueue.current q); lia.
Qed.

(** Draining in pulls of any sizes leaves the schedule that one pull of
    the total leaves. *)
Lemma drain_schedule decrement chunks : ∀ q,
  TrialQueue.well_formed q →
  ∃ w q1 w' q2 new,
    TrialQueue.drain q chunks decrement = Some (w, q1) ∧
    TrialQueue.pop_buffer q (sum_list chunks) decrement = Some (w', q2) ∧
    TrialQueue.same_schedule q1 q2 ∧
    TrialQueue.well_formed q1 ∧
    TrialQueue.uploaded q1 = TrialQueue.uploaded q ++ new.
Proof.
  induction chunks as [|c cs IH]; intros q Hwf.
  { exists [], q, [], q, []. split; [done|].
    split; [unfold TrialQueue.pop_buffer; by rewrite Nat.add_1_r|].
    split; [apply same_schedule_refl|]. split; [done|].
    by rewrite app_nil_r. }
  destruct (pop_buffer_returns q c decrement Hwf)
    as (w1 & q1 & new1 & Hpop1 & Hup1 & Hwf1).
  destruct (IH q1 Hwf1)
    as (ws & qd & w2 & q2 & newd & Hdrain & Hpop2 & Hsame & Hwfd & Hupd).
  destruct (pop_buffer_returns q (sum_list (c :: cs)) decrement Hwf)
    as (w' & q' & new' & Hpop' & Hup' & Hwf').
  exists (w1 ++ ws), qd, w', q', (new1 ++ newd).
  split; [|split; [done|split; [|split; [done|]]]].
  - cbn [TrialQueue.drain]. rewrite Hpop1. cbn. by rewrite Hdrain.
  - unfold TrialQueue.pop_buffer in Hpop1, Hpop2, Hpop'.
    set (f1 := (2 * c + _ + 1)%nat) in Hpop1.
    set (f2 := (2 * sum_list cs + _ + 1)%nat) in Hpop2.
    set (f' := (2 * sum_list (c :: cs) + _ + 1)%nat) in Hpop'.
    apply pop_buffer_loop_fuel with (fuel' := (f1 + f2 + f')%nat) in Hpop1;
      [|lia].
    apply pop_buffer_loop_fuel with (fuel' := (f1 + f2 + f')%nat) in Hpop2;
      [|lia].
    apply pop_buffer_loop_fuel with (fuel' := (f1 + f2 + f')%nat) in Hpop';
      [|lia].
    change (sum_list (c :: cs)) with (c + sum_list cs)%nat in Hpop'.
    apply pop_buffer_loop_add in Hpop'
      as (wa & qa & wb & qb & Ha & Hb & Hsame').
    rewrite Hpop1 in Ha. injection Ha as <- <-.
    rewrite Hpop2 in Hb. injection Hb as <- <-.
    by apply same_schedule_trans with q2.
  - by rewrite Hupd, Hup1, app_assoc.
Qed.

(** Without [auto_decrement] no entry that has repeats left is ever
    discarded. *)
Lemma pop_buffer_loop_keeps_entries fuel : ∀ q n w q',
  TrialQueue.pop_buffer_loop fuel q n false = Some (w, q') →
  TrialQueue.discard_exhausted (TrialQueue.entries q')
    = TrialQueue.discard_exhausted (TrialQueue.entries q).
Proof.
  induction fuel as [|fuel IH]; intros q n w q' Hl.
  { destruct n; [|done]. by injection Hl as <- <-. }
  destruct n as [|n']; [by injection Hl as <- <-|].
  cbn [TrialQueue.pop_buffer_loop] in Hl.
  destruct (TrialQueue.current q) as [[src remaining]|].
  - destruct (next src _) as [w0 src0].
    destruct (TrialQueue.pop_buffer_loop fuel _ _ _) as [[ws q'']|] eqn:Hrest;
      [|done].
    injection Hl as <- <-. apply IH in Hrest. rewrite Hrest.
    case_decide; cbn; [|done]. by destruct (TrialQueue.entries q).
  - case_decide.
    + cbn [TrialQueue.entries TrialQueue.set_entries] in Hl.
      destruct (TrialQueue.discard_exhausted (TrialQueue.entries q))
        as [|e es] eqn:Hes.
      * by injection Hl as <- <-.
      * apply IH in Hl. rewrite Hl.
        cbn [TrialQueue.entries TrialQueue.instantiate
             TrialQueue.set_entries].
        rewrite <- Hes. apply discard_exhausted_idemp.
    + destruct (TrialQueue.pop_buffer_loop fuel _ _ _) as [[ws q'']|]
        eqn:Hrest; [|done].
      injection Hl as <- <-. by apply IH in Hrest.
Qed.

End TrialQueueFacts.



(** ** Chunked pulls *)

Section Cache.
Context {A : Type} `{Sample A} {T : Type} `{Buffered A T}.
Variable get_next_samples : T → nat → result (list A * T).

(** Within the bounds of the buffer, the cache serves as much of the pull
    as it holds. *)
Lemma serve_cached_spec (self : T) offset samples :
  get_samples_lb (buffer_of self) ≤ offset ≤ get_samples_ub (buffer_of self) →
  serve_cached self offset samples =
    let k := (samples `min`
                Z.to_nat (get_samples_ub (buffer_of self) - offset))%nat in
    Returns (take k (drop (Z.to_nat (offset - get_samples_lb (buffer_of self)))
                       (cached (buffer_of self))),
             (samples - k)%nat, offset + Z.of_nat k).
Proof.
  intros [Hlb Hub]. unfold serve_cached, get_range_samples. cbv zeta.
  pose proof (length_drop (cached (buffer_of self))
                (Z.to_nat (offset - get_samples_lb (buffer_of self)))) as Hlen.
  unfold get_samples_lb, get_samples_ub in *.
  rewrite bool_decide_eq_false_2 by lia.
  case_bool_decide as Hend.
  { replace (Z.to_nat (samples_ub (buffer_of self) - offset)) with 0%nat by lia.
    rewrite Nat.min_0_r, Nat.sub_0_r, Z.add_0_r. by rewrite take_0. }
  case_bool_decide as Hin.
  - rewrite bool_decide_eq_false_2 by (cbn; lia). cbn [and_then default from_option id].
    rewrite Nat.min_l by lia.
    replace (Z.to_nat (offset + Z.of_nat samples - offset)) with samples by lia.
    rewrite np_assign_exact by (rewrite length_take; lia).
    cbn [and_then]. by rewrite Nat.sub_diag.
  - rewrite bool_decide_eq_true_2 by lia.
    rewrite bool_decide_eq_false_2 by (cbn; lia). cbn [and_then default from_option id].
    rewrite Nat.min_r by lia.
    by rewrite length_take, Nat.min_l by lia.
Qed.

Lemma get_samples_fill (self : T) offset samples :
  get_samples get_next_samples self offset samples =
    let* (cached_out, samples', offset') := serve_cached self offset samples in
    let* (new_out, self') := fill get_next_samples self offset' samples' in
    Returns (cached_out ++ new_out, self').
Proof.
  unfold get_samples, fill.
  destruct (serve_cached self offset samples) as [[[c n] o]|e];
    cbn [and_then]; [|done].
  destruct (pad_before_activation self o n) as [[[zs self1] n1] o1].
  destruct (generate get_next_samples self1 n1) as [[w self2]|e];
    cbn [and_then]; done.
Qed.
End Cache.

Section Chunking.
Context {A : Type} `{Sample A} {S : Type} `{WaveformSource A S}.
Context `{!SourceContract A S}.
Implicit Types (self : BufferedOutput A S).

Lemma EpochOutput_waveform_length act src samples w st :
  EpochOutput_waveform act src samples = Returns (w, st) → length w = samples.
Proof.
  unfold EpochOutput_waveform. destruct act.
  - destruct src as [s|]; [|discriminate].
    pose proof (next_length s samples) as Hl.
    destruct (next s samples) as [w' s']. intros [= <- _]. exact Hl.
  - intros [= <- _]. apply length_np_zeros.
Qed.

Lemma EpochOutput_waveform_add act src a b :
  EpochOutput_waveform act src (a + b) =
    let* (w1, (act1, src1)) := EpochOutput_waveform act src a in
    let* (w2, st2) := EpochOutput_waveform act1 src1 b in
    Returns (w1 ++ w2, st2).
Proof.
  unfold EpochOutput_waveform. destruct act; cbn [and_then].
  - destruct src as [s|]; [|done]. rewrite (next_add s a b).
    destruct (next s a) as [w1 s1]. cbn [fst snd].
    destruct (is_complete s1) eqn:Hc1; cbn [and_then].
    + destruct (next_complete s1 b Hc1) as [Hz Hc2].
      destruct (next s1 b) as [w2 s2]. cbn [fst snd] in *.
      by rewrite Hz, Hc2.
    + destruct (next s1 b) as [w2 s2]. cbn [fst snd and_then]. done.
  - by rewrite np_zeros_add.
Qed.

Lemma EpochOutput_get_next_samples_waveform self samples :
  _offset self ≤ get_samples_ub (_buffer self) →
  (0 < samples)%nat →
  EpochOutput_get_next_samples self samples =
    let* (w, (act, src)) :=
      EpochOutput_waveform (active self) (source self) samples in
    Returns (w, {| active := act; source := src;
                   _buffer := _buffer self; _offset := _offset self |}).
Proof.
  intros Ho Hn. destruct self as [act src buf off]. cbn in Ho.
  destruct act.
  - destruct src as [s|].
    + rewrite (EpochOutput_get_next_samples_active _ _ s) by done.
      unfold EpochOutput_waveform. cbn [active source _buffer _offset].
      destruct (next s samples) as [w s']. cbn [fst snd].
      destruct (is_complete s'); cbn [and_then]; [|done].
      unfold deactivate, set_source. cbn [active source _buffer _offset].
      by rewrite invalidate_samples_ub.
    + unfold EpochOutput_get_next_samples. cbn [active source _buffer _offset].
      cbv zeta.
      assert (Z.to_nat (Z.max (off - get_samples_ub buf) 0
                          `min` Z.of_nat samples) = 0%nat) as -> by lia.
      rewrite Nat.sub_0_r.
      do 2 (case_decide; try (done || lia)).
  - by rewrite EpochOutput_get_next_samples_inactive.
Qed.

(** What a pull of an epoch output adds at the upper bound of its buffer:
    zeros up to the activation offset, then the waveform; all of it is
    appended to the buffer. *)
Lemma EpochOutput_fill_spec self offset samples :
  get_samples_ub (_buffer self) = offset →
  (0 < samples)%nat →
  fill EpochOutput_get_next_samples self offset samples =
    let d := Z.to_nat (_offset self - offset) in
    if decide (samples ≤ d)%nat then
      Returns (np_zeros samples,
               set_buffer (append_data (_buffer self) (np_zeros samples)) self)
    else
      let* (w, (act, src)) :=
        EpochOutput_waveform (active self) (source self) (samples - d) in
      Returns (np_zeros d ++ w,
               {| active := act; source := src;
                  _buffer := append_data (_buffer self) (np_zeros d ++ w);
                  _offset := _offset self |}).
Proof.
  intros Hub Hn. destruct self as [act src buf off]. cbn in Hub. cbv zeta.
  unfold fill, pad_before_activation.
  cbn [offset_of buffer_of set_buffer BufferedOutput_buffered
       active source _buffer _offset].
  case_bool_decide as Hpad.
  - match goal with |- context [Z.to_nat (Z.min ?x ?y)] =>
      set (s := Z.to_nat (Z.min x y)) end.
    case_decide as Hd.
    + assert (s = samples) as -> by lia.
      unfold generate. rewrite bool_decide_eq_false_2 by lia.
      cbn [and_then]. by rewrite app_nil_r.
    + assert (s = Z.to_nat (off - offset)) as -> by lia.
      unfold generate. rewrite bool_decide_eq_true_2 by lia.
      rewrite EpochOutput_get_next_samples_waveform; [| |lia].
      2:{ unfold get_samples_ub in *. cbn. rewrite length_np_zeros. lia. }
      cbn [active source _buffer _offset].
      destruct (EpochOutput_waveform act src _) as [[w [act' src']]|e] eqn:Hw;
        cbn [and_then]; [|done].
      rewrite np_assign_exact by (by eapply EpochOutput_waveform_length).
      cbn [and_then buffer_of set_buffer BufferedOutput_buffered
           active source _buffer _offset].
      by rewrite append_data_app.
  - assert (Z.to_nat (off - offset) = 0%nat) as -> by lia.
    rewrite decide_False by lia. rewrite Nat.sub_0_r.
    unfold generate. rewrite bool_decide_eq_true_2 by lia.
    rewrite EpochOutput_get_next_samples_waveform;
      [| unfold get_samples_ub in *; cbn; lia | lia].
    cbn [active source _buffer _offset].
    destruct (EpochOutput_waveform act src samples)
      as [[w [act' src']]|e] eqn:Hw; cbn [and_then]; [|done].
    rewrite np_assign_exact by (by eapply EpochOutput_waveform_length).
    by cbn.
Qed.

Lemma fill_nothing self offset :
  fill EpochOutput_get_next_samples self offset 0 = Returns ([], self).
Proof.
  unfold fill, pad_before_activation, generate.
  rewrite !bool_decide_eq_false_2 by lia. done.
Qed.

(** Filling in two steps is filling in one. *)
Lemma EpochOutput_fill_add self offset a b :
  get_samples_ub (_buffer self) = offset →
  fill EpochOutput_get_next_samples self offset (a + b) =
    let* (w1, self1) := fill EpochOutput_get_next_samples self offset a in
    let* (w2, self2) :=
      fill EpochOutput_get_next_samples self1 (offset + Z.of_nat a) b in
    Returns (w1 ++ w2, self2).
Proof.
  intros Hub.
  destruct (decide (a = 0)%nat) as [->|Ha].
  { rewrite fill_nothing. cbn [and_then Nat.add]. rewrite Z.add_0_r.
    by destruct (fill _ self offset b) as [[w2 self2]|e]. }
  destruct (decide (b = 0)%nat) as [->|Hb].
  { rewrite Nat.add_0_r.
    destruct (fill _ self offset a) as [[w1 self1]|e]; cbn [and_then]; [|done].
    rewrite fill_nothing. cbn [and_then]. by rewrite app_nil_r. }
  rewrite (EpochOutput_fill_spec self offset (a + b)) by (done || lia).
  rewrite (EpochOutput_fill_spec self offset a) by (done || lia).
  destruct self as [act src buf off]. unfold get_samples_ub in Hub.
  cbn [active source _buffer _offset] in *. cbv zeta.
  set (d := Z.to_nat (off - offset)).
  destruct (decide (a ≤ d)%nat) as [Had|Had].
  - cbn [and_then].
    rewrite EpochOutput_fill_spec; [| |lia].
    2:{ unfold get_samples_ub. cbn. rewrite length_np_zeros. lia. }
    cbn [set_buffer BufferedOutput_buffered active source _buffer _offset].
    cbv zeta.
    assert (Z.to_nat (off - (offset + Z.of_nat a)) = (d - a)%nat) as ->
      by lia.
    destruct (decide (a + b ≤ d)%nat) as [Habd|Habd].
    + rewrite decide_True by lia. cbn [and_then].
      by rewrite append_data_app, <- np_zeros_add.
    + rewrite decide_False by lia.
      replace (b - (d - a))%nat with (a + b - d)%nat by lia.
      destruct (EpochOutput_waveform act src (a + b - d))
        as [[w [act' src']]|e]; cbn [and_then]; [|done].
      rewrite append_data_app, !app_assoc, <- np_zeros_add.
      by replace (a + (d - a))%nat with d by lia.
  - rewrite decide_False by lia.
    replace (a + b - d)%nat with ((a - d) + b)%nat by lia.
    rewrite EpochOutput_waveform_add.
    destruct (EpochOutput_waveform act src (a - d))
      as [[w1 [act1 src1]]|e] eqn:Hw1; cbn [and_then]; [|done].
    apply EpochOutput_waveform_length in Hw1.
    rewrite EpochOutput_fill_spec; [| |lia].
    2:{ unfold get_samples_ub. cbn.
        rewrite length_app, length_np_zeros. lia. }
    cbn [active source _buffer _offset]. cbv zeta.
    assert (Z.to_nat (off - (offset + Z.of_nat a)) = 0%nat) as -> by lia.
    rewrite decide_False by lia. rewrite Nat.sub_0_r.
    destruct (EpochOutput_waveform act1 src1 b)
      as [[w2 [act2 src2]]|e]; cbn [and_then]; [|done].
    by rewrite append_data_app, <- !app_assoc.
Qed.

(** After filling, the buffer ends where the pull ends. *)
Lemma EpochOutput_fill_ub self offset samples out self' :
  get_samples_ub (_buffer self) = offset →
  fill EpochOutput_get_next_samples self offset samples = Returns (out, self') →
  get_samples_ub (_buffer self') = offset + Z.of_nat samples.
Proof.
  intros Hub. destruct (decide (samples = 0)%nat) as [->|Hn].
  { rewrite fill_nothing. intros [= _ <-]. lia. }
  rewrite EpochOutput_fill_spec by (done || lia). cbv zeta.
  unfold get_samples_ub in *. case_decide as Hd.
  - intros [= _ <-]. cbn. rewrite length_np_zeros. lia.
  - destruct (EpochOutput_waveform _ _ _) as [[w [act src]]|e] eqn:Hw;
      cbn [and_then]; [|done].
    apply EpochOutput_waveform_length in Hw.
    intros [= _ <-]. cbn. rewrite length_app, length_np_zeros. lia.
Qed.

(** Two pulls without gap are one pull. *)
Lemma EpochOutput_get_samples_add self offset a b :
  get_samples_lb (_buffer self) ≤ offset →
  EpochOutput_get_samples self offset (a + b) =
    let* (w1, self1) := EpochOutput_get_samples self offset a in
    let* (w2, self2) :=
      EpochOutput_get_samples self1 (offset + Z.of_nat a) b in
    Returns (w1 ++ w2, self2).
Proof.
  intros Hlb. unfold EpochOutput_get_samples.
  destruct (decide (get_samples_ub (_buffer self) < offset)) as [Hgap|Hub].
  { pose proof (get_samples_SystemError _ EpochOutput_no_SystemError self offset)
      as Hraise.
    rewrite (proj2 (Hraise (a + b)%nat)), (proj2 (Hraise a)) by done. done. }
  rewrite (get_samples_fill _ self offset (a + b)).
  rewrite (get_samples_fill _ self offset a).
  rewrite !serve_cached_spec by (cbn; lia).
  cbn [buffer_of BufferedOutput_buffered and_then]. cbv zeta.
  set (c := Z.to_nat (get_samples_ub (_buffer self) - offset)).
  set (x := Z.to_nat (offset - get_samples_lb (_buffer self))).
  destruct (decide (a ≤ c)%nat) as [Hac|Hac].
  - rewrite (Nat.min_l a c), Nat.sub_diag, fill_nothing by lia.
    cbn [and_then]. rewrite app_nil_r.
    rewrite get_samples_fill, serve_cached_spec by (cbn; lia).
    cbn [buffer_of BufferedOutput_buffered and_then]. cbv zeta.
    replace (Z.to_nat (get_samples_ub (_buffer self) - (offset + Z.of_nat a)))
      with (c - a)%nat by lia.
    replace (Z.to_nat (offset + Z.of_nat a - get_samples_lb (_buffer self)))
      with (x + a)%nat by lia.
    set (k2 := (b `min` (c - a))%nat).
    replace ((a + b) `min` c)%nat with (a + k2)%nat by lia.
    replace (a + b - (a + k2))%nat with (b - k2)%nat by lia.
    replace (offset + Z.of_nat (a + k2)) with (offset + Z.of_nat a + Z.of_nat k2)
      by lia.
    destruct (fill _ self _ (b - k2)) as [[t self']|e]; cbn [and_then]; [|done].
    rewrite <- drop_drop, <- take_take_drop. by rewrite <- app_assoc.
  - rewrite (Nat.min_r a c), (Nat.min_r (a + b) c) by lia.
    assert (get_samples_ub (_buffer self) = offset + Z.of_nat c) as Hc by lia.
    replace (a + b - c)%nat with ((a - c) + b)%nat by lia.
    rewrite (EpochOutput_fill_add self _ (a - c) b) by done.
    destruct (fill _ self (offset + Z.of_nat c) (a - c))
      as [[t1 self1]|e] eqn:Hfill; cbn [and_then]; [|done].
    apply EpochOutput_fill_ub in Hfill; [|done].
    pose proof (bounds_ordered (_buffer self1)) as Hord.
    rewrite get_samples_fill, serve_cached_spec by (cbn; lia).
    cbn [buffer_of BufferedOutput_buffered and_then]. cbv zeta.
    replace (Z.to_nat (get_samples_ub (_buffer self1) - (offset + Z.of_nat a)))
      with 0%nat by lia.
    rewrite Nat.min_0_r, Nat.sub_0_r, Z.add_0_r, take_0.
    replace (offset + Z.of_nat c + Z.of_nat (a - c)) with (offset + Z.of_nat a)
      by lia.
    destruct (fill _ self1 _ b) as [[t2 self2]|e]; cbn [and_then]; [|done].
    by rewrite app_nil_l, app_assoc.
Qed.

(** After a pull, the next pull of a sequence without gaps starts within
    the bounds of the buffer. *)
Lemma EpochOutput_get_samples_lb self offset samples out self' :
  get_samples_lb (_buffer self) ≤ offset →
  EpochOutput_get_samples self offset samples = Returns (out, self') →
  get_samples_lb (_buffer self') ≤ offset + Z.of_nat samples.
Proof.
  intros Hlb. unfold EpochOutput_get_samples.
  destruct (decide (get_samples_ub (_buffer self) < offset)) as [Hgap|Hub].
  { pose proof (get_samples_SystemError _ EpochOutput_no_SystemError self offset)
      as Hraise.
    by rewrite (proj2 (Hraise samples)). }
  rewrite get_samples_fill, serve_cached_spec by (cbn; lia).
  cbn [buffer_of BufferedOutput_buffered and_then]. cbv zeta.
  set (c := Z.to_nat (get_samples_ub (_buffer self) - offset)).
  destruct (decide (samples ≤ c)%nat) as [Hc|Hc].
  - rewrite (Nat.min_l samples c), Nat.sub_diag, fill_nothing by lia.
    cbn [and_then]. intros [= _ <-]. lia.
  - rewrite (Nat.min_r samples c) by lia.
    destruct (fill _ self _ (samples - c)) as [[t self1]|e] eqn:Hfill;
      cbn [and_then]; [|done].
    apply EpochOutput_fill_ub in Hfill; [|lia].
    pose proof (bounds_ordered (_buffer self1)) as Hord.
    intros [= _ <-]. lia.
Qed.

(** C1 (as amended).  For an epoch output whose source keeps the contract
    of a waveform source ([next(n)] returns [n] samples, successive calls
    continue one waveform, a complete epoch yields silence), and for a
    sequence of pulls without gaps whose first offset is not below the
    lower bound of the buffer: the concatenation of the chunks, the
    output afterwards and a failure, if one occurs, are those of the
    single pull of the total length at the first offset. *)
Theorem pull_chunking_is_transparent chunks : ∀ self offset samples,
  get_samples_lb (_buffer self) ≤ offset →
  get_samples_chunked EpochOutput_get_next_samples self offset
      (samples :: chunks)
    = EpochOutput_get_samples self offset (samples + sum_list chunks).
Proof.
  induction chunks as [|n chunks IH]; intros self offset samples Hlb.
  - cbn [get_samples_chunked sum_list foldr]. rewrite Nat.add_0_r.
    fold (EpochOutput_get_samples self offset samples).
    destruct (EpochOutput_get_samples self offset samples) as [[out self']|e];
      cbn [and_then]; [|done].
    by rewrite app_nil_r.
  - rewrite EpochOutput_get_samples_add by done.
    change (get_samples_chunked EpochOutput_get_next_samples self offset
              (samples :: n :: chunks))
      with (let* (out, self1) := EpochOutput_get_samples self offset samples in
            let* (outs, self2) :=
              get_samples_chunked EpochOutput_get_next_samples self1
                (offset + Z.of_nat samples) (n :: chunks) in
            Returns (out ++ outs, self2)).
    destruct (EpochOutput_get_samples self offset samples)
      as [[out self1]|e] eqn:Hpull; cbn [and_then]; [|done].
    rewrite IH; [done|].
    by eapply EpochOutput_get_samples_lb.
Qed.
End Chunking.

#[export] Instance PaddedEpoch_contract : SourceContract Z PaddedEpoch.
Proof.
  split.
  - intros [rest] n. cbn. rewrite length_app, length_take, length_np_zeros. lia.
  - intros [rest] a b. cbn. rewrite drop_drop. f_equal.
    rewrite length_drop.
    destruct (decide (a ≤ length rest)%nat) as [Ha|Ha].
    + replace (a - length rest)%nat with 0%nat by lia.
      replace (a + b - length rest)%nat with (b - (length rest - a))%nat by lia.
      cbn. by rewrite app_nil_r, <- take_take_drop, <- app_assoc.
    + rewrite (take_ge rest a), (take_ge rest (a + b)), (drop_ge rest a) by lia.
      replace (a + b - length rest)%nat with ((a - length rest) + b)%nat by lia.
      replace (b - (length rest - a))%nat with b by lia.
      rewrite (np_zeros_add (A := Z)), take_nil. by rewrite <- app_assoc.
  - intros [rest] n Hc. cbn in *. apply bool_decide_eq_true in Hc as ->.
    cbn. by rewrite take_nil, drop_nil, Nat.sub_0_r.
Qed.

#[export] Instance Ramp_contract : SourceContract Z Ramp.
Proof.
  split.
  - intros [pos] n. cbn. by rewrite length_fmap, length_seq.
  - intros [pos] a b. cbn. rewrite seq_app, fmap_app.
    by rewrite Nat.add_assoc.
  - intros [pos] n [=].
Qed.

(** An instance: an epoch with three samples left, pulled in chunks of two,
    two and three samples, and in one pull of seven. *)
Lemma pull_chunking_is_transparent_witness :
  get_samples_chunked EpochOutput_get_next_samples padded_epoch_with_3_left 0
      [2; 2; 3]%nat
    = EpochOutput_get_samples padded_epoch_with_3_left 0 7 ∧
  ∃ self',
    EpochOutput_get_samples padded_epoch_with_3_left 0 7
      = Returns ([7; 8; 9; 0; 0; 0; 0], self').
Proof.
  split.
  - apply (pull_chunking_is_transparent [2; 3]%nat padded_epoch_with_3_left 0 2).
    unfold get_samples_lb. simpl. lia.
  - eexists. reflexivity.
Defined.

(** Against transparency for every sequence without gaps, in two ways.
    With a source that yields only the three samples it has left, the
    pulls of three and of two samples succeed and the single pull of five
    fails.  With a buffer that caches the offsets 4 to 8, the samples
    below 4 being lost, the pulls (2, 2) and (4, 2) return two new samples
    and then two cached ones, and the single pull (2, 4) returns four new
    samples. *)
Lemma pull_chunking_not_transparent :
  ((∃ self',
      get_samples_chunked EpochOutput_get_next_samples epoch_with_3_left 0
          [3; 2]%nat
        = Returns ([7; 8; 9; 0; 0], self')) ∧
   EpochOutput_get_samples epoch_with_3_left 0 (3 + 2) = Raises ValueError) ∧
  (get_samples_lb (_buffer output_with_evicted_start) = 4 ∧
   (∃ self',
      get_samples_chunked EpochOutput_get_next_samples
          output_with_evicted_start 2 [2; 2]%nat
        = Returns ([11; 12; 1; 2], self')) ∧
   (∃ self',
      EpochOutput_get_samples output_with_evicted_start 2 (2 + 2)
        = Returns ([11; 12; 13; 14], self')) ∧
   get_samples_chunked EpochOutput_get_next_samples
       output_with_evicted_start 2 [2; 2]%nat
     ≠ EpochOutput_get_samples output_with_evicted_start 2 (2 + 2)).
Proof.
  split.
  - split; [eexists; reflexivity | reflexivity].
  - split; [reflexivity|].
    split; [eexists; reflexivity|].
    split; [eexists; reflexivity|].
    discriminate.
Qed.

(** * Further properties of the pull protocol *)

Section PullFacts.
Context {A : Type} `{Sample A} {T : Type} `{Buffered A T}.
Variable get_next_samples : T → nat → result (list A * T).

Lemma np_assign_length width (data out : list A) :
  np_assign width data = Returns out → length out = width.
Proof.
  unfold np_assign. case_decide as Hl; [by intros [= <-]|].
  destruct data as [|x [|y data]]; [done| |done].
  intros [= <-]. apply length_replicate.
Qed.

Lemma serve_cached_length (self : T) offset samples out rest offset' :
  serve_cached self offset samples = Returns (out, rest, offset') →
  (length out + rest = samples)%nat.
Proof.
  unfold serve_cached, get_range_samples.
  repeat case_bool_decide; cbn [and_then default from_option id];
    try discriminate.
  - by intros [= <- <- _].
  - destruct (np_assign samples _) as [o|e] eqn:Ho; cbn [and_then]; [|done].
    apply np_assign_length in Ho. intros [= <- <- _]. lia.
  - intros [= <- <- _]. rewrite length_take. lia.
  - by intros [= <- <- _].
Qed.

Lemma generate_length (self self' : T) samples out :
  generate get_next_samples self samples = Returns (out, self') →
  length out = samples.
Proof.
  unfold generate. case_bool_decide as Hn.
  - destruct (get_next_samples self samples) as [[data self1]|e];
      cbn [and_then]; [|done].
    destruct (np_assign samples data) as [o|e] eqn:Ho; cbn [and_then]; [|done].
    apply np_assign_length in Ho. by intros [= <- _].
  - intros [= <- _]. simpl. lia.
Qed.

(** X1.  A pull that returns fills all of [out]: whatever the kind of
    output and the state it is in, the samples returned by
    [get_samples(offset, samples)] are [samples] many. *)
Theorem get_samples_returns_all_samples (self self' : T) offset samples out :
  get_samples get_next_samples self offset samples = Returns (out, self') →
  length out = samples.
Proof.
  unfold get_samples.
  destruct (serve_cached self offset samples) as [[[c n] o]|e] eqn:Hc;
    cbn [and_then]; [|done].
  apply serve_cached_length in Hc.
  unfold pad_before_activation. case_bool_decide as Hpad.
  - destruct (generate _ _ _) as [[w self2]|e] eqn:Hg; cbn [and_then]; [|done].
    apply generate_length in Hg. intros [= <- _].
    rewrite !length_app, length_np_zeros, Hg. lia.
  - destruct (generate _ _ _) as [[w self2]|e] eqn:Hg; cbn [and_then]; [|done].
    apply generate_length in Hg. intros [= <- _].
    rewrite !length_app, Hg. simpl. lia.
Qed.

(** X2.  A pull that lies within the bounds of the buffer is served from
    the cache alone: it returns the cached samples of its range and
    leaves the output as it was, so [get_next_samples] is not called. *)
Theorem get_samples_from_cache (self : T) offset samples :
  get_samples_lb (buffer_of self) ≤ offset →
  offset + Z.of_nat samples ≤ get_samples_ub (buffer_of self) →
  get_samples get_next_samples self offset samples =
    Returns (take samples
               (drop (Z.to_nat (offset - get_samples_lb (buffer_of self)))
                  (cached (buffer_of self))),
             self).
Proof.
  intros Hlb Hub. rewrite get_samples_fill, serve_cached_spec by lia.
  cbv zeta. cbn [and_then].
  rewrite Nat.min_l, Nat.sub_diag by lia.
  unfold fill, pad_before_activation, generate.
  rewrite !bool_decide_eq_false_2 by lia. cbn [and_then].
  by rewrite !app_nil_r.
Qed.

(** X3.  Before the activation offset an output is silent: a pull at the
    upper bound of the buffer that ends at or before [_offset] returns
    zeros, appends them to the buffer and changes nothing else;
    [get_next_samples] is not called, whether the output is active or
    not and whether it has a source or not. *)
Theorem get_samples_before_activation (self : T) samples :
  (0 < samples)%nat →
  get_samples_ub (buffer_of self) + Z.of_nat samples ≤ offset_of self →
  get_samples get_next_samples self (get_samples_ub (buffer_of self)) samples =
    Returns (np_zeros samples,
             set_buffer (append_data (buffer_of self) (np_zeros samples)) self).
Proof.
  intros Hn Hoff. unfold get_samples, serve_cached. cbv zeta.
  rewrite bool_decide_eq_false_2 by lia.
  rewrite bool_decide_eq_true_2 by done. cbn [and_then].
  unfold pad_before_activation. rewrite bool_decide_eq_true_2 by lia.
  replace (Z.to_nat (Z.min (offset_of self - get_samples_ub (buffer_of self))
                       (Z.of_nat samples)))
    with samples by lia.
  unfold generate. rewrite Nat.sub_diag.
  rewrite bool_decide_eq_false_2 by lia. cbn [and_then].
  by rewrite app_nil_l, app_nil_r.
Qed.
End PullFacts.

(** An instance: the cache holds the offsets 4 to 8; the pull of two
    samples at 5 returns the second and third of them. *)
Lemma get_samples_from_cache_witness :
  EpochOutput_get_samples output_with_evicted_start 5 2
    = Returns ([2; 3], output_with_evicted_start).
Proof.
  refine (get_samples_from_cache EpochOutput_get_next_samples
            output_with_evicted_start 5 2 _ _);
    unfold get_samples_lb; simpl; lia.
Defined.

(** An instance: three of the four samples before the activation. *)
Lemma get_samples_before_activation_witness :
  EpochOutput_get_samples epoch_activated_at_4 0 3
    = Returns ([0; 0; 0],
               set_buffer (append_data (_buffer epoch_activated_at_4) [0; 0; 0])
                 epoch_activated_at_4).
Proof.
  refine (get_samples_before_activation EpochOutput_get_next_samples
            epoch_activated_at_4 3 _ _); simpl; lia.
Defined.

(** An instance: a pull of seven samples returns seven samples. *)
Lemma get_samples_returns_all_samples_witness :
  ∃ out self',
    EpochOutput_get_samples padded_epoch_with_3_left 0 7 = Returns (out, self') ∧
    length out = 7%nat.
Proof.
  eexists _, _. split; [reflexivity|].
  exact (get_samples_returns_all_samples EpochOutput_get_next_samples
           padded_epoch_with_3_left _ 0 7 _ eq_refl).
Defined.

(** ** Replay, activation and deactivation *)

Section LastN.
Context {A : Type}.
Implicit Types (l t : list A).

Lemma lastn_lastn n m l : (n ≤ m)%nat → lastn n (lastn m l) = lastn n l.
Proof.
  intros Hnm. unfold lastn. rewrite length_drop, drop_drop. f_equal. lia.
Qed.

Lemma lastn_app n l t :
  (n ≤ length l)%nat → lastn (n + length t) (l ++ t) = lastn n l ++ t.
Proof.
  intros Hn. unfold lastn. rewrite length_app.
  replace (length l + length t - (n + length t))%nat with (length l - n)%nat
    by lia.
  apply drop_app_le. lia.
Qed.
End LastN.

Section Replay.
Context {A : Type} `{Sample A} {S : Type} `{WaveformSource A S}.
Context `{!SourceContract A S}.
Implicit Types (self : BufferedOutput A S).

(** What was filled in is what was appended to the buffer. *)
Lemma EpochOutput_fill_buffer self offset samples out self' :
  get_samples_ub (_buffer self) = offset →
  (0 < samples)%nat →
  fill EpochOutput_get_next_samples self offset samples = Returns (out, self') →
  _buffer self' = append_data (_buffer self) out ∧ length out = samples.
Proof.
  intros Hub Hn. rewrite EpochOutput_fill_spec by done. cbv zeta.
  case_decide as Hd.
  - intros [= <- <-]. split; [done | apply length_np_zeros].
  - destruct (EpochOutput_waveform _ _ _) as [[w [act src]]|e] eqn:Hw;
      cbn [and_then]; [|done].
    apply EpochOutput_waveform_length in Hw.
    intros [= <- <-]. split; [done|].
    rewrite length_app, length_np_zeros. lia.
Qed.

(** X4.  With a source that honours the source contract, a pull can be
    repeated: after a pull of at most [capacity] samples, within or at the
    end of the buffer, the same pull returns the same samples from the
    cache and changes nothing, so the source is not advanced a second
    time. *)
Theorem get_samples_replay self offset samples out self' :
  get_samples_lb (_buffer self) ≤ offset ≤ get_samples_ub (_buffer self) →
  (0 < samples ≤ capacity (_buffer self))%nat →
  EpochOutput_get_samples self offset samples = Returns (out, self') →
  EpochOutput_get_samples self' offset samples = Returns (out, self').
Proof.
  intros [Hlb Hub] [Hn Hcap]. unfold EpochOutput_get_samples.
  intros Hpull. pose proof Hpull as Hfirst. revert Hpull.
  rewrite get_samples_fill, serve_cached_spec by (cbn; lia).
  cbn [buffer_of BufferedOutput_buffered and_then]. cbv zeta.
  set (c := Z.to_nat (get_samples_ub (_buffer self) - offset)).
  set (x := Z.to_nat (offset - get_samples_lb (_buffer self))).
  assert (Z.of_nat c = samples_ub (_buffer self) - offset) as Hc_def
    by (subst c; unfold get_samples_ub in *; lia).
  assert (Z.of_nat x = offset - (samples_ub (_buffer self)
                                 - Z.of_nat (length (cached (_buffer self)))))
    as Hx_def by (subst x; unfold get_samples_lb in *; lia).
  clearbody c x.
  destruct (decide (samples ≤ c)%nat) as [Hc|Hc].
  { rewrite (Nat.min_l samples c), Nat.sub_diag, fill_nothing by lia.
    cbn [and_then]. intros [= _ <-]. exact Hfirst. }
  rewrite (Nat.min_r samples c) by lia.
  destruct (fill _ self _ (samples - c)) as [[t self1]|e] eqn:Hfill;
    cbn [and_then]; [|done].
  intros [= <- <-].
  apply EpochOutput_fill_buffer in Hfill as [Hbuf Hlen];
    [| unfold get_samples_ub; lia | lia].
  assert (length (cached (_buffer self)) = (x + c)%nat) as Hcached by lia.
  assert (length (cached (_buffer self1))
          = (capacity (_buffer self) `min` (x + c + (samples - c)))%nat)
    as Hcached1.
  { rewrite Hbuf. cbn. unfold lastn.
    rewrite length_drop, length_app. lia. }
  assert (samples_ub (_buffer self1)
          = samples_ub (_buffer self) + Z.of_nat (length t)) as Hub1
    by (by rewrite Hbuf).
  unfold get_samples_lb, get_samples_ub in Hlb, Hub.
  rewrite get_samples_fill, serve_cached_spec
    by (cbn; unfold get_samples_lb, get_samples_ub; lia).
  cbn [buffer_of BufferedOutput_buffered and_then]. cbv zeta.
  rewrite (Nat.min_l samples) by (unfold get_samples_ub; lia).
  rewrite Nat.sub_diag, fill_nothing. cbn [and_then]. rewrite app_nil_r.
  do 2 f_equal.
  replace (Z.to_nat (offset - get_samples_lb (_buffer self1)))
    with (length (cached (_buffer self1)) - samples)%nat
    by (unfold get_samples_lb; lia).
  rewrite take_ge by (rewrite length_drop; lia).
  change (drop (length (cached (_buffer self1)) - samples)
            (cached (_buffer self1)))
    with (lastn samples (cached (_buffer self1))).
  rewrite Hbuf. cbn [append_data cached].
  rewrite lastn_lastn by lia.
  replace samples with (c + length t)%nat at 1 by lia.
  rewrite lastn_app by lia. f_equal.
  unfold lastn. rewrite Hcached.
  replace (x + c - c)%nat with x by lia.
  symmetry. apply take_ge. rewrite length_drop. lia.
Qed.
End Replay.

Section Activation.
Context {A : Type} `{Sample A} {S : Type} `{WaveformSource A S}.
Context `{!SourceContract A S}.
Implicit Types (self : BufferedOutput A S).

(** X5.  With a source that honours the source contract,
    [activate(offset)] starts the source at [offset]: cached samples from
    [offset] on are dropped, and the pull that continues at the upper
    bound of the buffer returns zeros up to [offset] and from there the
    samples of the source, from its beginning. *)
Theorem activate_then_pull self offset samples src :
  source self = Some src →
  (0 < samples)%nat →
  let silence := Z.to_nat (offset - get_samples_ub (_buffer self)) in
  ∃ self',
    EpochOutput_get_samples (activate self offset)
        (Z.min (get_samples_ub (_buffer self)) offset) (silence + samples)
      = Returns (np_zeros silence ++ (next src samples).1, self') ∧
    get_samples_ub (_buffer (activate self offset))
      = Z.min (get_samples_ub (_buffer self)) offset.
Proof.
  intros Hsrc Hn silence.
  assert (get_samples_ub (_buffer (activate self offset))
          = Z.min (get_samples_ub (_buffer self)) offset) as Hub by done.
  pose proof (bounds_ordered (_buffer (activate self offset))) as Hord.
  unfold EpochOutput_get_samples.
  rewrite get_samples_fill.
  rewrite serve_cached_spec
    by (cbn [buffer_of BufferedOutput_buffered]; rewrite <- Hub; lia).
  cbn [buffer_of BufferedOutput_buffered and_then]. cbv zeta.
  rewrite Hub, Z.sub_diag. cbn [Z.to_nat].
  rewrite Nat.min_0_r, Nat.sub_0_r, Z.add_0_r, take_0.
  rewrite EpochOutput_fill_spec by (done || lia). cbv zeta.
  cbn [activate active source _offset].
  replace (Z.to_nat (offset - Z.min (get_samples_ub (_buffer self)) offset))
    with silence by lia.
  rewrite decide_False by lia.
  replace (silence + samples - silence)%nat with samples by lia.
  unfold EpochOutput_waveform. rewrite Hsrc.
  destruct (next src samples) as [w src']. cbn [fst and_then].
  destruct (is_complete src'); cbn [and_then];
    (eexists; split; [reflexivity | done]).
Qed.
End Activation.

Section Deactivation.
Context {A : Type} `{Sample A} {S : Type} `{WaveformSource A S}.
Implicit Types (self : BufferedOutput A S).

(** X6.  [deactivate(offset)] silences the output from [offset] on: the
    output is not ready any more, cached samples from [offset] on are
    dropped, and every sequence of pulls that continues at the upper
    bound of the buffer returns zeros only. *)
Theorem deactivate_then_silence self offset chunks :
  is_ready (deactivate self offset) = false ∧
  get_samples_ub (_buffer (deactivate self offset))
    = Z.min (get_samples_ub (_buffer self)) offset ∧
  ∃ self',
    get_samples_chunked EpochOutput_get_next_samples (deactivate self offset)
        (Z.min (get_samples_ub (_buffer self)) offset) chunks
      = Returns (np_zeros (sum_list chunks), self') ∧
    active self' = false.
Proof.
  split; [done|]. split; [done|].
  apply (EpochOutput_get_samples_chunked_inactive chunks
           (deactivate self offset)).
  done.
Qed.
End Deactivation.

(** An instance: five samples at offset 0 are pulled twice; the second
    pull returns them from the cache. *)
Lemma get_samples_replay_witness :
  ∃ self',
    EpochOutput_get_samples padded_epoch_with_3_left 0 5
      = Returns ([7; 8; 9; 0; 0], self') ∧
    EpochOutput_get_samples self' 0 5 = Returns ([7; 8; 9; 0; 0], self').
Proof.
  eexists. split; [reflexivity|].
  refine (get_samples_replay padded_epoch_with_3_left 0 5 _ _ _ _ eq_refl);
    unfold get_samples_lb; simpl; lia.
Defined.

(** An instance: the buffer caches the offsets 4 to 8; after activation
    at 6 the pull at 6 returns the first samples of the source, not the
    cached ones. *)
Lemma activate_then_pull_witness :
  ∃ self',
    EpochOutput_get_samples (activate output_with_evicted_start 6) 6 2
      = Returns ([11; 12], self').
Proof.
  destruct (activate_then_pull output_with_evicted_start 6 2 (mkRamp 10))
    as (self' & Hpull & _); [reflexivity | lia |].
  exists self'. exact Hpull.
Defined.

(** ** Pausing a queued output *)

Section InvalidateFacts.
Context {A : Type}.
Implicit Types (b : SignalBuffer A).

Lemma get_samples_lb_invalidate b offset :
  get_samples_lb b ≤ offset →
  get_samples_lb (invalidate_samples b offset) = get_samples_lb b.
Proof.
  intros Hlb. unfold get_samples_lb, invalidate_samples. cbn.
  rewrite length_take. unfold get_samples_lb in *. lia.
Qed.

Lemma cached_invalidate_range b offset (x n : nat) :
  get_samples_lb b + Z.of_nat x + Z.of_nat n
    ≤ Z.min (get_samples_ub b) offset →
  take n (drop x (cached (invalidate_samples b offset)))
    = take n (drop x (cached b)).
Proof.
  intros Hn. unfold invalidate_samples. cbn [cached].
  rewrite !take_drop_commute, take_take. do 2 f_equal.
  unfold get_samples_ub in Hn. lia.
Qed.
End InvalidateFacts.

Section PauseFacts.
Context {A : Type} `{Sample A} {Qu CB : Type} `{SignalQueue A Qu}.
Implicit Types (self : QueuedEpochOutput A Qu CB).

Lemma toggle_pause_Returns self engine self' engine' :
  toggle_pause self (Some engine) = Returns (self', engine') →
  let cut :=
    py_int (float_mul (float_add (float_add (get_ts engine) 1) 1)
              (fs self)) in
  buffered self' =
    set_buffer (invalidate_samples (_buffer (buffered self)) cut)
      (buffered self) ∧
  paused self' = negb (paused self) ∧
  complete self' = complete self ∧
  complete_cb self' = complete_cb self ∧
  engine' = update_hw_ao engine (channel_name self) cut.
Proof.
  unfold toggle_pause, pause, resume.
  destruct (paused self) eqn:Hp; cbn [set_paused set_buffered queue];
    destruct (queue self) as [q|]; cbn [and_then]; intros [= <- <-];
    done.
Qed.


(** X8.  Two calls of [toggle_pause] on a running output pause it and
    resume it: the queue is paused at the first clock reading plus one
    second and resumed at the second plus one, the output is not paused
    afterwards, and [active], [source], the activation offset and the
    completion event are as before; the buffer ends at the lowest of its
    end and the two cuts. *)
Theorem toggle_pause_twice self (e1 e2 : Engine) q :
  queue self = Some q →
  paused self = false →
  let cut1 :=
    py_int (float_mul (float_add (float_add (get_ts e1) 1) 1) (fs self)) in
  let cut2 :=
    py_int (float_mul (float_add (float_add (get_ts e2) 1) 1) (fs self)) in
  ∃ self1 self2,
    toggle_pause self (Some e1)
      = Returns (self1, update_hw_ao e1 (channel_name self) cut1) ∧
    toggle_pause self1 (Some e2)
      = Returns (self2, update_hw_ao e2 (channel_name self) cut2) ∧
    paused self1 = true ∧
    paused self2 = false ∧
    queue self2
      = Some (queue_resume (queue_pause q (float_add (get_ts e1) 1))
                (float_add (get_ts e2) 1)) ∧
    active (buffered self2) = active (buffered self) ∧
    source (buffered self2) = source (buffered self) ∧
    _offset (buffered self2) = _offset (buffered self) ∧
    complete self2 = complete self ∧
    get_samples_ub (_buffer (buffered self2))
      = Z.min (Z.min (get_samples_ub (_buffer (buffered self))) cut1) cut2.
Proof.
  intros Hq Hp cut1 cut2. unfold toggle_pause at 1. rewrite Hp.
  unfold pause. cbn [set_paused queue]. rewrite Hq. cbn [and_then].
  eexists. unfold toggle_pause.
  cbn [set_buffered set_queue set_paused paused]. unfold resume.
  cbn [set_buffered set_queue set_paused queue and_then].
  eexists. split; [reflexivity|]. split; [reflexivity|].
  by repeat split.
Qed.

End PauseFacts.


(** An instance: paused with the clock at 0 and resumed with the clock at
    3 seconds. *)
Lemma toggle_pause_twice_witness :
  ∃ self1 self2 engine1 engine2,
    toggle_pause (queued_with_2_left None) (Some engine_at_0)
      = Returns (self1, engine1) ∧
    toggle_pause self1 (Some (mkEngine 3 (hw_ao_updates engine1)))
      = Returns (self2, engine2) ∧
    hw_ao_updates engine2 = [("ao0", 4); ("ao0", 10)] ∧
    queue self2 = Some (mkTapeQueue [5; 6] [1%Q] [4%Q]) ∧
    paused self2 = false.
Proof.
  destruct (toggle_pause_twice (queued_with_2_left None) engine_at_0
              (mkEngine 3 [("ao0", 4)]) (mkTapeQueue [5; 6] [] [])
              eq_refl eq_refl)
    as (self1 & self2 & H1 & H2 & _ & Hp & Hq & _).
  exists self1, self2. eexists _, _.
  split; [exact H1|]. split; [exact H2|].
  split; [reflexivity|]. split; [|exact Hp].
  rewrite Hq. reflexivity.
Defined.

(** ** Continuous outputs *)

Section ContinuousFacts.
Context {A : Type} `{Sample A} {S : Type} `{WaveformSource A S}.
Implicit Types (self : BufferedOutput A S).

Lemma ContinuousOutput_get_next_samples_keeps self samples w self' :
  ContinuousOutput_get_next_samples self samples = Returns (w, self') →
  active self' = active self ∧
  _offset self' = _offset self ∧
  is_ready self' = is_ready self ∧
  _buffer self' = _buffer self.
Proof.
  unfold ContinuousOutput_get_next_samples, is_ready.
  destruct (active self) eqn:Ha.
  - destruct (source self) as [src|] eqn:Hs; [|done].
    destruct (next src samples) as [w' src'].
    intros [= _ <-]. cbn. by rewrite Ha.
  - by intros [= _ <-].
Qed.

(** X10.  A continuous output never switches itself off: whatever a pull
    returns, [active], the activation offset and the capacity of the
    buffer are as before, and an output that was ready is still ready.
    (An epoch output deactivates itself when its source is complete.) *)
Theorem ContinuousOutput_stays_active self offset samples out self' :
  get_samples ContinuousOutput_get_next_samples self offset samples
    = Returns (out, self') →
  active self' = active self ∧
  _offset self' = _offset self ∧
  is_ready self' = is_ready self ∧
  capacity (_buffer self') = capacity (_buffer self).
Proof.
  rewrite get_samples_fill.
  destruct (serve_cached self offset samples) as [[[c n] o]|e];
    cbn [and_then]; [|done].
  unfold fill.
  assert (∀ self1 : BufferedOutput A S,
            (active self1 = active self ∧ _offset self1 = _offset self ∧
             is_ready self1 = is_ready self ∧
             capacity (_buffer self1) = capacity (_buffer self)) →
            ∀ m out1 self2,
              generate ContinuousOutput_get_next_samples self1 m
                = Returns (out1, self2) →
              active self2 = active self ∧ _offset self2 = _offset self ∧
              is_ready self2 = is_ready self ∧
              capacity (_buffer self2) = capacity (_buffer self)) as Hgen.
  { intros self1 (Ha & Ho & Hr & Hc) m out1 self2. unfold generate.
    case_bool_decide; [|by intros [= _ <-]].
    destruct (ContinuousOutput_get_next_samples self1 m)
      as [[w self3]|e] eqn:Hnext; cbn [and_then]; [|done].
    apply ContinuousOutput_get_next_samples_keeps in Hnext
      as (Ha3 & Ho3 & Hr3 & Hb3).
    destruct (np_assign m w); cbn [and_then]; [|done].
    intros [= _ <-]. cbn. unfold is_ready in *. cbn.
    rewrite Hb3. by rewrite <- Ha, <- Ho, <- Hr, <- Hc. }
  unfold pad_before_activation. case_bool_decide.
  - destruct (generate _ _ _) as [[w self2]|e] eqn:Hg; cbn [and_then];
      [|done].
    intros [= _ <-]. by eapply Hgen; [|exact Hg].
  - destruct (generate _ _ _) as [[w self2]|e] eqn:Hg; cbn [and_then];
      [|done].
    intros [= _ <-]. by eapply Hgen; [|exact Hg].
Qed.

Context `{!SourceContract A S}.

Lemma ContinuousOutput_get_samples_active self samples src :
  active self = true →
  source self = Some src →
  _offset self ≤ get_samples_ub (_buffer self) →
  (0 < samples)%nat →
  get_samples ContinuousOutput_get_next_samples self
      (get_samples_ub (_buffer self)) samples
    = Returns ((next src samples).1,
               {| active := true;
                  source := Some (next src samples).2;
                  _buffer := append_data (_buffer self) (next src samples).1;
                  _offset := _offset self |}).
Proof.
  intros Ha Hs Ho Hn. destruct self as [act s buf off].
  cbn in Ha, Hs, Ho. subst act s.
  unfold get_samples, serve_cached.
  cbn [buffer_of offset_of set_buffer BufferedOutput_buffered
       active source _buffer _offset].
  rewrite bool_decide_eq_false_2 by lia.
  rewrite bool_decide_eq_true_2 by done. cbn [and_then].
  unfold pad_before_activation.
  cbn [buffer_of offset_of set_buffer BufferedOutput_buffered
       active source _buffer _offset].
  rewrite bool_decide_eq_false_2 by lia.
  unfold generate. rewrite bool_decide_eq_true_2 by lia.
  unfold ContinuousOutput_get_next_samples. cbn [active source].
  pose proof (next_length src samples) as Hlen.
  destruct (next src samples) as [w src']. cbn [fst snd] in *.
  cbn [and_then set_source]. rewrite np_assign_exact by done.
  cbn [and_then]. done.
Qed.

(** X11.  The samples of an active continuous output do not depend on how
    they are pulled: pulls that follow one another from the upper bound
    of the buffer, past the activation offset, return together what one
    call of [source.next] for their total returns. *)
Theorem ContinuousOutput_chunking chunks : ∀ self src,
  active self = true →
  source self = Some src →
  _offset self ≤ get_samples_ub (_buffer self) →
  ∃ self',
    get_samples_chunked ContinuousOutput_get_next_samples self
        (get_samples_ub (_buffer self)) chunks
      = Returns ((next src (sum_list chunks)).1, self') ∧
    active self' = true ∧
    get_samples_ub (_buffer self')
      = get_samples_ub (_buffer self) + Z.of_nat (sum_list chunks).
Proof.
  induction chunks as [|n chunks IH]; intros self src Ha Hs Ho.
  - exists self. cbn [get_samples_chunked sum_list foldr].
    pose proof (next_length src 0) as Hlen.
    destruct (next src 0) as [w src']. cbn [fst] in *.
    apply nil_length_inv in Hlen as ->.
    split; [done|]. split; [done|]. lia.
  - cbn [get_samples_chunked].
    destruct (decide (n = 0%nat)) as [->|Hn].
    + destruct (IH self src Ha Hs Ho) as (self' & Hrest & Ha' & Hub').
      assert (get_samples ContinuousOutput_get_next_samples self
                (get_samples_ub (_buffer self)) 0 = Returns ([], self))
        as ->.
      { rewrite get_samples_fill, serve_cached_spec
          by (pose proof (bounds_ordered (_buffer self)); cbn; lia).
        cbv zeta. cbn [and_then]. rewrite Nat.min_0_l, take_0.
        unfold fill, pad_before_activation, generate.
        rewrite !bool_decide_eq_false_2 by lia. done. }
      cbn [and_then]. rewrite Z.add_0_r, Hrest. cbn [and_then].
      exists self'. split; [done|]. split; [done|].
      by rewrite Hub'.
    + rewrite (ContinuousOutput_get_samples_active self n src)
        by (done || lia).
      cbn [and_then].
      set (self1 := {| active := true;
                       source := Some (next src n).2;
                       _buffer := append_data (_buffer self) (next src n).1;
                       _offset := _offset self |}).
      assert (get_samples_ub (_buffer self1)
              = get_samples_ub (_buffer self) + Z.of_nat n) as Hub1.
      { unfold get_samples_ub. cbn. by rewrite next_length. }
      destruct (IH self1 (next src n).2) as (self' & Hrest & Ha' & Hub');
        [done | done | cbn [_offset self1]; lia |].
      rewrite <- Hub1, Hrest. cbn [and_then].
      exists self'. split; [|split; [done|]].
      * change (sum_list (n :: chunks)) with (n + sum_list chunks)%nat.
        by rewrite next_add.
      * rewrite Hub', Hub1.
        change (sum_list (n :: chunks)) with (n + sum_list chunks)%nat.
        lia.
Qed.
End ContinuousFacts.

(** An instance: four samples from offset 6 of a buffer that ends at 8;
    two come from the cache and two from the source, and the output is
    active afterwards. *)
Lemma ContinuousOutput_stays_active_witness :
  ∃ self',
    get_samples ContinuousOutput_get_next_samples
        output_with_evicted_start 6 4
      = Returns ([3; 4; 11; 12], self') ∧
    active self' = true ∧ is_ready self' = true.
Proof.
  assert (∃ self',
            get_samples ContinuousOutput_get_next_samples
                output_with_evicted_start 6 4
              = Returns ([3; 4; 11; 12], self')) as [self' Hpull]
    by (eexists; vm_compute; reflexivity).
  exists self'. split; [exact Hpull|].
  destruct (ContinuousOutput_stays_active output_with_evicted_start 6 4
              [3; 4; 11; 12] self' Hpull) as (Ha & _ & Hr & _).
  split; [exact Ha | exact Hr].
Defined.

(** An instance: pulls of two, no and three samples from offset 8. *)
Lemma ContinuousOutput_chunking_witness :
  ∃ self',
    get_samples_chunked ContinuousOutput_get_next_samples
        output_with_evicted_start 8 [2; 0; 3]%nat
      = Returns ([11; 12; 13; 14; 15], self').
Proof.
  destruct (ContinuousOutput_chunking [2; 0; 3]%nat
              output_with_evicted_start (mkRamp 10) eq_refl eq_refl
              ltac:(vm_compute; discriminate))
    as (self' & Hpull & _).
  exists self'. exact Hpull.
Defined.

(** ** The errors of a pull *)

Section ServeCachedErrors.
Context {A : Type} `{Sample A} {T : Type} `{Buffered A T}.

Lemma serve_cached_Raises (self : T) offset samples e :
  serve_cached self offset samples = Raises e →
  e = SystemError ∧ get_samples_ub (buffer_of self) < offset.
Proof.
  pose proof (bounds_ordered (buffer_of self)) as Hord.
  destruct (decide (get_samples_ub (buffer_of self) < offset)) as [Hgap|Hub].
  { unfold serve_cached. rewrite bool_decide_eq_true_2 by lia.
    by intros [= <-]. }
  destruct (decide (get_samples_lb (buffer_of self) ≤ offset)) as [Hlb|Hlb].
  { by rewrite serve_cached_spec by lia. }
  unfold serve_cached. by rewrite !bool_decide_eq_false_2 by lia.
Qed.
End ServeCachedErrors.

Section EpochErrors.
Context {A : Type} `{Sample A} {S : Type} `{WaveformSource A S}.
Context `{!SourceContract A S}.
Implicit Types (self : BufferedOutput A S).

Lemma EpochOutput_get_next_samples_cases self samples :
  (0 < samples)%nat →
  (∃ w self',
     EpochOutput_get_next_samples self samples = Returns (w, self') ∧
     length w = samples) ∨
  (EpochOutput_get_next_samples self samples = Raises AttributeError ∧
   active self = true ∧ source self = None).
Proof.
  intros Hn. unfold EpochOutput_get_next_samples.
  destruct (active self) eqn:Ha;
    [|left; eexists _, _; split; [done | apply length_np_zeros]].
  cbv zeta.
  set (zp := Z.to_nat _). assert (zp ≤ samples)%nat as Hzp by lia.
  clearbody zp.
  destruct (source self) as [src|] eqn:Hs.
  - left. pose proof (next_length src (samples - zp)) as Hlen.
    destruct (next src (samples - zp)) as [w src']. cbn [fst] in Hlen.
    do 2 case_decide; cbn [and_then set_source source]; rewrite ?Hs;
      try lia; destruct (is_complete _); cbn [and_then];
      (eexists _, _; split; [done|]);
      cbn; rewrite ?length_app, ?length_np_zeros; cbn; lia.
  - right. split; [|done].
    case_decide; cbn [and_then]; by rewrite ?Hs.
Qed.

(** X12.  With a source that honours the source contract, a pull of an
    epoch output fails in two ways only: with a [SystemError] when it
    starts beyond the upper bound of the buffer, and with an
    [AttributeError] when the output is active and has no source; the
    numpy operations of the pull never fail. *)
Theorem EpochOutput_get_samples_errors self offset samples e :
  EpochOutput_get_samples self offset samples = Raises e →
  (e = SystemError ∧ get_samples_ub (_buffer self) < offset) ∨
  (e = AttributeError ∧ active self = true ∧ source self = None ∧
   offset ≤ get_samples_ub (_buffer self)).
Proof.
  unfold EpochOutput_get_samples. rewrite get_samples_fill. intros Hr.
  apply and_then_Raises in Hr as [Hr|([[c n] o] & Hserve & Hr)].
  { left. by apply serve_cached_Raises in Hr. }
  right.
  assert (offset ≤ get_samples_ub (_buffer self)) as Hub.
  { destruct (decide (offset ≤ get_samples_ub (_buffer self))); [done|].
    unfold serve_cached in Hserve.
    by rewrite bool_decide_eq_true_2 in Hserve by (cbn; lia). }
  assert (∀ self1 m,
            active self1 = active self → source self1 = source self →
            generate EpochOutput_get_next_samples self1 m = Raises e →
            e = AttributeError ∧ active self = true ∧ source self = None)
    as Hgen.
  { intros self1 m Ha Hs. unfold generate.
    case_bool_decide as Hm; [|done].
    destruct (EpochOutput_get_next_samples_cases self1 m)
      as [(w & self2 & -> & Hlen)|(-> & Ha1 & Hs1)]; [lia| |].
    - cbn [and_then]. by rewrite np_assign_exact.
    - cbn [and_then]. intros [= <-]. by rewrite <- Ha, <- Hs. }
  unfold fill, pad_before_activation in Hr.
  case_bool_decide.
  - do 2 apply and_then_Raises in Hr as [Hr|([? ?] & _ & [=])].
    apply Hgen in Hr as (-> & Ha & Hs); done.
  - do 2 apply and_then_Raises in Hr as [Hr|([? ?] & _ & [=])].
    apply Hgen in Hr as (-> & Ha & Hs); done.
Qed.

(** X13.  An output that is activated without a source fails on its
    first pull past the activation offset, with an [AttributeError];
    until then it plays the silence before the activation. *)
Theorem activate_without_source self offset samples :
  source self = None →
  (0 < samples)%nat →
  let start := Z.min (get_samples_ub (_buffer self)) offset in
  let silence := Z.to_nat (offset - get_samples_ub (_buffer self)) in
  is_ready (activate self offset) = false ∧
  (∃ self',
     EpochOutput_get_samples (activate self offset) start silence
       = Returns (np_zeros silence, self')) ∧
  EpochOutput_get_samples (activate self offset) start (silence + samples)
    = Raises AttributeError.
Proof.
  intros Hs Hn start silence.
  assert (get_samples_ub (_buffer (activate self offset)) = start) as Hub
    by done.
  pose proof (bounds_ordered (_buffer (activate self offset))) as Hord.
  split; [unfold is_ready; cbn; rewrite bool_decide_eq_false_2; naive_solver|].
  unfold EpochOutput_get_samples. split.
  - rewrite get_samples_fill.
    rewrite serve_cached_spec
      by (cbn [buffer_of BufferedOutput_buffered]; lia).
    cbn [buffer_of BufferedOutput_buffered and_then]. cbv zeta.
    rewrite Hub, Z.sub_diag. cbn [Z.to_nat].
    rewrite Nat.min_0_r, Nat.sub_0_r, Z.add_0_r, take_0.
    destruct (decide (silence = 0%nat)) as [->|Hsil].
    + rewrite fill_nothing. cbn [and_then]. by eexists.
    + rewrite EpochOutput_fill_spec by (done || lia). cbv zeta.
      cbn [activate _offset].
      rewrite decide_True by (subst start silence; lia).
      cbn [and_then]. by eexists.
  - rewrite get_samples_fill.
    rewrite serve_cached_spec
      by (cbn [buffer_of BufferedOutput_buffered]; lia).
    cbn [buffer_of BufferedOutput_buffered and_then]. cbv zeta.
    rewrite Hub, Z.sub_diag. cbn [Z.to_nat].
    rewrite Nat.min_0_r, Nat.sub_0_r, Z.add_0_r, take_0.
    rewrite EpochOutput_fill_spec by (done || lia). cbv zeta.
    cbn [activate _offset active source].
    rewrite decide_False by (subst start silence; lia).
    unfold EpochOutput_waveform. rewrite Hs. done.
Qed.
End EpochErrors.

(** An instance: a pull at offset 5 of a buffer that ends at 0 fails with
    a [SystemError], so it starts beyond the buffer. *)
Lemma EpochOutput_get_samples_errors_witness :
  EpochOutput_get_samples padded_epoch_with_3_left 5 2 = Raises SystemError ∧
  get_samples_ub (_buffer padded_epoch_with_3_left) < 5.
Proof.
  assert (EpochOutput_get_samples padded_epoch_with_3_left 5 2
          = Raises SystemError) as Hpull by reflexivity.
  split; [exact Hpull|].
  destruct (EpochOutput_get_samples_errors padded_epoch_with_3_left 5 2
              SystemError Hpull) as [[_ Hgap]|[Himpossible _]].
  - exact Hgap.
  - discriminate Himpossible.
Defined.

(** An instance: an output is deactivated at 0 and activated again at 2
    without a new source; two samples of silence can be pulled, a third
    sample cannot. *)
Lemma activate_without_source_witness :
  let self := activate (deactivate padded_epoch_with_3_left 0) 2 in
  (∃ self', EpochOutput_get_samples self 0 2 = Returns ([0; 0], self')) ∧
  EpochOutput_get_samples self 0 3 = Raises AttributeError.
Proof.
  destruct (activate_without_source (deactivate padded_epoch_with_3_left 0)
              2 1 eq_refl ltac:(lia)) as (_ & Hsilence & Hfail).
  split; [exact Hsilence | exact Hfail].
Defined.

(** ** Point calibrations: which point a lookup returns *)

Lemma first_equal_Some xs f i :
  first_equal xs f = Some i ↔
  (∃ x, xs !! i = Some x ∧ (x == f)%Q) ∧
  (∀ j y, (j < i)%nat → xs !! j = Some y → ¬ (y == f)%Q).
Proof.
  revert i. induction xs as [|x xs IH]; intros i; cbn [first_equal].
  - split; [done|]. by intros [(x & [=] & _) _].
  - destruct (Qeq_bool x f) eqn:Hx.
    + apply Qeq_bool_iff in Hx. split.
      * intros [= <-]. split; [by exists x|]. intros j y Hj. lia.
      * intros [_ Hfirst]. destruct i as [|i]; [done|].
        by destruct (Hfirst 0%nat x ltac:(lia) eq_refl).
    + assert (¬ (x == f)%Q) as Hne
        by (intros Heq%Qeq_bool_iff; congruence).
      destruct i as [|i].
      * split.
        -- destruct (first_equal xs f); discriminate.
        -- intros [(y & [= <-] & Hy) _]. done.
      * rewrite fmap_Some. split.
        -- intros (i' & Hi' & [= <-]). apply IH in Hi' as [Hat Hfirst].
           split; [done|]. intros [|j] y Hj; cbn.
           ++ by intros [= <-].
           ++ apply Hfirst. lia.
        -- intros [Hat Hfirst]. exists i. split; [|done].
           apply IH. split; [done|]. intros j y Hj Hy.
           apply (Hfirst (Datatypes.S j) y); [lia | done].
Qed.

Lemma for_each_Returns {X Y} (f : X → result Y) xs ys :
  for_each f xs = Returns ys ↔ Forall2 (λ x y, f x = Returns y) xs ys.
Proof.
  revert ys. induction xs as [|x xs IH]; intros ys; cbn [for_each].
  - split; [intros [= <-]; constructor | by intros ->%Forall2_nil_inv_l].
  - destruct (f x) as [y|e] eqn:Hx; cbn [and_then].
    + destruct (for_each f xs) as [ys'|e] eqn:Hxs; cbn [and_then].
      * split.
        -- intros [= <-]. constructor; [done | by apply IH].
        -- intros (y' & ys'' & Hy' & Hys'' & ->)%Forall2_cons_inv_l.
           apply IH in Hys'' as [= <-]. congruence.
      * split; [done|].
        intros (y' & ys'' & _ & Hys'' & _)%Forall2_cons_inv_l.
        by apply IH in Hys''.
    + split; [done|].
      intros (y' & ys'' & Hy' & _)%Forall2_cons_inv_l. congruence.
Qed.

Lemma for_each_Raises {X Y} (f : X → result Y) xs e :
  for_each f xs = Raises e → ∃ x, x ∈ xs ∧ f x = Raises e.
Proof.
  induction xs as [|x xs IH]; cbn [for_each]; [done|].
  destruct (f x) as [y|e'] eqn:Hx; cbn [and_then].
  - destruct (for_each f xs) as [ys|e'] eqn:Hxs; cbn [and_then]; [done|].
    intros [= ->]. destruct IH as (x' & Hin & Hx'); [done|].
    exists x'. split; [by right | done].
  - intros [= ->]. exists x. split; [by left | done].
Qed.

Lemma for_each_fails {X Y} (f : X → result Y) xs x e :
  x ∈ xs → f x = Raises e → ∃ e', for_each f xs = Raises e'.
Proof.
  induction xs as [|x' xs IH]; [by intros ?%elem_of_nil|].
  intros [->|Hin]%elem_of_cons Hx; cbn [for_each].
  - rewrite Hx. by eexists.
  - destruct (f x') as [y|e']; cbn [and_then]; [|by eexists].
    destruct (IH Hin Hx) as [e' ->]. by eexists.
Qed.

Lemma PointCalibration__get_sens_Raises cal f e :
  (length (point_frequency cal) ≤ length (point_sensitivity cal))%nat →
  PointCalibration__get_sens cal f = Raises e → e = CalibrationError.
Proof.
  intros Hlen. unfold PointCalibration__get_sens.
  destruct (first_equal (point_frequency cal) f) as [i|] eqn:Hi;
    [|by intros [= <-]].
  apply first_equal_Some in Hi as [(x & Hx & _) _].
  apply lookup_lt_Some in Hx.
  destruct (point_sensitivity cal !! i) as [s|] eqn:Hs; [done|].
  apply lookup_ge_None in Hs. lia.
Qed.

(** X14.  The lookup of a point calibration returns the sensitivity
    stored at the index of the first calibrated frequency that equals the
    argument, minus the fixed gain; when a frequency was given more than
    once, the later entries are never returned.  When [sensitivity] has
    no entry at this index (the constructor accepts arrays of different
    lengths) the lookup fails with an [IndexError], not with the
    calibration error. *)
Theorem PointCalibration_first_occurrence cal (i : nat) x f :
  point_frequency cal !! i = Some x →
  (x == f)%Q →
  (∀ (j : nat) y,
     (j < i)%nat → point_frequency cal !! j = Some y → ¬ (y == f)%Q) →
  PointCalibration_get_sens cal (Scalar f) =
    match point_sensitivity cal !! i with
    | Some s => Returns (Scalar (s - point_fixed_gain cal)%Q)
    | None => Raises IndexError
    end.
Proof.
  intros Hx Hxf Hfirst.
  unfold PointCalibration_get_sens, PointCalibration__get_sens.
  assert (first_equal (point_frequency cal) f = Some i) as ->
    by (apply first_equal_Some; eauto).
  by destruct (point_sensitivity cal !! i).
Qed.

(** X15.  The lookup of an array of frequencies is all or nothing: it
    returns one sensitivity for each frequency, in order, each the result
    of the scalar lookup, and when one of the frequencies is not
    calibrated the whole lookup fails with the calibration error, which
    is the only error it raises when every calibrated frequency has a
    sensitivity. *)
Theorem PointCalibration_get_sens_iterable cal fs :
  (length (point_frequency cal) ≤ length (point_sensitivity cal))%nat →
  (PointCalibration_get_sens cal (Iterable fs) = Raises CalibrationError ↔
     ∃ f, f ∈ fs ∧ ∀ x, x ∈ point_frequency cal → ¬ (x == f)%Q) ∧
  (∀ e, PointCalibration_get_sens cal (Iterable fs) = Raises e →
        e = CalibrationError) ∧
  (∀ r, PointCalibration_get_sens cal (Iterable fs) = Returns r →
        ∃ ys, r = Iterable ys ∧
              Forall2 (λ f y, PointCalibration_get_sens cal (Scalar f)
                                = Returns (Scalar y)) fs ys).
Proof.
  intros Hlen. unfold PointCalibration_get_sens.
  assert (∀ e, for_each (PointCalibration__get_sens cal) fs = Raises e →
               e = CalibrationError) as Honly.
  { intros e (f & _ & Hf)%for_each_Raises.
    by eapply PointCalibration__get_sens_Raises. }
  split; [|split].
  - split.
    + intros Hr.
      apply and_then_Raises in Hr as [Hr|(? & _ & [=])].
      apply for_each_Raises in Hr as (f & Hin & Hf).
      exists f. split; [done|].
      by apply PointCalibration__get_sens_CalibrationError.
    + intros (f & Hin & Hf).
      apply PointCalibration__get_sens_CalibrationError in Hf.
      destruct (for_each_fails _ _ _ _ Hin Hf) as [e He].
      rewrite He. cbn [and_then]. by rewrite (Honly e He).
  - intros e Hr.
    apply and_then_Raises in Hr as [Hr|(? & _ & [=])]. by apply Honly.
  - intros r.
    destruct (for_each (PointCalibration__get_sens cal) fs)
      as [ys|e] eqn:Hys; cbn [and_then]; [|done].
    intros [= <-]. exists ys. split; [done|].
    apply for_each_Returns in Hys.
    eapply Forall2_impl; [exact Hys|].
    intros f y Hf. cbn beta. by rewrite Hf.
Qed.

(** An instance: 1 Hz was calibrated twice; the lookup returns the first
    sensitivity. *)
Lemma PointCalibration_first_occurrence_witness :
  PointCalibration_get_sens
      (mkPointCalibration [2; 1; 1]%Q [20; 10; 30]%Q 3) (Scalar 1%Q)
    = Returns (Scalar (10 - 3)%Q).
Proof.
  apply (PointCalibration_first_occurrence
           (mkPointCalibration [2; 1; 1]%Q [20; 10; 30]%Q 3) 1 1%Q 1%Q).
  - reflexivity.
  - reflexivity.
  - intros [|j] y Hj; [|lia]. intros [= <-]. discriminate.
Defined.

(** An instance: of 1 Hz and 3 Hz only the first was calibrated. *)
Lemma PointCalibration_get_sens_iterable_witness :
  PointCalibration_get_sens two_point_exact (Iterable [1; 3]%Q)
    = Raises CalibrationError.
Proof.
  destruct (PointCalibration_get_sens_iterable two_point_exact [1; 3]%Q)
    as (Hfail & _); [simpl; lia|].
  apply Hfail. exists 3%Q. split; [right; left|].
  intros x Hx.
  repeat (apply elem_of_cons in Hx as [->|Hx]; [discriminate|]).
  by apply elem_of_nil in Hx.
Defined.

(** * The controller plugin *)

(** ** Trees of inputs and outputs *)

Lemma Declarative_tree_ind (P : Declarative → Prop) :
  (∀ n cs, Forall P cs → P (mkDeclarative n cs)) → ∀ d, P d.
Proof.
  intros Hnode. fix IH 1. intros [n cs]. apply Hnode.
  induction cs as [|c cs IHcs]; constructor; [apply IH | exact IHcs].
Qed.

Lemma get_outputs_unfold d :
  get_outputs d = (children d ≫= get_outputs) ++ [d].
Proof.
  by destruct d as [n cs].
Qed.

Lemma tree_size_unfold d :
  tree_size d = Datatypes.S (sum_list (tree_size <$> children d)).
Proof.
  destruct d as [n cs]. cbn [tree_size children].
  f_equal; induction cs as [|c cs IH]; [done|]; cbn; by rewrite IH.
Qed.


(** ** Discovery of the engines *)

Lemma for_loop_app {St X} (body : St → X → result St) st xs ys :
  for_loop body st (xs ++ ys) =
    let* st := for_loop body st xs in for_loop body st ys.
Proof.
  revert st. induction xs as [|x xs IH]; intros st; [done|].
  cbn [for_loop app]. destruct (body st x) as [st'|e]; cbn [and_then];
    [apply IH | done].
Qed.

Lemma for_loop_bind {St X Y} (body : St → Y → result St) (f : X → list Y)
    st xs :
  for_loop (λ st x, for_loop body st (f x)) st xs =
    for_loop body st (xs ≫= f).
Proof.
  revert st. induction xs as [|x xs IH]; intros st; [done|].
  cbn [for_loop]. change ((x :: xs) ≫= f) with (f x ++ (xs ≫= f)).
  rewrite for_loop_app.
  destruct (for_loop body st (f x)) as [st'|e]; cbn [and_then];
    [apply IH | done].
Qed.

(** What the loops of [find_engines] come to: they succeed when the
    names are new and at most one engine claims the clock, and fail with
    a [ValueError] otherwise. *)
Lemma find_engines_loop es :
  ∀ (engines : list (string * EngineItem)) (master : option EngineItem),
  let masters := filter (λ e, master_clock e = true) es in
  let ok :=
    NoDup (engines.*1 ++ (engine_name <$> es)) ∧
    (length masters
     + match master with Some _ => 1 | None => 0 end ≤ 1)%nat in
  NoDup engines.*1 →
  (ok ∧
   for_loop find_engines_body (engines, master) es
     = Returns (engines ++ ((λ e, (engine_name e, e)) <$> es),
                match master with
                | Some m => Some m
                | None => head masters
                end)) ∨
  (¬ ok ∧
   for_loop find_engines_body (engines, master) es = Raises ValueError).
Proof.
  induction es as [|e es IH]; intros engines master masters ok Hnd.
  { subst masters ok. cbn. rewrite !app_nil_r.
    destruct master; [|left; split; [split; [done | lia] | done]].
    left. split; [split; [done | lia] | done]. }
  subst masters ok. cbn [for_loop find_engines_body fmap list_fmap].
  case_bool_decide as Hin.
  { right. split; [|done]. intros [Hnd' _].
    apply NoDup_app in Hnd' as (_ & Hdisj & _).
    apply (Hdisj _ Hin). by left. }
  assert (NoDup (engines ++ [(engine_name e, e)]).*1) as Hnd1.
  { rewrite fmap_app. apply NoDup_app. split; [done|].
    split; [|apply NoDup_singleton].
    intros n Hn ->%list_elem_of_singleton. done. }
  assert (NoDup (engines.*1 ++ engine_name e :: (engine_name <$> es)) ↔
          NoDup ((engines ++ [(engine_name e, e)]).*1
                 ++ (engine_name <$> es))) as Hassoc.
  { rewrite fmap_app. cbn. by rewrite <- app_assoc. }
  destruct (master_clock e) eqn:Hm.
  - rewrite filter_cons_True by done.
    destruct master as [m|]; cbn [and_then].
    { right. split; [|done]. intros [_ Hlen]. cbn in Hlen. lia. }
    destruct (IH (engines ++ [(engine_name e, e)]) (Some e) Hnd1)
      as [[[Hnd2 Hlen] ->]|[Hnot ->]].
    + left. split; [split|].
      * by apply Hassoc.
      * cbn in *. lia.
      * cbn. by rewrite <- app_assoc.
    + right. split; [|done]. intros [Hnd2 Hlen]. apply Hnot. split.
      * by apply Hassoc.
      * cbn in *. lia.
  - rewrite filter_cons_False by (by rewrite Hm).
    cbn [and_then].
    destruct (IH (engines ++ [(engine_name e, e)]) master Hnd1)
      as [[[Hnd2 Hlen] ->]|[Hnot ->]].
    + left. split; [split|].
      * by apply Hassoc.
      * done.
      * cbn. by rewrite <- app_assoc.
    + right. split; [|done]. intros [Hnd2 Hlen]. apply Hnot. split.
      * by apply Hassoc.
      * done.
Qed.

Lemma find_engines_spec point :
  let es := point ≫= ext_engines in
  let masters := filter (λ e, master_clock e = true) es in
  let engines := (λ e, (engine_name e, e)) <$> es in
  find_engines point =
    if decide (NoDup (engine_name <$> es)) then
      match masters, es with
      | [m], _ => Returns (engines, m)
      | [], [candidate] => Returns (engines, candidate)
      | _, _ => Raises ValueError
      end
    else Raises ValueError.
Proof.
  intros es masters engines. unfold find_engines.
  rewrite (for_loop_bind find_engines_body ext_engines). fold es.
  assert (engines.*2 = es) as Hvalues.
  { subst engines. rewrite <- list_fmap_compose. apply list_fmap_id. }
  destruct (find_engines_loop es [] None) as [[[Hnd Hlen] ->]|[Hnot ->]];
    [constructor | |].
  - cbn in Hnd, Hlen. rewrite decide_True by done.
    cbn [and_then app]. fold masters engines in Hlen |- *.
    rewrite Hvalues.
    destruct masters as [|m [|m' rest]]; cbn in *; [|done|lia].
    by destruct es as [|candidate [|e es']].
  - cbn [and_then]. cbn in Hnot. fold masters in Hnot.
    case_decide as Hnd; [|done].
    destruct masters as [|m [|m' rest]] eqn:Hmasters;
      [| |done].
    + exfalso. apply Hnot. split; [done | cbn; lia].
    + exfalso. apply Hnot. split; [done | cbn; lia].
Qed.

(** X17.  What [find_engines] returns: the dict holds every engine of
    every extension under its name, in the order of declaration, and the
    names are distinct; the master is one of these engines; it is the
    only engine that sets [master_clock], or, when none does, the only
    engine there is. *)
Theorem find_engines_master point engines master :
  find_engines point = Returns (engines, master) →
  let es := point ≫= ext_engines in
  engines = (λ e, (engine_name e, e)) <$> es ∧
  NoDup (engine_name <$> es) ∧
  master ∈ es ∧
  (∀ e, e ∈ es → master_clock e = true → e = master) ∧
  (master_clock master = false → es = [master]).
Proof.
  rewrite find_engines_spec. cbv zeta.
  set (es := point ≫= ext_engines).
  case_decide as Hnd; [|done].
  destruct (filter (λ e, master_clock e = true) es)
    as [|m [|m' masters]] eqn:Hmasters; [| |done].
  - destruct es as [|candidate [|e es']] eqn:Hes; [done| |done].
    intros [= <- <-]. split; [done|]. split; [done|].
    split; [by left|]. split; [|done].
    intros e [->|Hin%elem_of_nil]%elem_of_cons; done.
  - intros [= <- <-]. split; [done|]. split; [done|].
    assert (m ∈ filter (λ e, master_clock e = true) es) as Hm
      by (rewrite Hmasters; left).
    apply list_elem_of_filter in Hm as [Hclock Hin].
    split; [done|]. split.
    + intros e He Hm.
      assert (e ∈ filter (λ e, master_clock e = true) es) as He'
        by (by apply list_elem_of_filter).
      rewrite Hmasters in He'. by apply list_elem_of_singleton in He'.
    + congruence.
Qed.

(** X18.  When [find_engines] fails: it returns exactly when the names
    of the engines are distinct and either one engine sets
    [master_clock] or none does and there is one engine; in every other
    case (a name used twice, two masters, no master among several
    engines, no engine at all) it raises a [ValueError], and it raises
    nothing else. *)
Theorem find_engines_succeeds_iff point :
  let es := point ≫= ext_engines in
  let masters := filter (λ e, master_clock e = true) es in
  ((∃ r, find_engines point = Returns r) ↔
   NoDup (engine_name <$> es) ∧
   (length masters = 1%nat ∨ masters = [] ∧ length es = 1%nat)) ∧
  (∀ e, find_engines point = Raises e → e = ValueError).
Proof.
  rewrite find_engines_spec. cbv zeta.
  set (es := point ≫= ext_engines).
  set (masters := filter (λ e, master_clock e = true) es).
  case_decide as Hnd.
  - destruct masters as [|m [|m' rest]].
    + destruct es as [|candidate [|e es']]; cbn.
      * split; [|by intros e [= <-]]. split.
        -- by intros [r [=]].
        -- intros [_ [[=]|[_ [=]]]].
      * split; [|done]. split; [|by eexists].
        intros _. split; [done|]. by right.
      * split; [|by intros e0 [= <-]]. split.
        -- by intros [r [=]].
        -- intros [_ [[=]|[_ [=]]]].
    + split; [|done]. split; [|by eexists].
      intros _. split; [done|]. by left.
    + split; [|by intros e [= <-]]. split.
      * by intros [r [=]].
      * intros [_ [[=]|[[=] _]]].
  - split; [|by intros e [= <-]]. split.
    + by intros [r [=]].
    + by intros [? _].
Qed.

(** ** Discovery of the outputs *)

Lemma foldl_add_output os : ∀ outputs k,
  foldl add_output outputs os !! k =
    match last (filter (λ o, name o = k) os) with
    | Some o => Some o
    | None => outputs !! k
    end.
Proof.
  induction os as [|o os IH]; intros outputs k; [done|].
  cbn [foldl]. rewrite IH. unfold add_output.
  destruct (decide (name o = k)) as [Hk|Hk].
  - rewrite filter_cons_True by done. rewrite last_cons.
    destruct (last (filter _ os)); [done|].
    by rewrite <- Hk, lookup_insert_eq.
  - rewrite filter_cons_False by done.
    destruct (last (filter _ os)); [done|].
    by rewrite lookup_insert_ne.
Qed.

Lemma foldl_bind {St X Y} (f : St → Y → St) (g : X → list Y) xs : ∀ st,
  foldl (λ st x, foldl f st (g x)) st xs = foldl f st (xs ≫= g).
Proof.
  induction xs as [|x xs IH]; intros st; [done|].
  change ((x :: xs) ≫= g) with (g x ++ (xs ≫= g)).
  rewrite foldl_app. cbn [foldl]. apply IH.
Qed.

Lemma find_outputs_foldl channels point :
  (find_outputs channels point).1
    = foldl add_output ∅ (outputs_found channels point).
Proof.
  unfold find_outputs, outputs_found. rewrite foldl_app.
  set (connected := foldl _ ∅ channels).
  assert (connected
          = foldl add_output ∅
              (c ← channels;
               if is_OutputMixin c
               then o ← channel_children c; get_outputs o else [])) as ->.
  { subst connected. rewrite <- foldl_bind. generalize (∅ : gmap string Declarative).
    induction channels as [|c channels IH]; intros outputs; [done|].
    cbn [foldl]. rewrite <- IH. f_equal.
    destruct (is_OutputMixin c); [|done]. by rewrite foldl_bind. }
  generalize (foldl add_output ∅
                (c ← channels;
                 if is_OutputMixin c
                 then o ← channel_children c; get_outputs o else [])).
  generalize (∅ : gmap string SynchronizedItem).
  induction point as [|extension point IH]; intros supporting outputs;
    [done|].
  cbn [foldl].
  rewrite bind_cons, !foldl_app.
  generalize (foldl add_output outputs (ext_outputs extension)).
  clear outputs. revert supporting.
  induction (ext_synchronized extension) as [|s ss IHs];
    intros supporting outputs; [apply IH|].
  cbn [foldl]. rewrite bind_cons, foldl_app. apply IHs.
Qed.

(** X19.  [find_outputs] files the outputs it comes across under their
    names: first the outputs below the output channels, each with the
    whole tree under it, then for every extension its own outputs and
    those of its synchronized groups, without their children.  An entry
    of the dict is the last output found with this name (no error is
    raised when a name is used twice, unlike for engines), so every entry
    is filed under its own name and every output found has its name in
    the dict. *)
Theorem find_outputs_last_wins channels point :
  let outputs := (find_outputs channels point).1 in
  let found := outputs_found channels point in
  (∀ k, outputs !! k = last (filter (λ o, name o = k) found)) ∧
  (∀ k o, outputs !! k = Some o → name o = k ∧ o ∈ found) ∧
  (∀ o, o ∈ found → is_Some (outputs !! name o)).
Proof.
  cbv zeta.
  assert (∀ k, (find_outputs channels point).1 !! k
               = last (filter (λ o, name o = k)
                         (outputs_found channels point))) as Hlast.
  { intros k. rewrite find_outputs_foldl, foldl_add_output.
    by destruct (last _). }
  split; [done|]. split.
  - intros k o. rewrite Hlast. intros Hin%last_Some_elem_of.
    by apply list_elem_of_filter in Hin.
  - intros o Ho. rewrite Hlast.
    destruct (last (filter _ _)) eqn:Hnone; [done|].
    apply last_None in Hnone.
    assert (o ∈ filter (λ o', name o' = name o)
                  (outputs_found channels point)) as Hin
      by (by apply list_elem_of_filter).
    rewrite Hnone in Hin. by apply elem_of_nil in Hin.
Qed.

(** An instance: two extensions with an engine each, the second of which
    provides the clock. *)
Lemma find_engines_master_witness :
  let ni := mkEngineItem "NI" false in
  let tdt := mkEngineItem "TDT" true in
  find_engines [mkIOExtension [ni] [] []; mkIOExtension [tdt] [] []]
    = Returns ([("NI", ni); ("TDT", tdt)], tdt) ∧
  tdt ∈ [ni; tdt].
Proof.
  intros ni tdt. split; [reflexivity|].
  destruct (find_engines_master
              [mkIOExtension [ni] [] []; mkIOExtension [tdt] [] []]
              [("NI", ni); ("TDT", tdt)] tdt eq_refl)
    as (_ & _ & Hin & _).
  exact Hin.
Defined.

(** An instance: the output below a channel is found with its child; the
    child of an output that an extension declares is not. *)
Lemma find_outputs_skips_children_of_unconnected_outputs :
  let tone := mkDeclarative "tone" [mkDeclarative "envelope" []] in
  let noise := mkDeclarative "noise" [mkDeclarative "masker" []] in
  let outputs :=
    (find_outputs [mkChannelItem true [tone]]
       [mkIOExtension [] [noise] []]).1 in
  outputs !! "envelope" = Some (mkDeclarative "envelope" []) ∧
  outputs !! "noise" = Some noise ∧
  outputs !! "masker" = None.
Proof. by vm_compute. Qed.

(** ** Events and actions *)

Lemma list_ascii_of_string_app a b :
  String.list_ascii_of_string (a +:+ b)
    = String.list_ascii_of_string a ++ String.list_ascii_of_string b.
Proof.
  induction a as [|c a IH]; [done|].
  change (String c a +:+ b) with (String c (a +:+ b)).
  cbn [String.list_ascii_of_string]. by rewrite IH.
Qed.

Lemma endswith_app key suffix : endswith (key +:+ suffix) suffix = true.
Proof.
  unfold endswith. apply bool_decide_eq_true.
  rewrite list_ascii_of_string_app. by eexists.
Qed.

Lemma drop_last_app key suffix :
  drop_last (length (String.list_ascii_of_string suffix)) (key +:+ suffix)
    = key.
Proof.
  unfold drop_last. rewrite list_ascii_of_string_app, length_app.
  rewrite Nat.add_sub, take_app_length.
  apply String.string_of_list_ascii_of_string.
Qed.

Lemma endswith_last s suffix c :
  last (String.list_ascii_of_string suffix) = Some c →
  endswith s suffix = true →
  last (String.list_ascii_of_string s) = Some c.
Proof.
  unfold endswith. intros Hc [k ->]%bool_decide_eq_true.
  by rewrite last_app, Hc.
Qed.

Lemma update_state_start context key :
  update_state context (key +:+ "_start")
    = <[key +:+ "_active" := true]> context.
Proof.
  unfold update_state. rewrite endswith_app.
  pose proof (drop_last_app key "_start") as Hkey.
  change (length _) with 6%nat in Hkey. by rewrite Hkey.
Qed.

Lemma update_state_end context key :
  update_state context (key +:+ "_end")
    = <[key +:+ "_active" := false]> context.
Proof.
  unfold update_state.
  assert (endswith (key +:+ "_end") "_start" = false) as ->.
  { destruct (endswith (key +:+ "_end") "_start") eqn:Hstart; [|done].
    eapply (endswith_last _ "_start") in Hstart; [|reflexivity].
    rewrite list_ascii_of_string_app, last_app in Hstart. done. }
  rewrite endswith_app.
  pose proof (drop_last_app key "_end") as Hkey.
  change (length _) with 4%nat in Hkey. by rewrite Hkey.
Qed.

Lemma _action_context_invoke_actions w event_name timestamp kw :
  _action_context (plugin (_invoke_actions w event_name timestamp kw))
    = update_state (_action_context (plugin w)) event_name.
Proof. unfold _invoke_actions. by destruct timestamp. Qed.


(** X21.  The keyword arguments an action is called with: the entries of
    [kw] come first, then the name of the event under ["event"] and the
    timestamp under ["timestamp"], then the [kwargs] of the action; so
    [kw] can replace the event and the timestamp, and the [kwargs] of the
    action cannot. *)
Theorem _invoke_action_kwargs action event_name timestamp kw calls :
  action_kind action ≠ ExperimentActionBase →
  ∃ kwargs,
    _invoke_action action event_name timestamp kw calls
      = calls ++ [match action_kind action with
                  | ExperimentCallback callback =>
                      call_callback callback kwargs
                  | ExperimentAction command => invoke_command command kwargs
                  | ExperimentActionBase => call_callback "" kwargs
                  end] ∧
    ∀ key,
      kwargs !! key =
        match kw ≫= (.!! key) with
        | Some v => Some v
        | None =>
            if decide (key = "event") then Some (PStr event_name)
            else if decide (key = "timestamp")
                 then Some (from_option PFloat PNone timestamp)
                 else action_kwargs action !! key
        end.
Proof.
  intros Hkind. unfold _invoke_action. cbv zeta.
  eexists. split; [by destruct (action_kind action)|].
  intros key.
  assert (∀ m : gmap string pyval,
            m = <["event" := PStr event_name]>
                  (<["timestamp" := from_option PFloat PNone timestamp]>
                     (action_kwargs action)) →
            m !! key =
              if decide (key = "event") then Some (PStr event_name)
              else if decide (key = "timestamp")
                   then Some (from_option PFloat PNone timestamp)
                   else action_kwargs action !! key) as Hm.
  { intros m ->. repeat case_decide; subst.
    - by rewrite lookup_insert_eq.
    - by rewrite lookup_insert_ne, lookup_insert_eq.
    - by rewrite !lookup_insert_ne. }
  destruct kw as [kw|]; cbn [mbind option_bind].
  - rewrite lookup_union. rewrite (Hm _ eq_refl).
    by destruct (kw !! key) as [v|],
               (if decide (key = "event") then _ else _).
  - by apply Hm.
Qed.

(** X22.  A delayed invocation whose time has not come invokes nothing:
    the plugin and the calls made are as before, and the event loop is
    asked to start a timer for the remaining time, after it has stopped
    the timer the event had if [cancel_existing] is set.  Once the event
    loop has run, this timer is the timer of the event; when it fires,
    the actions are invoked with the timestamp and without [kw], which a
    delayed invocation drops.  A delayed invocation whose time has come
    is made at once, with [kw]; one without a timestamp fails with a
    [TypeError]. *)
Theorem invoke_actions_delayed (w : PluginWorld) (event_name : string)
    (t : Q) (cancel_existing : bool) kw :
  let cancelled :=
    if cancel_existing then defer (call_stop_timer event_name) w else w in
  let delay := (t - plugin_ts (plugin w))%Q in
  ((plugin_ts (plugin w) < t)%Q →
   ∃ w',
     invoke_actions w event_name (Some t) true cancel_existing kw
       = Returns w' ∧
     plugin w' = plugin w ∧
     invocations w' = invocations w ∧
     deferred (application w')
       = deferred (application cancelled)
         ++ [call_start_timer event_name delay event_name t] ∧
     _timers (plugin (run_event_loop w')) !! event_name
       = Some (delay, (event_name, t)) ∧
     timeout (run_event_loop w') event_name
       = _invoke_actions (run_event_loop w') event_name (Some t) None) ∧
  ((t <= plugin_ts (plugin w))%Q →
   invoke_actions w event_name (Some t) true cancel_existing kw
     = Returns (_invoke_actions cancelled event_name (Some t) kw)) ∧
  invoke_actions w event_name None true cancel_existing kw
    = Raises TypeError.
Proof.
  intros cancelled delay.
  assert (plugin_ts (plugin cancelled) = plugin_ts (plugin w)) as Hts
    by (subst cancelled; by destruct cancel_existing).
  assert (plugin cancelled = plugin w ∧
          invocations cancelled = invocations w) as [Hp Hi]
    by (subst cancelled; by destruct cancel_existing).
  split; [|split].
  - intros Hlt. unfold invoke_actions. fold cancelled. rewrite Hts.
    fold delay.
    destruct (Qlt_le_dec 0 delay) as [_|Hle].
    2: { exfalso. apply Qlt_minus_iff in Hlt.
         apply (Qlt_not_le _ _ Hlt). exact Hle. }
    eexists. split; [done|]. split; [done|]. split; [done|].
    split; [done|].
    assert (_timers (plugin (run_event_loop
              (defer (call_start_timer event_name delay event_name t)
                 cancelled))) !! event_name
            = Some (delay, (event_name, t))) as Htimer.
    { unfold run_event_loop, defer, deferred_call.
      cbn [plugin application deferred].
      rewrite foldl_app. cbn [foldl run_deferred start_timer set_timers
                                _timers].
      apply lookup_insert_eq. }
    split; [done|]. unfold timeout at 1. by rewrite Htimer.
  - intros Hle. unfold invoke_actions. fold cancelled. rewrite Hts.
    fold delay.
    destruct (Qlt_le_dec 0 delay) as [Hlt|_]; [|done].
    exfalso. apply Qlt_minus_iff in Hlt.
    apply (Qlt_not_le _ _ Hlt). exact Hle.
  - unfold invoke_actions. done.
Qed.


(** An instance: [kw] replaces the name of the event, not the
    timestamp. *)
Lemma _invoke_action_kwargs_witness :
  ∃ kwargs,
    _invoke_action reward_action "trial_start" (Some 2%Q)
        (Some {["event" := PStr "override"]}) []
      = [invoke_command "reward" kwargs] ∧
    kwargs !! "event" = Some (PStr "override") ∧
    kwargs !! "timestamp" = Some (PFloat 2).
Proof.
  destruct (_invoke_action_kwargs reward_action "trial_start" (Some 2%Q)
              (Some {["event" := PStr "override"]}) [])
    as (kwargs & Hcall & Hkwargs); [discriminate|].
  exists kwargs. split; [exact Hcall|].
  split; rewrite Hkwargs; reflexivity.
Defined.

(** An instance: at 5 seconds, the end of the trial is announced for 7
    seconds. *)
Lemma invoke_actions_delayed_witness :
  ∃ w',
    invoke_actions plugin_at_5 "trial_end" (Some 7%Q) true true None
      = Returns w' ∧
    invocations w' = [] ∧
    _timers (plugin (run_event_loop w')) !! "trial_end"
      = Some ((7 - 5)%Q, ("trial_end", 7%Q)).
Proof.
  destruct (invoke_actions_delayed plugin_at_5 "trial_end" 7 true None)
    as (Hfuture & _).
  destruct Hfuture as (w' & Hcall & _ & Hcalls & _ & Htimer & _);
    [reflexivity|].
  exists w'. split; [exact Hcall|]. split; [exact Hcalls | exact Htimer].
Defined.
